(** * The training engine of [skqulacs.qnn.classifier.QNNClassifier]

    A shallow embedding of [src/skqulacs/qnn/classifier.py] and the
    properties of its cost function, gradient, decoder and Adam driver.

    Conventions of the embedding:
    - numpy [float64] values are real numbers ([R]): arithmetic is exact
      and [v ** 0.5] is [sqrt v]; rounding, overflow, [inf] and [nan] are
      outside the model;
    - [np.exp] and [np.log] belong to numpy, not to the sources: they are
      the two functions of a [Numpy] instance, [exp] and [ln] in exact
      arithmetic;
    - integer targets (raw labels and one-hot bits) are [Z];
    - Python lists and numpy arrays are [list]s, read with [!!] and
      written with [<[i:=v]>]; an access out of range raises [IndexError];
    - exceptions are the [Raise] results of the [res] type;
    - the circuit is the only mutable object: every method that touches
      it is a function from the circuit before the call to a result and
      the circuit after the call. *)

From Stdlib Require Import Reals Lra Lia ZArith String.
From stdpp Require Import base list.

Open Scope R_scope.

(** ** Python results and loops *)

Inductive exn : Set :=
| NotImplementedError
| IndexError
| ZeroDivisionError
| TypeError
| ValueError.

Inductive res (A : Type) : Type :=
| Ok (a : A)
| Raise (e : exn).

Arguments Ok {A} a.
Arguments Raise {A} e.

Definition bind {A B : Type} (m : res A) (k : A -> res B) : res B :=
  match m with
  | Ok a => k a
  | Raise e => Raise e
  end.

Notation "'let*' x ':=' m 'in' k" := (bind m (fun x => k))
  (at level 10, x name, m at level 100, k at level 200).

(** [l[i]] on a Python list or a numpy array, for [i >= 0]. *)
Definition idx {A : Type} (l : list A) (i : nat) : res A :=
  match l !! i with
  | Some v => Ok v
  | None => Raise IndexError
  end.

(** [range(n)]. *)
Definition range (n : nat) : list nat := seq 0 n.

(** [for a in l: s = body(a, s)], stopping at the first exception. *)
Fixpoint for_ {A S : Type} (l : list A) (body : A -> S -> res S) (s : S) : res S :=
  match l with
  | [] => Ok s
  | a :: l' =>
      match body a s with
      | Ok s' => for_ l' body s'
      | Raise e => Raise e
      end
  end.

(** [l[a : a + n]]: a slice is cut at the end of the list. *)
Definition slice {A : Type} (l : list A) (a n : nat) : list A := take n (drop a l).

(** [range(0, stop, 5)] for a Python integer [stop]. *)
Definition range_by5 (stop : Z) : list nat :=
  map (fun i => (5 * i)%nat) (seq 0 (Z.to_nat ((stop + 4) / 5))).

(** [a % n] for non-negative [a]. *)
Definition pymod (a n : nat) : res nat :=
  if (n =? 0)%nat then Raise ZeroDivisionError else Ok (a mod n)%nat.

(** ** numpy vectors *)

Definition vdiv (v : list R) (a : R) : list R := map (fun x => x / a) v.

Definition zeros (n : nat) : list R := replicate n 0.

(** [np.dot(u, v)] of two vectors of one length. *)
Definition dot (u v : list R) : R :=
  foldr Rplus 0 (zip_with Rmult u v).

(** [u op v] with numpy's broadcasting of one-dimensional arrays: equal
    lengths, or one side of length 1. *)
Definition vop (op : R -> R -> R) (u v : list R) : res (list R) :=
  if (length u =? length v)%nat then Ok (zip_with op u v)
  else match u, v with
       | [a], _ => Ok (map (op a) v)
       | _, [b] => Ok (map (fun x => op x b) u)
       | _, _ => Raise ValueError
       end.

(** [u op= v]: in place, the result keeps the shape of [u]. *)
Definition vop_inplace (op : R -> R -> R) (u v : list R) : res (list R) :=
  if (length u =? length v)%nat then Ok (zip_with op u v)
  else match v with
       | [b] => Ok (map (fun x => op x b) u)
       | _ => Raise ValueError
       end.

(** ** The transcendental functions of numpy

    [np.exp] and [np.log] are parameters.  [exact_numpy] computes with
    the real exponential and logarithm. *)

Class Numpy : Type := {
  np_exp : R -> R;
  np_log : R -> R
}.

Definition exact_numpy : Numpy := {| np_exp := exp; np_log := ln |}.

(** [np.exp] is positive everywhere, as the real exponential is. *)
Definition exp_positive (NP : Numpy) : Prop := forall x, 0 < np_exp x.

(** ** The grouped softmax, in the words of the specification *)

Fixpoint sumf (f : nat -> R) (n : nat) : R :=
  match n with
  | O => 0
  | S m => sumf f m + f m
  end.

(** [r[i]], read as 0 out of range. *)
Definition rd (r : list R) (i : nat) : R := nth i r 0.

(** [groupOffsets[j]], the sum of the sizes of the groups before [j]. *)
Definition offset_of (sizes : list nat) (j : nat) : nat := sum_list (take j sizes).

Section GroupedSoftmax.

Context {NP : Numpy}.

(** [p_k = exp(gamma * r[h+k]) / sum_{k' < s} exp(gamma * r[h+k'])]. *)
Definition softmax_prob (gamma : R) (r : list R) (h s k : nat) : R :=
  np_exp (gamma * rd r (h + k)) / sumf (fun k' => np_exp (gamma * rd r (h + k'))) s.

(** One softmax per group, the groups laid out one after the other. *)
Definition grouped_softmax (gamma : R) (sizes : list nat) (r : list R) : list R :=
  flat_map (fun j => map (softmax_prob gamma r (offset_of sizes j) (nth j sizes 0%nat))
                         (seq 0 (nth j sizes 0%nat)))
           (seq 0 (length sizes)).

(** [p] is one of the quotients of the grouped softmax of [r]. *)
Definition is_quotient (gamma : R) (sizes : list nat) (r : list R) (p : R) : Prop :=
  exists j k, (j < length sizes)%nat /\ (k < nth j sizes 0)%nat /\
    p = softmax_prob gamma r (offset_of sizes j) (nth j sizes 0%nat) k.

(** The entries of [ypf] at the positions below [n] where the target is 1. *)
Definition hot_args (ypf : list R) (ysf : list Z) (n : nat) : list R :=
  flat_map (fun i => if (nth i ysf 0%Z =? 1)%Z then [rd ypf i] else []) (seq 0 n).

(** [cost -= np.log(p)] for every [p] of [args], from [cost = 0]. *)
Definition neg_log_sum (args : list R) : R :=
  fold_left (fun c p => c - np_log p) args 0.

(** The cost in the words of the specification: the sum of [-log(p)]
    over the one-hot positions where the target is 1, divided by the
    number of samples. *)
Definition mean_over_samples (ypf : list R) (y_scaled : list (list Z)) : R :=
  neg_log_sum (hot_args ypf (concat y_scaled) (length (concat y_scaled)))
  / INR (length y_scaled).

End GroupedSoftmax.

(** [a] is the index of the first maximum among [r[h], ..., r[h+s-1]]. *)
Definition first_argmax (r : list R) (h s a : nat) : Prop :=
  (a < s)%nat /\
  (forall k, (k < s)%nat -> rd r (h + k) <= rd r (h + a)) /\
  (forall k, (k < a)%nat -> rd r (h + k) < rd r (h + a)).

(** [res[i][j]] of a matrix of labels. *)
Definition cell (res : list (list nat)) (i j : nat) : option nat :=
  match res !! i with
  | Some row => row !! j
  | None => None
  end.

(** ** The circuit adapter

    [skqulacs.circuit.LearningCircuit] and qulacs are not part of the
    sources: the adapter is a parameter of the development.  [circ] is the
    circuit object, [qstate] the state handle returned by [run].  Every
    operation may change the circuit, [backprop] included.  Vectors are
    passed by value: an adapter that keeps the array object it was given
    in [update_parameters], and so sees the later in-place updates of
    [theta_now], is outside the model. *)

(** A qulacs [Observable] built by [add_operator(coef, f"Z {i}")]: the
    list of its terms, in the order they were added. *)
Definition Observable : Type := list (R * nat).

Record LearningCircuit : Type := {
  circ : Type;
  qstate : Type;
  n_qubit : nat;
  get_parameters : circ -> list R;
  update_parameters : list R -> circ -> circ;
  run : list R -> circ -> qstate * circ;
  get_expectation_value : nat -> qstate -> R;
  backprop : list R -> Observable -> circ -> list R * circ
}.

(** What the training engine relies on: [update_parameters] stores the
    vector it is given and [run] leaves the stored vector alone. *)
Record LawfulCircuit (LC : LearningCircuit) : Prop := {
  get_update : forall theta c,
    get_parameters LC (update_parameters LC theta c) = theta;
  run_parameters : forall x c,
    get_parameters LC (snd (run LC x c)) = get_parameters LC c
}.

(** The weighted observable in the words of the specification: on each
    of the first [width] qubits [i], the weight [gamma * (p_i - y_i)]. *)
Definition weighted_observable (gamma : R) (p : list R) (y : list Z) (width : nat)
    : Observable :=
  map (fun i => (gamma * (rd p i - IZR (nth i y 0%Z)), i)) (seq 0 width).

(** One [backprop] call per sample, in order, each from the circuit that
    the call before left; the gradients are summed into [acc]. *)
Fixpoint backprop_sum (LC : LearningCircuit) (samples : list (list R * Observable))
    (acc : list R) (c : circ LC) : list R * circ LC :=
  match samples with
  | [] => (acc, c)
  | (x, obs) :: rest =>
      let '(g, c') := backprop LC x obs c in
      backprop_sum LC rest (zip_with Rplus acc g) c'
  end.

(** ** numpy arrays of one or two dimensions *)

Inductive ndarray (A : Type) : Type :=
| Arr1 (v : list A)
| Arr2 (m : list (list A)).

Arguments Arr1 {A} v.
Arguments Arr2 {A} m.

(** [if a.ndim == 1: a = a.reshape((-1, 1))]. *)
Definition as_2d {A : Type} (a : ndarray A) : list (list A) :=
  match a with
  | Arr1 v => map (fun x => [x]) v
  | Arr2 m => m
  end.

(** ** The one-hot encoder *)

Fixpoint insert_sorted (z : Z) (l : list Z) : list Z :=
  match l with
  | [] => [z]
  | h :: t =>
      if (z <? h)%Z then z :: l
      else if (z =? h)%Z then l
      else h :: insert_sorted z t
  end.

(** Modelled from the spec: the target encoder ([sklearn]'s
    [OneHotEncoder], not in the sources).  [categories_] holds, per
    column, the distinct levels found in the training data, in increasing
    order; fitting needs at least one sample. *)
Definition enc_categories (y : list (list Z)) : res (list (list Z)) :=
  match y with
  | [] => Raise ValueError
  | row0 :: _ =>
      Ok (map (fun j => foldr insert_sorted [] (map (fun row => nth j row 0%Z) y))
              (seq 0 (length row0)))
  end.

(** Modelled from the spec: [transform] is the standard one-hot per
    column, concatenated across columns in column order. *)
Definition enc_transform (cats : list (list Z)) (y : list (list Z)) : list (list Z) :=
  map (fun row =>
         concat (zip_with (fun c v => map (fun l => if (l =? v)%Z then 1%Z else 0%Z) c)
                          cats row)) y.

(** ** The classifier *)

Section Classifier.

Context {NP : Numpy} (LC : LearningCircuit).

(** A computation on the circuit. *)
Definition M (A : Type) : Type := circ LC -> res A * circ LC.

Definition ret {A : Type} (a : A) : M A := fun c => (Ok a, c).

Definition lift {A : Type} (r : res A) : M A := fun c => (r, c).

Definition bindM {A B : Type} (m : M A) (k : A -> M B) : M B :=
  fun c =>
    match m c with
    | (Ok a, c') => k a c'
    | (Raise e, c') => (Raise e, c')
    end.

Notation "'do*' x ':=' m 'in' k" := (bindM m (fun x => k))
  (at level 10, x name, m at level 100, k at level 200).

Fixpoint forM_ {A S : Type} (l : list A) (body : A -> S -> M S) (s : S) : M S :=
  match l with
  | [] => ret s
  | a :: l' => do* s' := body a s in forM_ l' body s'
  end.

(** The attributes of [self] that the methods read.  [scale_y_param] is
    [[]] until [fit] sets it to [[syurui, syurui_rui]]. *)
Record QNNClassifier : Type := {
  num_class : nat;
  solver : string;
  cost : string;
  do_x_scale : bool;
  x_norm_range : R;
  y_exp_ratio : R;
  callback : option (list R -> M unit);
  scale_y_param : list (list nat)
}.

Definition set_scale_y_param (self : QNNClassifier) (p : list (list nat)) : QNNClassifier :=
  {| num_class := num_class self; solver := solver self; cost := cost self;
     do_x_scale := do_x_scale self; x_norm_range := x_norm_range self;
     y_exp_ratio := y_exp_ratio self; callback := callback self;
     scale_y_param := p |}.

(** [get_y_scale_param]: the sizes of the groups and their running sum.
    [y_scale_step] is the body of its loop over [self.enc.categories_]. *)
Definition y_scale_step (st : list nat * list nat * nat) (aaa : list Z)
    : list nat * list nat * nat :=
  let '(syurui, syurui_rui, genkaz) := st in
  (syurui ++ [length aaa], syurui_rui ++ [(genkaz + length aaa)%nat],
   (genkaz + length aaa)%nat).

Definition get_y_scale_param (categories_ : list (list Z)) : list (list nat) :=
  let '(syurui, syurui_rui, _) :=
    fold_left y_scale_step categories_ ([], [0%nat], 0%nat) in
  [syurui; syurui_rui].

(** [_predict_inner]: one circuit run per sample, then one expectation
    value per qubit. *)
Fixpoint _predict_inner (x_list : list (list R)) (c : circ LC) : list (list R) * circ LC :=
  match x_list with
  | [] => ([], c)
  | x :: xs =>
      let '(state, c1) := run LC x c in
      let r := map (fun i => get_expectation_value LC i state) (range (n_qubit LC)) in
      let '(res, c2) := _predict_inner xs c1 in
      (r :: res, c2)
  end.

(** The inner loop [wa += np.exp(y_exp_ratio * row[hid + k])]. *)
Definition softmax_wa (gamma : R) (row : list R) (hid n : nat) : res R :=
  for_ (range n)
       (fun k wa => let* v := idx row (hid + k) in Ok (wa + np_exp (gamma * v))) 0.

(** The loops of [cost_func] that fill [ypf]. *)
Definition cost_ypf (self : QNNClassifier) (y_pred : list (list R)) : res (list R) :=
  for_ (range (length y_pred))
    (fun i ypf =>
       let* p0 := idx (scale_y_param self) 0 in
       for_ (range (length p0))
         (fun j ypf =>
            let* p1 := idx (scale_y_param self) 1 in
            let* hid := idx p1 j in
            let* n := idx p0 j in
            let* row := idx y_pred i in
            let* wa := softmax_wa (y_exp_ratio self) row hid n in
            for_ (range n)
              (fun k ypf =>
                 let* v := idx row (hid + k) in
                 Ok (ypf ++ [np_exp (y_exp_ratio self * v) / wa]))
              ypf)
         ypf)
    [].

(** The loop of [cost_func] over [ysf], then [cost /= len(ysf)].  [cost]
    starts as the Python integer 0: with an empty [ysf] the division
    raises. *)
Definition cost_sum (ypf : list R) (ysf : list Z) : res R :=
  let* cost :=
    for_ (range (length ysf))
      (fun i cost =>
         let* t := idx ysf i in
         if (t =? 1)%Z then let* p := idx ypf i in Ok (cost - np_log p)
         else Ok cost)
      0 in
  if (length ysf =? 0)%nat then Raise ZeroDivisionError
  else Ok (cost / INR (length ysf)).

Definition cost_func (self : QNNClassifier) (theta : list R)
    (x_scaled : list (list R)) (y_scaled : list (list Z)) : M R :=
  if (cost self =? "log_loss")%string then
    fun c =>
      let c1 := update_parameters LC theta c in
      let '(y_pred, c2) := _predict_inner x_scaled c1 in
      (let* ypf := cost_ypf self y_pred in cost_sum ypf (concat y_scaled), c2)
  else lift (Raise NotImplementedError).

(** [rev_y_scale]: the per-group argmax. *)
Definition argmax_scan (row : list R) (hid n : nat) : res (R * nat) :=
  for_ (range n)
    (fun k '(sai, arg) =>
       let* v := idx row (hid + k) in
       if Rlt_dec sai v then Ok (v, k) else Ok (sai, arg))
    (-99998888, 0%nat).

Definition rev_y_scale (self : QNNClassifier) (y_inr : list (list R)) : res (list (list nat)) :=
  let* p0 := idx (scale_y_param self) 0 in
  let res0 := replicate (length y_inr) (replicate (length p0) 0%nat) in
  for_ (range (length y_inr))
    (fun i res =>
       let* p0 := idx (scale_y_param self) 0 in
       for_ (range (length p0))
         (fun j res =>
            let* p1 := idx (scale_y_param self) 1 in
            let* hid := idx p1 j in
            let* n := idx p0 j in
            let* row := idx y_inr i in
            let* sa := argmax_scan row hid n in
            let* resi := idx res i in
            if (j <? length resi)%nat then Ok (<[i := <[j := snd sa]> resi]> res)
            else Raise IndexError)
         res)
    res0.

(** The softmax of [_cost_func_grad], written over [mto[h]] in place. *)
Definition grad_softmax (self : QNNClassifier) (row : list R) : res (list R) :=
  let* p0 := idx (scale_y_param self) 0 in
  for_ (range (length p0))
    (fun j row =>
       let* p1 := idx (scale_y_param self) 1 in
       let* hid := idx p1 j in
       let* n := idx p0 j in
       let* wa := softmax_wa (y_exp_ratio self) row hid n in
       for_ (range n)
         (fun k row =>
            let* v := idx row (hid + k) in
            Ok (<[(hid + k)%nat := np_exp (y_exp_ratio self * v) / wa]> row))
         row)
    row.

(** The loop that builds [backobs] for sample [h]. *)
Definition grad_backobs (self : QNNClassifier) (row : list R)
    (y_scaled : list (list Z)) (h : nat) : res Observable :=
  let* y0 := idx y_scaled 0 in
  for_ (range (length y0))
    (fun i backobs =>
       let* m := idx row i in
       let* yh := idx y_scaled h in
       let* t := idx yh i in
       Ok (backobs ++ [((m - IZR t) * y_exp_ratio self, i)]))
    [].

Definition _cost_func_grad (self : QNNClassifier) (theta : list R)
    (x_scaled : list (list R)) (y_scaled : list (list Z)) : M (list R) :=
  fun c =>
    let c1 := update_parameters LC theta c in
    let '(mto, c2) := _predict_inner x_scaled c1 in
    match
      forM_ (range (length x_scaled))
        (fun h '(mto, grad) =>
           do* row := lift (idx mto h) in
           do* row' := lift (grad_softmax self row) in
           let mto' := <[h := row']> mto in
           do* backobs := lift (grad_backobs self row' y_scaled h) in
           do* x := lift (idx x_scaled h) in
           do* g := (fun c => let '(g, c') := backprop LC x backobs c in (Ok g, c')) in
           do* grad' := lift (vop_inplace Rplus grad g) in
           ret (mto', grad'))
        (mto, zeros (length theta)) c2
    with
    | (Ok (_, grad), c3) =>
        (Ok (vdiv grad (INR (length x_scaled))), update_parameters LC theta c3)
    | (Raise e, c3) => (Raise e, c3)
    end.

(** ** The Adam driver of [fit] *)

Definition pr_A : R := 0.02.
Definition pr_Bi : R := 0.8.
Definition pr_Bt : R := 0.995.
Definition pr_ips : R := 0.0000001.

(** The variables that the loop of the Adam branch carries. *)
Record adam_state : Type := {
  Bix : R;
  Btx : R;
  moment : list R;
  vel : R;
  theta_now : list R
}.

Definition adam_init (theta_init : list R) : adam_state :=
  {| Bix := 0; Btx := 0; moment := zeros (length theta_init); vel := 0;
     theta_now := theta_init |}.

(** Lines 149 to 153: the update of one step, given the gradient. *)
Definition adam_update (s : adam_state) (grad : list R) : res adam_state :=
  let* moment' :=
    vop Rplus (map (fun m => m * pr_Bi) (moment s)) (map (fun g => (1 - pr_Bi) * g) grad) in
  let vel' := vel s * pr_Bt + (1 - pr_Bt) * dot grad grad in
  let Bix' := Bix s * pr_Bi + (1 - pr_Bi) in
  let Btx' := Btx s * pr_Bt + (1 - pr_Bt) in
  let* theta' :=
    vop_inplace Rminus (theta_now s)
      (map (fun m => pr_A / (sqrt (vel' / Btx') + pr_ips) * m) (vdiv moment' Bix')) in
  Ok {| Bix := Bix'; Btx := Btx'; moment := moment'; vel := vel'; theta_now := theta' |}.

(** The two slices that step [iter] passes to [_cost_func_grad]. *)
Definition adam_batch {A B : Type} (x_train : list (list A)) (y_train : list (list B))
    (x_scaled : list (list R)) (y_scaled : list (list Z)) (iter : nat)
    : res (list (list R) * list (list Z)) :=
  let* a := pymod iter (length x_train) in
  let* b := pymod iter (length y_train) in
  Ok (slice x_scaled a 5, slice y_scaled b 5).

Definition adam_step (self : QNNClassifier) (x_train : list (list R))
    (y_train : list (list Z)) (x_scaled : list (list R)) (y_scaled : list (list Z))
    (iter : nat) (s : adam_state) : M adam_state :=
  do* xy := lift (adam_batch x_train y_train x_scaled y_scaled iter) in
  do* grad := _cost_func_grad self (theta_now s) (fst xy) (snd xy) in
  do* s' := lift (adam_update s grad) in
  do* u := match callback self with
           | Some cb => cb (theta_now s')
           | None => ret tt
           end in
  ret s'.

Definition adam_loop (self : QNNClassifier) (x_train : list (list R))
    (y_train : list (list Z)) (x_scaled : list (list R)) (y_scaled : list (list Z))
    (maxiter : Z) (theta_init : list R) : M adam_state :=
  forM_ (range_by5 (maxiter * Z.of_nat (length x_train)))
        (adam_step self x_train y_train x_scaled y_scaled)
        (adam_init theta_init).

(** ** [fit]

    The feature scaler ([MinMaxScaler.fit_transform], given the range) and
    [scipy.optimize.minimize] (given the cost, the optional gradient, the
    start, the method and [maxiter]) are external. *)

Context (fit_transform : R -> list (list R) -> res (list (list R))).
Context (minimize : (list R -> M R) -> option (list R -> M (list R)) ->
                    list R -> string -> option Z -> M (R * list R)).

Definition fit (self : QNNClassifier) (x_train : ndarray R) (y_train : ndarray Z)
    (maxiter : option Z) : M (R * list R) :=
  let y_train := as_2d y_train in
  do* categories_ := lift (enc_categories y_train) in
  let y_scaled := enc_transform categories_ y_train in
  let self := set_scale_y_param self (get_y_scale_param categories_) in
  let x_train := as_2d x_train in
  do* x_scaled :=
    (if do_x_scale self then lift (fit_transform (x_norm_range self) x_train)
     else ret x_train) in
  do* theta_init := (fun c => (Ok (get_parameters LC c), c)) in
  if (solver self =? "Nelder-Mead")%string then
    minimize (fun theta => cost_func self theta x_scaled y_scaled) None
             theta_init (solver self) maxiter
  else if (solver self =? "BFGS")%string then
    minimize (fun theta => cost_func self theta x_scaled y_scaled)
             (Some (fun theta => _cost_func_grad self theta x_scaled y_scaled))
             theta_init (solver self) maxiter
  else if (solver self =? "Adam")%string then
    match maxiter with
    | None => lift (Raise TypeError)
    | Some maxiter =>
        do* s := adam_loop self x_train y_train x_scaled y_scaled maxiter theta_init in
        do* loss := cost_func self (theta_now s) x_train y_train in
        ret (loss, theta_now s)
    end
  else lift (Raise NotImplementedError).

End Classifier.

Arguments num_class {LC} _.
Arguments solver {LC} _.
Arguments cost {LC} _.
Arguments do_x_scale {LC} _.
Arguments x_norm_range {LC} _.
Arguments y_exp_ratio {LC} _.
Arguments callback {LC} _.
Arguments scale_y_param {LC} _.
Arguments set_scale_y_param {LC} self p.
Arguments cost_ypf {NP LC} self y_pred.
Arguments cost_func {NP LC} self theta x_scaled y_scaled.
Arguments rev_y_scale {LC} self y_inr.
Arguments grad_softmax {NP LC} self row.
Arguments grad_backobs {LC} self row y_scaled h.
Arguments _cost_func_grad {NP LC} self theta x_scaled y_scaled.
Arguments adam_step {NP LC} self x_train y_train x_scaled y_scaled iter s.
Arguments adam_loop {NP LC} self x_train y_train x_scaled y_scaled maxiter theta_init.
Arguments fit {NP LC} fit_transform minimize self x_train y_train maxiter.

(** ** A concrete adapter

    A circuit on two qubits with one parameter, whose expectation values
    are all 0 and whose gradient is 0.  It counts its runs and its
    [backprop] calls, and [backprop] leaves the stored parameter shifted
    to 0, as an adapter that differentiates by moving its parameters may. *)

Record toy_circ : Type := {
  toy_params : list R;
  toy_runs : nat;
  toy_backprops : nat
}.

Definition toy : LearningCircuit := {|
  circ := toy_circ;
  qstate := unit;
  n_qubit := 2;
  get_parameters := toy_params;
  update_parameters := fun theta c =>
    {| toy_params := theta; toy_runs := toy_runs c; toy_backprops := toy_backprops c |};
  run := fun x c =>
    (tt, {| toy_params := toy_params c; toy_runs := S (toy_runs c);
            toy_backprops := toy_backprops c |});
  get_expectation_value := fun i st => 0;
  backprop := fun x obs c =>
    (zeros 1,
     {| toy_params := zeros 1; toy_runs := toy_runs c;
        toy_backprops := S (toy_backprops c) |})
|}.

Definition toy_start : toy_circ :=
  {| toy_params := [1]; toy_runs := 0; toy_backprops := 0 |}.

Definition toy_fit_transform (r : R) (x : list (list R)) : res (list (list R)) := Ok x.

Definition toy_minimize (f : list R -> M toy R) (jac : option (list R -> M toy (list R)))
    (theta : list R) (method : string) (maxiter : option Z) : M toy (R * list R) :=
  bindM toy (f theta) (fun loss => ret toy (loss, theta)).

Definition toy_model (solver cost : string) : QNNClassifier toy :=
  {| num_class := 2; solver := solver; cost := cost; do_x_scale := false;
     x_norm_range := 1; y_exp_ratio := 2.2; callback := None; scale_y_param := [] |}.

(** The model after [fit] has seen a single label column with the two
    levels 0 and 1: [scale_y_param] is [[[2], [0, 2]]]. *)
Definition toy_fitted (solver cost : string) : QNNClassifier toy :=
  set_scale_y_param (toy_model solver cost) (get_y_scale_param [[0; 1]%Z]).

(** The same fitted model with [y_exp_ratio] set to [gamma]. *)
Definition toy_gamma (gamma : R) : QNNClassifier toy :=
  {| num_class := 2; solver := "BFGS"; cost := "log_loss"; do_x_scale := false;
     x_norm_range := 1; y_exp_ratio := gamma; callback := None;
     scale_y_param := get_y_scale_param [[0; 1]%Z] |}.

(** ** [predict] *)

Section Predict.

Context (LC : LearningCircuit).

(** [self.scale_x_scaler.transform], the scaler fitted by [fit]. *)
Context (transform : list (list R) -> res (list (list R))).

Definition predict (self : QNNClassifier LC) (x_test : ndarray R)
    : M LC (list (list nat)) :=
  let x_test := as_2d x_test in
  bindM LC (if do_x_scale self then lift LC (transform x_test) else ret LC x_test)
    (fun x_scaled =>
       bindM LC (fun c => let '(y_pred, c') := _predict_inner LC x_scaled c in
                          (Ok y_pred, c'))
         (fun y_pred => lift LC (rev_y_scale self y_pred))).

End Predict.

Arguments predict {LC} transform self x_test.

(** The concrete adapter cut down to one qubit, and a model on it that
    [fit] has shown two levels. *)
Definition toy_one_qubit : LearningCircuit := {|
  circ := toy_circ;
  qstate := unit;
  n_qubit := 1;
  get_parameters := get_parameters toy;
  update_parameters := update_parameters toy;
  run := run toy;
  get_expectation_value := get_expectation_value toy;
  backprop := backprop toy
|}.

Definition toy_one_model : QNNClassifier toy_one_qubit :=
  {| num_class := 2; solver := "BFGS"; cost := "log_loss"; do_x_scale := false;
     x_norm_range := 1; y_exp_ratio := 2.2; callback := None;
     scale_y_param := get_y_scale_param [[0; 1]%Z] |}.

(** The entries [r[h], ..., r[h+s-1]] are the one-hot code of [a]. *)
Definition one_hot_at (r : list R) (h s a : nat) : Prop :=
  (a < s)%nat /\
  forall k, (k < s)%nat -> rd r (h + k) = if (k =? a)%nat then 1 else 0.

(** ** The kernel regressor of [skqulacs.qsvm.qsvr]

    [get_qvec], qulacs' [inner_product] and sklearn's [SVR] are not part
    of the sources: they are the fields of a [KernelBackend].  A complex
    number is the pair of its real and imaginary parts. *)

Record KernelBackend : Type := {
  kstate : Type;
  get_qvec : list R -> nat -> nat -> kstate;
  inner_product : kstate -> kstate -> R * R;
  svr : Type;
  svr_fit : list (list R) -> list R -> svr -> res svr;
  svr_predict : list (list R) -> svr -> res (list R)
}.

(** [abs(z) ** 2] for a complex [z]. *)
Definition abs_sq (z : R * R) : R := sqrt (fst z * fst z + snd z * snd z) ^ 2.

(** [kar[i][j] = v] on a two-dimensional array. *)
Definition mat_set (kar : list (list R)) (i j : nat) (v : R) : res (list (list R)) :=
  let* row := idx kar i in
  if (j <? length row)%nat then Ok (<[i := <[j := v]> row]> kar)
  else Raise IndexError.

Section QSVR.

Context (KB : KernelBackend).

Record QSVR : Type := {
  regr : svr KB;
  data_states : list (kstate KB);
  qsvr_n_qubit : nat;
  tlotstep : nat
}.

(** [__init__], given the fresh [svm.SVR(kernel="precomputed")]. *)
Definition qsvr_init (regr0 : svr KB) (tlotstep : nat) : QSVR :=
  {| regr := regr0; data_states := []; qsvr_n_qubit := 0; tlotstep := tlotstep |}.

(** The first loop of [fit]: one state per sample, appended to
    [self.data_states]. *)
Definition qsvr_append_states (x : list (list R)) (n_qubit tlotstep : nat)
    (data_states : list (kstate KB)) : res (list (kstate KB)) :=
  for_ (range (length x))
    (fun i ds => let* xi := idx x i in Ok (ds ++ [get_qvec KB xi n_qubit tlotstep]))
    data_states.

(** The second loop of [fit]: the kernel of the states at the indices
    below [len(x)]. *)
Definition qsvr_fit_kernel (n : nat) (data_states : list (kstate KB))
    : res (list (list R)) :=
  for_ (range n)
    (fun i kar =>
       for_ (range n)
         (fun j kar =>
            let* si := idx data_states i in
            let* sj := idx data_states j in
            mat_set kar i j (abs_sq (inner_product KB si sj)))
         kar)
    (replicate n (replicate n 0)).

(** [fit]: the result and the object after the call. *)
Definition qsvr_fit (x : list (list R)) (y : list R) (self : QSVR) : res unit * QSVR :=
  match idx x 0 with
  | Raise e => (Raise e, self)
  | Ok x0 =>
      let n_qubit := length x0 in
      match qsvr_append_states x n_qubit (tlotstep self) (data_states self) with
      | Raise e =>
          (Raise e, {| regr := regr self; data_states := data_states self;
                       qsvr_n_qubit := n_qubit; tlotstep := tlotstep self |})
      | Ok ds =>
          let self' := {| regr := regr self; data_states := ds;
                          qsvr_n_qubit := n_qubit; tlotstep := tlotstep self |} in
          match qsvr_fit_kernel (length x) ds with
          | Raise e => (Raise e, self')
          | Ok kar =>
              match svr_fit KB kar y (regr self) with
              | Raise e => (Raise e, self')
              | Ok regr' =>
                  (Ok tt, {| regr := regr'; data_states := ds;
                             qsvr_n_qubit := n_qubit; tlotstep := tlotstep self |})
              end
          end
      end
  end.

(** The kernel of [predict]: one row per test sample, one column per
    stored state. *)
Definition qsvr_predict_kernel (xs : list (list R)) (self : QSVR) : res (list (list R)) :=
  for_ (range (length xs))
    (fun i kar =>
       let* xi := idx xs i in
       let x_qc := get_qvec KB xi (qsvr_n_qubit self) (tlotstep self) in
       for_ (range (length (data_states self)))
         (fun j kar =>
            let* sj := idx (data_states self) j in
            mat_set kar i j (abs_sq (inner_product KB x_qc sj)))
         kar)
    (replicate (length xs) (replicate (length (data_states self)) 0)).

Definition qsvr_predict (xs : list (list R)) (self : QSVR) : res (list R) :=
  let* kar := qsvr_predict_kernel xs self in
  svr_predict KB kar (regr self).

(** The kernel in closed form: [abs(<a|b>) ** 2] for every [a] of [rows]
    and every [b] of [cols]. *)
Definition gram (rows cols : list (kstate KB)) : list (list R) :=
  map (fun a => map (fun b => abs_sq (inner_product KB a b)) cols) rows.

End QSVR.

Arguments regr {KB} _.
Arguments data_states {KB} _.
Arguments qsvr_n_qubit {KB} _.
Arguments tlotstep {KB} _.

(** A concrete backend: a state is the feature vector, the inner product
    is the real dot product, and the regressor keeps the kernel and the
    targets it was fitted on. *)
Definition toy_kernel : KernelBackend := {|
  kstate := list R;
  get_qvec := fun x n_qubit tlotstep => x;
  inner_product := fun a b => (dot a b, 0);
  svr := list (list R) * list R;
  svr_fit := fun kar y r => Ok (kar, y);
  svr_predict := fun kar r => Ok (map (fun row => dot row (snd r)) kar)
|}.

(** ** [preprocess_x] of the regressor test

    [min(1, max(-1, x[index % len(x)]))]. *)

Definition py_max (a b : R) : R := if Rlt_dec a b then b else a.

Definition py_min (a b : R) : R := if Rlt_dec b a then b else a.

Definition preprocess_x (x : list R) (index : nat) : res R :=
  let* i := pymod index (length x) in
  let* xa := idx x i in
  Ok (py_min 1 (py_max (-1) xa)).

(** ** The Adam driver, step by step

    The loop of the Adam branch written over the list of its steps and
    the batch of each step, to compare with [adam_loop]. *)

(** The multiples of 5 below [budget]. *)
Definition adam_steps (budget : Z) : list nat :=
  List.filter (fun i => (i mod 5 =? 0)%nat) (seq 0 (Z.to_nat budget)).

(** The samples [start, ..., min(start + 5, len(data)) - 1] of [data]. *)
Definition batch_window {A : Type} (data : list A) (start : nat) : list A :=
  omap (fun q => data !! q) (seq start (5 `min` (length data - start))).

Section AdamSteps.

Context {NP : Numpy} {LC : LearningCircuit}.

(** One step on the batch [(xb, yb)]: the gradient of the batch, the
    update, the callback. *)
Definition adam_step_on (self : QNNClassifier LC) (xb : list (list R))
    (yb : list (list Z)) (s : adam_state) : M LC adam_state :=
  bindM LC (_cost_func_grad self (theta_now s) xb yb) (fun grad =>
  bindM LC (lift LC (adam_update s grad)) (fun s' =>
  bindM LC (match callback self with
            | Some cb => cb (theta_now s')
            | None => ret LC tt
            end) (fun _ =>
  ret LC s'))).

(** The steps are the multiples of 5 below [maxiter * N]; the batch of a
    step is the window that starts at the step modulo [N]. *)
Definition adam_windowed_loop (self : QNNClassifier LC) (x_scaled : list (list R))
    (y_scaled : list (list Z)) (N : nat) (maxiter : Z) (theta_init : list R)
    : M LC adam_state :=
  forM_ LC (adam_steps (maxiter * Z.of_nat N))
    (fun iter s =>
       adam_step_on self (batch_window x_scaled (iter mod N))
                    (batch_window y_scaled (iter mod N)) s)
    (adam_init theta_init).

End AdamSteps.

(** Seven samples with one feature each, their labels (two levels) and
    the one-hot code of the labels. *)
Definition seven_x : list (list R) := [[0]; [1]; [2]; [3]; [4]; [5]; [6]].
Definition seven_y : list (list Z) := [[0]; [0]; [0]; [0]; [0]; [1]; [1]]%Z.
Definition seven_y_scaled : list (list Z) :=
  [[1; 0]; [1; 0]; [1; 0]; [1; 0]; [1; 0]; [0; 1]; [0; 1]]%Z.

(** ** [float64] with its special values

    Above, a [float64] is read as a real number.  This part reads it with
    its range: a value is a finite real, an infinity or NaN.  An
    operation on finite values gives the real result except at the ends
    of the range, where [rnd] turns a magnitude of [2^1024] or more into
    an infinity and a magnitude of [2^-1075] or less (half the least
    subnormal) into zero.  Rounding inside the range is left out, and the
    two zeros are one, taken as positive.  The special cases are those of
    IEEE 754, which numpy follows without raising. *)

Inductive float64 : Type :=
| Fin (r : R)
| PInf
| NInf
| NaN.

Definition f64_huge : R := 2 ^ 1024.

Definition f64_tiny : R := / 2 ^ 1075.

(** Underflow to zero. *)
Definition flush (r : R) : R := if Rle_dec (Rabs r) f64_tiny then 0 else r.

Definition rnd (r : R) : float64 :=
  if Rle_dec f64_huge r then PInf
  else if Rle_dec r (- f64_huge) then NInf
  else Fin (flush r).

Definition fadd (a b : float64) : float64 :=
  match a, b with
  | NaN, _ | _, NaN => NaN
  | PInf, NInf | NInf, PInf => NaN
  | PInf, _ | _, PInf => PInf
  | NInf, _ | _, NInf => NInf
  | Fin x, Fin y => rnd (x + y)
  end.

Definition fopp (a : float64) : float64 :=
  match a with
  | Fin x => Fin (- x)
  | PInf => NInf
  | NInf => PInf
  | NaN => NaN
  end.

Definition fsub (a b : float64) : float64 := fadd a (fopp b).

Definition fdiv (a b : float64) : float64 :=
  match a, b with
  | NaN, _ | _, NaN => NaN
  | Fin x, Fin y =>
      if Req_dec_T y 0 then
        (if Rlt_dec 0 x then PInf else if Rlt_dec x 0 then NInf else NaN)
      else rnd (x / y)
  | Fin _, PInf | Fin _, NInf => Fin 0
  | PInf, Fin y => if Rlt_dec y 0 then NInf else PInf
  | NInf, Fin y => if Rlt_dec y 0 then PInf else NInf
  | PInf, PInf | PInf, NInf | NInf, PInf | NInf, NInf => NaN
  end.

(** [np.exp]. *)
Definition fexp (a : float64) : float64 :=
  match a with
  | Fin x => rnd (exp x)
  | PInf => PInf
  | NInf => Fin 0
  | NaN => NaN
  end.

(** [np.log]: [-inf] at zero, NaN below. *)
Definition flog (a : float64) : float64 :=
  match a with
  | Fin x => if Rlt_dec 0 x then rnd (ln x) else if Rlt_dec x 0 then NaN else NInf
  | PInf => PInf
  | NInf => NaN
  | NaN => NaN
  end.

Arguments flush : simpl never.
Arguments rnd : simpl never.
Arguments fadd : simpl never.
Arguments fsub : simpl never.
Arguments fdiv : simpl never.
Arguments fexp : simpl never.
Arguments flog : simpl never.

(** [r[i]] of a row of floats, NaN out of range. *)
Definition frd (r : list float64) (i : nat) : float64 := nth i r NaN.

(** The grouped softmax and the cost in the words of the specification,
    computed in [float64]. *)
Fixpoint f64_sum (f : nat -> float64) (n : nat) : float64 :=
  match n with
  | O => Fin 0
  | S m => fadd (f64_sum f m) (f m)
  end.

Definition f64_softmax_prob (gamma : R) (r : list R) (h s k : nat) : float64 :=
  fdiv (fexp (rnd (gamma * rd r (h + k))))
       (f64_sum (fun k' => fexp (rnd (gamma * rd r (h + k')))) s).

Definition f64_grouped_softmax (gamma : R) (sizes : list nat) (r : list R)
    : list float64 :=
  flat_map (fun j => map (f64_softmax_prob gamma r (offset_of sizes j) (nth j sizes 0%nat))
                         (seq 0 (nth j sizes 0%nat)))
           (seq 0 (length sizes)).

Definition f64_hot_args (ypf : list float64) (ysf : list Z) (n : nat) : list float64 :=
  flat_map (fun i => if (nth i ysf 0%Z =? 1)%Z then [frd ypf i] else []) (seq 0 n).

Definition f64_neg_log_sum (args : list float64) : float64 :=
  fold_left (fun c p => fsub c (flog p)) args (Fin 0).

(** The loops of [cost_func] once more, on [float64] with its special
    values.  The expectation values and [y_exp_ratio] are finite. *)
Module F64.

Section Cost.

Context (LC : LearningCircuit).

(** [wa] starts as the integer 0 and becomes a float with the first
    addition. *)
Definition softmax_wa (gamma : R) (row : list R) (hid n : nat) : res float64 :=
  for_ (range n)
       (fun k wa => let* v := idx row (hid + k) in Ok (fadd wa (fexp (rnd (gamma * v)))))
       (Fin 0).

Definition cost_ypf (self : QNNClassifier LC) (y_pred : list (list R))
    : res (list float64) :=
  for_ (range (length y_pred))
    (fun i ypf =>
       let* p0 := idx (scale_y_param self) 0 in
       for_ (range (length p0))
         (fun j ypf =>
            let* p1 := idx (scale_y_param self) 1 in
            let* hid := idx p1 j in
            let* n := idx p0 j in
            let* row := idx y_pred i in
            let* wa := softmax_wa (y_exp_ratio self) row hid n in
            for_ (range n)
              (fun k ypf =>
                 let* v := idx row (hid + k) in
                 Ok (ypf ++ [fdiv (fexp (rnd (y_exp_ratio self * v))) wa]))
              ypf)
         ypf)
    [].

(** [cost] starts as the integer 0: with an empty [ysf] the division is
    one of integers and raises; otherwise it is a float division. *)
Definition cost_sum (ypf : list float64) (ysf : list Z) : res float64 :=
  let* cost :=
    for_ (range (length ysf))
      (fun i cost =>
         let* t := idx ysf i in
         if (t =? 1)%Z then let* p := idx ypf i in Ok (fsub cost (flog p))
         else Ok cost)
      (Fin 0) in
  if (length ysf =? 0)%nat then Raise ZeroDivisionError
  else Ok (fdiv cost (Fin (INR (length ysf)))).

Definition cost_func (self : QNNClassifier LC) (theta : list R)
    (x_scaled : list (list R)) (y_scaled : list (list Z)) : M LC float64 :=
  if (cost self =? "log_loss")%string then
    fun c =>
      let c1 := update_parameters LC theta c in
      let '(y_pred, c2) := _predict_inner LC x_scaled c1 in
      (let* ypf := cost_ypf self y_pred in cost_sum ypf (concat y_scaled), c2)
  else lift LC (Raise NotImplementedError).

End Cost.

End F64.

Arguments F64.cost_ypf {LC} self y_pred.
Arguments F64.cost_func {LC} self theta x_scaled y_scaled.

(** A circuit on [len(raw)] qubits whose expectation values are the
    entries of [raw], whatever the input and the parameters, and a model
    on it that [fit] has shown two levels. *)
Definition fixed_circuit (raw : list R) : LearningCircuit := {|
  circ := toy_circ;
  qstate := unit;
  n_qubit := length raw;
  get_parameters := get_parameters toy;
  update_parameters := update_parameters toy;
  run := run toy;
  get_expectation_value := fun i st => rd raw i;
  backprop := backprop toy
|}.

Definition fixed_model (raw : list R) (gamma : R) : QNNClassifier (fixed_circuit raw) :=
  {| num_class := 2; solver := "BFGS"; cost := "log_loss"; do_x_scale := false;
     x_norm_range := 1; y_exp_ratio := gamma; callback := None;
     scale_y_param := get_y_scale_param [[0; 1]%Z] |}.

(** * Properties *)

(** ** Loops *)

Lemma for_seq_inv {St : Type} (P : nat -> St -> Prop) (body : nat -> St -> res St) :
  forall m a s,
    P a s ->
    (forall k s, (a <= k < a + m)%nat -> P k s ->
                 exists s', body k s = Ok s' /\ P (S k) s') ->
    exists s', for_ (seq a m) body s = Ok s' /\ P (a + m)%nat s'.
Proof.
  induction m as [|m IH]; intros a s H0 Hstep; simpl.
  - exists s. rewrite Nat.add_0_r. auto.
  - destruct (Hstep a s) as [s1 [E1 P1]]; [lia | assumption |].
    rewrite E1.
    destruct (IH (S a) s1 P1) as [s2 [E2 P2]].
    + intros k s' Hk. apply Hstep. lia.
    + exists s2. split; [assumption |].
      replace (a + S m)%nat with (S a + m)%nat by lia. assumption.
Qed.

Lemma for_range_inv {St : Type} (P : nat -> St -> Prop) (body : nat -> St -> res St) n s :
  P 0%nat s ->
  (forall k s, (k < n)%nat -> P k s -> exists s', body k s = Ok s' /\ P (S k) s') ->
  exists s', for_ (range n) body s = Ok s' /\ P n s'.
Proof.
  intros H0 Hstep. unfold range.
  destruct (for_seq_inv P body n 0 s H0) as [s' [E Hs]].
  - intros k s1 Hk. apply Hstep. lia.
  - exists s'. auto.
Qed.

(** [loop_invariant P as pat] runs the first [for_] loop over a [range]
    in the goal on the invariant [P]: it leaves [P] at the start and the
    step to prove, and [pat] names the final state, the equation of the
    loop and [P] at the end. *)
Tactic Notation "loop_invariant" uconstr(P) "as" simple_intropattern(pat) :=
  match goal with
  | |- context [for_ (range ?n) ?b ?s0] =>
      destruct (for_range_inv P b n s0) as pat
  end.

(** ** Reading lists *)

Lemma idx_Some {A : Type} (l : list A) i v : l !! i = Some v -> idx l i = Ok v.
Proof. intros E. unfold idx. rewrite E. reflexivity. Qed.

Lemma idx_rd (r : list R) i : (i < length r)%nat -> idx r i = Ok (rd r i).
Proof.
  intros Hi. destruct (lookup_lt_is_Some_2 r i Hi) as [v E].
  unfold rd. rewrite nth_lookup, E. simpl. apply idx_Some, E.
Qed.

Lemma idx_nth (l : list nat) i : (i < length l)%nat -> idx l i = Ok (nth i l 0%nat).
Proof.
  intros Hi. destruct (lookup_lt_is_Some_2 l i Hi) as [v E].
  rewrite nth_lookup, E. simpl. apply idx_Some, E.
Qed.

(** ** The group encoding *)

Lemma offset_of_cons a sizes j : offset_of (a :: sizes) (S j) = (a + offset_of sizes j)%nat.
Proof. reflexivity. Qed.

Lemma offset_of_S sizes j :
  (j < length sizes)%nat -> offset_of sizes (S j) = (offset_of sizes j + nth j sizes 0)%nat.
Proof.
  revert j. induction sizes as [|a sizes IH]; intros j Hj; simpl in Hj; [lia |].
  destruct j as [|j].
  - unfold offset_of. simpl. destruct sizes; simpl; lia.
  - rewrite !offset_of_cons. rewrite IH by lia. simpl. lia.
Qed.

Lemma offset_of_all sizes j : (length sizes <= j)%nat -> offset_of sizes j = sum_list sizes.
Proof. intros H. unfold offset_of. rewrite take_ge by lia. reflexivity. Qed.

Lemma offset_of_mono sizes i j : (i <= j)%nat -> (offset_of sizes i <= offset_of sizes j)%nat.
Proof.
  revert i j. induction sizes as [|a sizes IH]; intros i j Hij.
  - unfold offset_of. rewrite !take_nil. lia.
  - destruct i as [|i]; [unfold offset_of at 1; simpl; lia |].
    destruct j as [|j]; [lia |].
    rewrite !offset_of_cons. specialize (IH i j). lia.
Qed.

Lemma offset_of_end sizes j :
  (j < length sizes)%nat -> (offset_of sizes j + nth j sizes 0 <= sum_list sizes)%nat.
Proof.
  intros Hj. rewrite <- offset_of_S by assumption.
  rewrite <- (offset_of_all sizes (length sizes)) by lia.
  apply offset_of_mono. lia.
Qed.


(** ** The encoder *)

Lemma insert_sorted_nonempty z l : insert_sorted z l <> [].
Proof.
  destruct l as [|h t]; simpl; [discriminate |].
  destruct (z <? h)%Z; [discriminate |].
  destruct (z =? h)%Z; discriminate.
Qed.

(** Every group that the encoder finds has at least one level. *)
Lemma enc_categories_nonempty y cats :
  enc_categories y = Ok cats -> Forall (fun aaa => aaa <> []) cats.
Proof.
  destruct y as [|row0 y]; simpl; [discriminate |].
  intros H. inversion H; subst cats. clear H.
  apply Forall_forall. intros aaa Ha.
  apply list_elem_of_In, in_map_iff in Ha. destruct Ha as [j [<- _]].
  apply insert_sorted_nonempty.
Qed.

Lemma one_hot_row_length (cats : list (list Z)) : forall row : list Z,
  length row = length cats ->
  length (concat (zip_with (fun c v => map (fun l => if (l =? v)%Z then 1%Z else 0%Z) c)
                           cats row))
  = sum_list (map length cats).
Proof.
  induction cats as [|c cats IH]; intros row Hrow; [reflexivity |].
  destruct row as [|v row]; [discriminate |].
  simpl. rewrite length_app, length_map, IH by (simpl in Hrow; lia). reflexivity.
Qed.

(** The one-hot rows have the total width of the groups. *)
Lemma enc_transform_width cats y :
  Forall (fun row => length row = length cats) y ->
  Forall (fun yh => length yh = sum_list (map length cats)) (enc_transform cats y).
Proof.
  intros H. unfold enc_transform. apply Forall_map.
  eapply Forall_impl; [exact H |]. intros row Hrow. simpl.
  apply one_hot_row_length. assumption.
Qed.

Lemma y_scale_fold cats : forall sy rui g,
  fold_left y_scale_step cats (sy, rui, g) =
  (sy ++ map length cats,
   rui ++ map (fun j => (g + offset_of (map length cats) (S j))%nat) (seq 0 (length cats)),
   (g + sum_list (map length cats))%nat).
Proof.
  induction cats as [|c cats IH]; intros sy rui g; simpl.
  - rewrite !app_nil_r, Nat.add_0_r. reflexivity.
  - rewrite IH. rewrite <- !app_assoc. simpl.
    f_equal; [f_equal |]; [| lia].
    f_equal. f_equal.
    + unfold offset_of. simpl. destruct (map length cats); simpl; lia.
    + rewrite <- seq_shift, map_map. apply map_ext. intros j.
      rewrite !offset_of_cons. lia.
Qed.

(** [get_y_scale_param] returns the sizes and, for every [j] up to the
    number of groups, the offset of group [j]. *)
Lemma get_y_scale_param_eq cats :
  get_y_scale_param cats =
  [map length cats; map (offset_of (map length cats)) (seq 0 (S (length cats)))].
Proof.
  unfold get_y_scale_param. rewrite y_scale_fold. simpl.
  f_equal. f_equal. f_equal.
  rewrite <- seq_shift, map_map. reflexivity.
Qed.

Lemma offsets_lookup sizes j :
  (j <= length sizes)%nat ->
  idx (map (offset_of sizes) (seq 0 (S (length sizes)))) j = Ok (offset_of sizes j).
Proof.
  intros Hj. apply idx_Some. rewrite list_lookup_fmap.
  rewrite lookup_seq_lt by lia. reflexivity.
Qed.

(** ** The softmax loops *)

Lemma softmax_wa_ok {NP : Numpy} gamma row hid n :
  (hid + n <= length row)%nat ->
  softmax_wa gamma row hid n = Ok (sumf (fun k => np_exp (gamma * rd row (hid + k))) n).
Proof.
  intros Hlen. unfold softmax_wa.
  loop_invariant (fun k wa => wa = sumf (fun k => np_exp (gamma * rd row (hid + k))) k)
    as [wa [E Hwa]].
  - reflexivity.
  - intros k s Hk ->. rewrite idx_rd by lia. simpl. eauto.
  - rewrite E, Hwa. reflexivity.
Qed.

Lemma sumf_pos f n : (forall k, 0 < f k) -> (0 < n)%nat -> 0 < sumf f n.
Proof.
  intros Hf. induction n as [|n IH]; intros Hn; [lia |].
  simpl. destruct n as [|n].
  - simpl. specialize (Hf 0%nat). lra.
  - specialize (Hf (S n)). assert (0 < sumf f (S n)) by (apply IH; lia). lra.
Qed.

Lemma sumf_ext f g n : (forall k, (k < n)%nat -> f k = g k) -> sumf f n = sumf g n.
Proof.
  induction n as [|n IH]; intros H; simpl; [reflexivity |].
  rewrite IH by (intros; apply H; lia). rewrite H by lia. reflexivity.
Qed.

Lemma sumf_div f d n : sumf (fun k => f k / d) n = sumf f n / d.
Proof.
  induction n as [|n IH]; simpl.
  - unfold Rdiv. rewrite Rmult_0_l. reflexivity.
  - rewrite IH. unfold Rdiv. rewrite Rmult_plus_distr_r. reflexivity.
Qed.

(** With a positive [np.exp], the probabilities of one group sum to 1. *)
Lemma softmax_prob_sum {NP : Numpy} gamma r h s :
  exp_positive NP -> (0 < s)%nat -> sumf (softmax_prob gamma r h s) s = 1.
Proof.
  intros Hexp Hs. unfold softmax_prob.
  rewrite (sumf_div (fun k => np_exp (gamma * rd r (h + k)))).
  apply Rdiv_diag.
  apply Rgt_not_eq, Rlt_gt, sumf_pos; [intros; apply Hexp | assumption].
Qed.

Lemma softmax_prob_pos {NP : Numpy} gamma r h s k :
  exp_positive NP -> (0 < s)%nat -> 0 < softmax_prob gamma r h s k.
Proof.
  intros Hexp Hs. unfold softmax_prob. apply Rdiv_lt_0_compat; [apply Hexp |].
  apply sumf_pos; [intros; apply Hexp | assumption].
Qed.

Lemma exact_numpy_positive : exp_positive exact_numpy.
Proof. intros x. apply exp_pos. Qed.

Lemma cost_ypf_group {NP : Numpy} gamma row hid n wa ypf :
  (hid + n <= length row)%nat ->
  for_ (range n)
       (fun k ypf => let* v := idx row (hid + k) in Ok (ypf ++ [np_exp (gamma * v) / wa])) ypf
  = Ok (ypf ++ map (fun k => np_exp (gamma * rd row (hid + k)) / wa) (seq 0 n)).
Proof.
  intros Hlen.
  loop_invariant
    (fun k acc =>
       acc = ypf ++ map (fun k => np_exp (gamma * rd row (hid + k)) / wa) (seq 0 k))
    as [acc [E Hacc]].
  - simpl. rewrite app_nil_r. reflexivity.
  - intros k s Hk ->. rewrite idx_rd by lia. eexists. split; [reflexivity |].
    cbv beta. rewrite seq_S, map_app, app_assoc. reflexivity.
  - rewrite E, Hacc. reflexivity.
Qed.

(** On a row that covers every group, the loops of [cost_func] over the
    groups append the grouped softmax of the row. *)
Lemma cost_ypf_row {NP : Numpy} {LC : LearningCircuit} (self : QNNClassifier LC)
    sizes y_pred i row ypf :
  scale_y_param self = [sizes; map (offset_of sizes) (seq 0 (S (length sizes)))] ->
  y_pred !! i = Some row ->
  (sum_list sizes <= length row)%nat ->
  for_ (range (length sizes))
    (fun j ypf =>
       let* p1 := idx (scale_y_param self) 1 in
       let* hid := idx p1 j in
       let* n := idx sizes j in
       let* row := idx y_pred i in
       let* wa := softmax_wa (y_exp_ratio self) row hid n in
       for_ (range n)
         (fun k ypf =>
            let* v := idx row (hid + k) in
            Ok (ypf ++ [np_exp (y_exp_ratio self * v) / wa]))
         ypf)
    ypf
  = Ok (ypf ++ grouped_softmax (y_exp_ratio self) sizes row).
Proof.
  intros Hsp Hrow Hlen.
  set (gs := fun m => flat_map
     (fun j => map (softmax_prob (y_exp_ratio self) row (offset_of sizes j) (nth j sizes 0%nat))
                   (seq 0 (nth j sizes 0%nat))) (seq 0 m)).
  loop_invariant (fun j acc => acc = ypf ++ gs j) as [acc [E Hacc]].
  - unfold gs. simpl. rewrite app_nil_r. reflexivity.
  - intros j s Hj ->.
    assert (H1 : idx (scale_y_param self) 1
                 = Ok (map (offset_of sizes) (seq 0 (S (length sizes)))))
      by (rewrite Hsp; reflexivity).
    rewrite H1. cbn [bind].
    rewrite offsets_lookup by lia. cbn [bind].
    rewrite idx_nth by assumption. cbn [bind].
    rewrite (idx_Some _ _ _ Hrow). cbn [bind].
    pose proof (offset_of_end sizes j Hj) as Hend.
    rewrite softmax_wa_ok by lia. cbn [bind].
    rewrite cost_ypf_group by lia.
    eexists. split; [reflexivity |].
    unfold gs. cbv beta. rewrite seq_S, flat_map_app. simpl. rewrite app_nil_r, app_assoc.
    reflexivity.
  - rewrite E, Hacc. reflexivity.
Qed.

Lemma cost_ypf_ok {NP : Numpy} {LC : LearningCircuit} (self : QNNClassifier LC) sizes y_pred :
  scale_y_param self = [sizes; map (offset_of sizes) (seq 0 (S (length sizes)))] ->
  Forall (fun row => (sum_list sizes <= length row)%nat) y_pred ->
  cost_ypf self y_pred = Ok (flat_map (grouped_softmax (y_exp_ratio self) sizes) y_pred).
Proof.
  intros Hsp Hrows. unfold cost_ypf.
  loop_invariant
    (fun i acc =>
       acc = flat_map (grouped_softmax (y_exp_ratio self) sizes) (take i y_pred))
    as [acc [E Hacc]].
  - reflexivity.
  - intros i s Hi ->.
    destruct (lookup_lt_is_Some_2 y_pred i Hi) as [row Hrow].
    assert (H0 : idx (scale_y_param self) 0 = Ok sizes) by (rewrite Hsp; reflexivity).
    cbv beta. rewrite H0. cbn [bind].
    rewrite (cost_ypf_row self sizes y_pred i row _ Hsp Hrow).
    + eexists. split; [reflexivity |].
      rewrite (take_S_r _ _ _ Hrow), flat_map_app. simpl. rewrite app_nil_r.
      reflexivity.
    + rewrite Forall_forall in Hrows. apply Hrows.
      apply list_elem_of_lookup. eauto.
  - rewrite E, Hacc, firstn_all. reflexivity.
Qed.

(** ** The layout of [ypf] *)

Lemma grouped_softmax_prefix_length {NP : Numpy} gamma sizes r m :
  (m <= length sizes)%nat ->
  length (flat_map (fun j => map (softmax_prob gamma r (offset_of sizes j) (nth j sizes 0%nat))
                                 (seq 0 (nth j sizes 0%nat)))
                   (seq 0 m)) = offset_of sizes m.
Proof.
  induction m as [|m IH]; intros Hm; [reflexivity |].
  rewrite seq_S, flat_map_app, length_app, IH by lia. simpl.
  rewrite app_nil_r, length_map, length_seq, offset_of_S by lia. reflexivity.
Qed.

Lemma grouped_softmax_length {NP : Numpy} gamma sizes r :
  length (grouped_softmax gamma sizes r) = sum_list sizes.
Proof.
  unfold grouped_softmax. rewrite grouped_softmax_prefix_length by lia.
  apply offset_of_all. lia.
Qed.

Lemma grouped_softmax_lookup {NP : Numpy} gamma sizes r j k :
  (j < length sizes)%nat -> (k < nth j sizes 0)%nat ->
  grouped_softmax gamma sizes r !! (offset_of sizes j + k)%nat
  = Some (softmax_prob gamma r (offset_of sizes j) (nth j sizes 0%nat) k).
Proof.
  intros Hj Hk. unfold grouped_softmax.
  set (F := fun j => map (softmax_prob gamma r (offset_of sizes j) (nth j sizes 0%nat))
                         (seq 0 (nth j sizes 0%nat))).
  assert (Hgen : forall m, (j < m <= length sizes)%nat ->
            flat_map F (seq 0 m) !! (offset_of sizes j + k)%nat
            = Some (softmax_prob gamma r (offset_of sizes j) (nth j sizes 0%nat) k)).
  { induction m as [|m IH]; intros Hm; [lia |].
    rewrite seq_S, flat_map_app. simpl. rewrite app_nil_r.
    destruct (decide (j = m)) as [-> | Hne].
    - rewrite lookup_app_r
        by (unfold F; rewrite grouped_softmax_prefix_length by lia; lia).
      unfold F at 1. rewrite grouped_softmax_prefix_length by lia.
      replace (offset_of sizes m + k - offset_of sizes m)%nat with k by lia.
      unfold F. rewrite list_lookup_fmap, lookup_seq_lt by assumption. reflexivity.
    - rewrite lookup_app_l.
      + apply IH. lia.
      + unfold F. rewrite grouped_softmax_prefix_length by lia.
        pose proof (offset_of_mono sizes (S j) m ltac:(lia)) as Hmono.
        rewrite offset_of_S in Hmono by lia. lia. }
  apply Hgen. lia.
Qed.

Lemma flat_map_lookup_row {A B : Type} (f : A -> list B) (w : nat) (l : list A) :
  (forall a, length (f a) = w) ->
  forall i a q, l !! i = Some a -> (q < w)%nat ->
    flat_map f l !! (i * w + q)%nat = f a !! q.
Proof.
  intros Hw. induction l as [|b l IH]; intros i a q Hi Hq; [discriminate |].
  destruct i as [|i]; simpl in *.
  - inversion Hi; subst. apply lookup_app_l. rewrite Hw. assumption.
  - rewrite lookup_app_r by (rewrite Hw; lia).
    rewrite Hw. replace (w + i * w + q - w)%nat with (i * w + q)%nat by lia.
    apply IH; assumption.
Qed.

Lemma flat_map_length_row {A B : Type} (f : A -> list B) (w : nat) (l : list A) :
  (forall a, length (f a) = w) -> length (flat_map f l) = (length l * w)%nat.
Proof.
  intros Hw. induction l as [|b l IH]; [reflexivity |].
  simpl. rewrite length_app, Hw, IH. reflexivity.
Qed.


(** ** The cost loop *)

Lemma idx_nthZ (l : list Z) i : (i < length l)%nat -> idx l i = Ok (nth i l 0%Z).
Proof.
  intros Hi. destruct (lookup_lt_is_Some_2 l i Hi) as [v E].
  rewrite nth_lookup, E. simpl. apply idx_Some, E.
Qed.

Lemma hot_args_S ypf ysf n :
  hot_args ypf ysf (S n) =
  hot_args ypf ysf n ++ (if (nth n ysf 0%Z =? 1)%Z then [rd ypf n] else []).
Proof.
  unfold hot_args. rewrite seq_S, flat_map_app. simpl. rewrite app_nil_r. reflexivity.
Qed.

Lemma neg_log_sum_snoc {NP : Numpy} args p :
  neg_log_sum (args ++ [p]) = neg_log_sum args - np_log p.
Proof. unfold neg_log_sum. rewrite fold_left_app. reflexivity. Qed.

Lemma cost_sum_ok {NP : Numpy} ypf ysf :
  (length ysf <= length ypf)%nat -> ysf <> [] ->
  cost_sum ypf ysf
  = Ok (neg_log_sum (hot_args ypf ysf (length ysf)) / INR (length ysf)).
Proof.
  intros Hlen Hne. unfold cost_sum.
  loop_invariant (fun i cost => cost = neg_log_sum (hot_args ypf ysf i))
    as [cost [E Hcost]].
  - reflexivity.
  - intros i s Hi ->. cbv beta. rewrite idx_nthZ by assumption. cbn [bind].
    rewrite hot_args_S.
    destruct (nth i ysf 0%Z =? 1)%Z.
    + rewrite idx_rd by lia. eexists. split; [reflexivity |].
      rewrite neg_log_sum_snoc. reflexivity.
    + eexists. split; [reflexivity |]. rewrite app_nil_r. reflexivity.
  - rewrite E, Hcost. cbn [bind].
    destruct ysf; [congruence | reflexivity].
Qed.

Lemma cost_sum_empty {NP : Numpy} ypf : cost_sum ypf [] = Raise ZeroDivisionError.
Proof. reflexivity. Qed.

(** ** Positivity of the probabilities *)

Lemma grouped_softmax_quotient {NP : Numpy} gamma sizes r p :
  p ∈ grouped_softmax gamma sizes r -> is_quotient gamma sizes r p.
Proof.
  intros Hp. apply list_elem_of_In in Hp. unfold grouped_softmax in Hp.
  apply in_flat_map in Hp. destruct Hp as [j [Hj Hp]].
  apply in_map_iff in Hp. destruct Hp as [k [<- Hk]].
  apply in_seq in Hj. apply in_seq in Hk.
  exists j, k. repeat split; lia.
Qed.

Lemma is_quotient_pos {NP : Numpy} gamma sizes r p :
  exp_positive NP -> is_quotient gamma sizes r p -> 0 < p.
Proof.
  intros Hexp [j [k [Hj [Hk ->]]]]. apply softmax_prob_pos; [assumption | lia].
Qed.

(** ** The cost against the mean over samples *)

Lemma concat_length_rows {A : Type} (w : nat) (y : list (list A)) :
  Forall (fun yh => length yh = w) y -> length (concat y) = (length y * w)%nat.
Proof.
  induction 1 as [|yh y Hyh _ IH]; [reflexivity |].
  simpl. rewrite length_app, Hyh, IH. reflexivity.
Qed.

(** On targets of [w] one-hot positions per sample, the loop of
    [cost_func] returns the mean over samples divided once more by [w]:
    it is the mean over the one-hot positions. *)
Lemma cost_sum_mean_over_positions {NP : Numpy} (ypf : list R) (y_scaled : list (list Z)) w :
  Forall (fun yh => length yh = w) y_scaled ->
  y_scaled <> [] -> (0 < w)%nat ->
  (length y_scaled * w <= length ypf)%nat ->
  cost_sum ypf (concat y_scaled) = Ok (mean_over_samples ypf y_scaled / INR w).
Proof.
  intros Hrows Hne Hw Hlen.
  pose proof (concat_length_rows w y_scaled Hrows) as Hcat.
  assert (HN : (0 < length y_scaled)%nat) by (destruct y_scaled; [congruence | simpl; lia]).
  rewrite cost_sum_ok.
  - f_equal. unfold mean_over_samples. rewrite Hcat, mult_INR.
    assert (INR (length y_scaled) <> 0) by (apply not_0_INR; lia).
    assert (INR w <> 0) by (apply not_0_INR; lia).
    field. split; assumption.
  - lia.
  - intros Hnil. rewrite Hnil in Hcat. simpl in Hcat. nia.
Qed.

Lemma sizes_pos (cats : list (list Z)) j :
  Forall (fun aaa => aaa <> []) cats -> (j < length cats)%nat ->
  (0 < nth j (map length cats) 0)%nat.
Proof.
  intros Hne Hj. destruct (lookup_lt_is_Some_2 cats j Hj) as [aaa E].
  rewrite nth_lookup, list_lookup_fmap, E. simpl.
  rewrite Forall_forall in Hne.
  assert (aaa <> []) as Ha by (apply Hne, list_elem_of_lookup; eauto).
  destruct aaa; [congruence | simpl; lia].
Qed.

Lemma hot_args_elem ypf ysf n p :
  (n <= length ypf)%nat -> p ∈ hot_args ypf ysf n -> p ∈ ypf.
Proof.
  intros Hn Hp. apply list_elem_of_In in Hp. unfold hot_args in Hp.
  apply in_flat_map in Hp. destruct Hp as [i [Hi Hp]].
  apply in_seq in Hi.
  destruct (nth i ysf 0%Z =? 1)%Z; [| destruct Hp].
  destruct Hp as [<- | []].
  destruct (lookup_lt_is_Some_2 ypf i ltac:(lia)) as [v E].
  unfold rd. rewrite nth_lookup, E. simpl. apply list_elem_of_lookup. eauto.
Qed.

(** ** The grouped softmax of [cost_func] *)

(** With real numbers for floats: the list [ypf] that [cost_func] builds
    holds, for every sample [i] and every group [j] of offset [h] and size
    [s], at the positions [i*W + h + k] for [k < s], the independent
    softmax of that group, and (the exponential being positive) these [s]
    probabilities sum to 1. *)
Lemma cost_ypf_exact_softmax {NP : Numpy} {LC : LearningCircuit}
    (self : QNNClassifier LC) (categories_ : list (list Z)) (y_pred : list (list R)) :
  exp_positive NP ->
  scale_y_param self = get_y_scale_param categories_ ->
  Forall (fun aaa => aaa <> []) categories_ ->
  Forall (fun r => (sum_list (map length categories_) <= length r)%nat) y_pred ->
  exists ypf, cost_ypf self y_pred = Ok ypf /\
    forall i r j, y_pred !! i = Some r -> (j < length categories_)%nat ->
      let gamma := y_exp_ratio self in
      let sizes := map length categories_ in
      let h := offset_of sizes j in
      let s := nth j sizes 0%nat in
      (forall k, (k < s)%nat ->
         ypf !! (i * sum_list sizes + (h + k))%nat
         = Some (np_exp (gamma * rd r (h + k))
                 / sumf (fun k' => np_exp (gamma * rd r (h + k'))) s))
      /\ sumf (fun k => rd ypf (i * sum_list sizes + (h + k))) s = 1.
Proof.
  intros Hexp Hsp Hne Hrows. rewrite get_y_scale_param_eq in Hsp.
  rewrite <- (length_map length categories_) in Hsp.
  exists (flat_map (grouped_softmax (y_exp_ratio self) (map length categories_)) y_pred).
  split; [apply cost_ypf_ok; assumption |].
  intros i r j Hr Hj gamma sizes h s.
  assert (Hlook : forall k, (k < s)%nat ->
            flat_map (grouped_softmax gamma sizes) y_pred !! (i * sum_list sizes + (h + k))%nat
            = Some (softmax_prob gamma r h s k)).
  { intros k Hk.
    rewrite (flat_map_lookup_row _ (sum_list sizes) y_pred
               (grouped_softmax_length gamma sizes) i r (h + k) Hr).
    - apply grouped_softmax_lookup; [unfold sizes; rewrite length_map |]; assumption.
    - pose proof (offset_of_end sizes j) as Hend.
      unfold sizes in Hend at 1. rewrite length_map in Hend.
      specialize (Hend Hj). fold h s in Hend. lia. }
  split.
  - intros k Hk. rewrite Hlook by assumption. reflexivity.
  - rewrite (sumf_ext _ (softmax_prob gamma r h s)).
    + apply softmax_prob_sum; [assumption |]. apply sizes_pos; assumption.
    + intros k Hk. unfold rd at 1. rewrite nth_lookup. fold gamma sizes.
      rewrite Hlook by assumption. reflexivity.
Qed.


(** ** The denominator of the cost *)

(** C1 at two samples of a two-level group, every raw output 0, targets
    [[1,0]] and [[0,1]]: the two probabilities of the hot positions are
    1/2, the sum of [-log p] is [2 ln 2], and [cost_func] divides it by
    the four one-hot positions, not by the two samples. *)
Theorem cost_func_mean_over_positions :
  exists ypf c',
    cost_ypf (NP := exact_numpy) (toy_fitted "BFGS" "log_loss") [[0; 0]; [0; 0]] = Ok ypf /\
    cost_func (NP := exact_numpy) (toy_fitted "BFGS" "log_loss") [1] [[0]; [0]]
              [[1; 0]; [0; 1]]%Z toy_start
    = (Ok (ln 2 / 2), c') /\
    mean_over_samples (NP := exact_numpy) ypf [[1; 0]; [0; 1]]%Z = ln 2 /\
    ln 2 / 2 <> ln 2.
Proof.
  assert (Hhalf : ln (1 / (0 + 1 + 1)) = - ln 2).
  { replace (1 / (0 + 1 + 1)) with (/ 2) by lra. apply ln_Rinv. lra. }
  eexists. eexists. split; [reflexivity |].
  split; [| split].
  - unfold cost_func. cbn. rewrite !Rmult_0_r, !exp_0, Hhalf.
    f_equal. f_equal. lra.
  - unfold mean_over_samples. cbn. rewrite !Rmult_0_r, !exp_0, Hhalf. lra.
  - pose proof ln_lt_2. lra.
Qed.

(** ** The decoder *)

Lemma argmax_scan_ok (row : list R) hid n :
  (hid + n <= length row)%nat ->
  (0 < n)%nat ->
  (forall k, (k < n)%nat -> -99998888 < rd row (hid + k)) ->
  exists sai arg, argmax_scan row hid n = Ok (sai, arg) /\ first_argmax row hid n arg.
Proof.
  intros Hlen Hn Hbig. unfold argmax_scan.
  loop_invariant
    (fun k (sa : R * nat) =>
       (forall k', (k' < k)%nat -> rd row (hid + k') <= fst sa) /\
       ((k = 0%nat /\ sa = (-99998888, 0%nat)) \/
        ((snd sa < k)%nat /\ fst sa = rd row (hid + snd sa) /\
         forall k', (k' < snd sa)%nat -> rd row (hid + k') < fst sa)))
    as [[sai arg] [E [Hmax Hcase]]].
  - split; [intros k' Hk'; lia | left; split; reflexivity].
  - intros k [sai arg] Hk [Hmax Hcase]. cbv beta iota.
    rewrite idx_rd by lia. cbn [bind].
    destruct (Rlt_dec sai (rd row (hid + k))) as [Hlt | Hge].
    + eexists. split; [reflexivity |]. simpl in *. split.
      * intros k' Hk'. destruct (decide (k' = k)) as [-> | Hne]; [lra |].
        specialize (Hmax k' ltac:(lia)). lra.
      * right. split; [lia |]. split; [reflexivity |].
        intros k' Hk'. specialize (Hmax k' Hk'). lra.
    + eexists. split; [reflexivity |]. simpl in *. split.
      * intros k' Hk'. destruct (decide (k' = k)) as [-> | Hne]; [lra |].
        apply Hmax. lia.
      * destruct Hcase as [[-> Hsa] | [Ha [Hs Hfirst]]].
        -- inversion Hsa; subst. specialize (Hbig 0%nat Hn). lra.
        -- right. split; [lia |]. split; assumption.
  - exists sai, arg. split; [exact E |]. simpl in *.
    destruct Hcase as [[-> _] | [Ha [Hs Hfirst]]]; [lia |].
    split; [assumption |]. split.
    + intros k Hk. rewrite <- Hs. apply Hmax. assumption.
    + intros k Hk. rewrite <- Hs. apply Hfirst. assumption.
Qed.

Lemma cell_insert_eq res i j a resi :
  res !! i = Some resi -> (j < length resi)%nat ->
  cell (<[i := <[j := a]> resi]> res) i j = Some a.
Proof.
  intros Hi Hj. unfold cell.
  rewrite list_lookup_insert_eq by (apply lookup_lt_Some in Hi; assumption).
  apply list_lookup_insert_eq. assumption.
Qed.

Lemma cell_insert_ne res i j a resi i' j' :
  res !! i = Some resi -> (i', j') <> (i, j) ->
  cell (<[i := <[j := a]> resi]> res) i' j' = cell res i' j'.
Proof.
  intros Hi Hne. unfold cell.
  destruct (decide (i' = i)) as [-> | Hi'].
  - rewrite list_lookup_insert_eq by (apply lookup_lt_Some in Hi; assumption).
    rewrite Hi. apply list_lookup_insert_ne. congruence.
  - rewrite list_lookup_insert_ne by congruence. reflexivity.
Qed.

(** C9. For every group [j], [rev_y_scale] writes into [res[i][j]] the
    index of the maximum among the [groupSizes[j]] entries of row [i] that
    start at [groupOffsets[j]]; among equal maxima it is the first one, and
    it is below [groupSizes[j]].  Probabilities (any values above the
    sentinel -99998888) are assumed. *)
Theorem rev_y_scale_argmax {LC : LearningCircuit} (self : QNNClassifier LC)
    (categories_ : list (list Z)) (y_inr : list (list R)) :
  scale_y_param self = get_y_scale_param categories_ ->
  Forall (fun aaa => aaa <> []) categories_ ->
  Forall (fun r => (sum_list (map length categories_) <= length r)%nat /\
                   Forall (fun v => -99998888 < v) r) y_inr ->
  exists res, rev_y_scale self y_inr = Ok res /\
    forall i r j, y_inr !! i = Some r -> (j < length categories_)%nat ->
      exists a, cell res i j = Some a /\
        first_argmax r (offset_of (map length categories_) j)
                     (nth j (map length categories_) 0%nat) a.
Proof.
  intros Hsp Hne Hrows. rewrite get_y_scale_param_eq in Hsp.
  rewrite <- (length_map length categories_) in Hsp.
  set (sizes := map length categories_) in *.
  assert (HG : length sizes = length categories_) by apply length_map.
  assert (H0 : idx (scale_y_param self) 0 = Ok sizes) by (rewrite Hsp; reflexivity).
  assert (H1 : idx (scale_y_param self) 1
               = Ok (map (offset_of sizes) (seq 0 (S (length sizes)))))
    by (rewrite Hsp; reflexivity).
  pose (done := fun (i j : nat) (res : list (list nat)) =>
    forall i' j' r, (i' < i \/ (i' = i /\ j' < j))%nat -> (j' < length sizes)%nat ->
      y_inr !! i' = Some r ->
      exists a, cell res i' j' = Some a /\
                first_argmax r (offset_of sizes j') (nth j' sizes 0%nat) a).
  pose (shape := fun (res : list (list nat)) =>
    length res = length y_inr /\ Forall (fun row => length row = length sizes) res).
  unfold rev_y_scale. rewrite H0. cbn [bind].
  loop_invariant (fun i res => shape res /\ done i 0%nat res)
    as [res [E [Hshape Hdone]]].
  - split; [split |].
    + apply length_replicate.
    + apply Forall_replicate. apply length_replicate.
    + intros i' j' r Hlt. lia.
  - intros i res Hi [Hshape Hdone]. cbv beta. rewrite ?H0. cbn [bind].
    destruct (lookup_lt_is_Some_2 y_inr i Hi) as [r Hr].
    assert (Hrow : (sum_list sizes <= length r)%nat /\ Forall (fun v => -99998888 < v) r).
    { rewrite Forall_forall in Hrows. apply Hrows, list_elem_of_lookup. eauto. }
    destruct Hrow as [Hwide Hbig].
    loop_invariant (fun j res => shape res /\ done i j res)
      as [res' [E' [Hshape' Hdone']]].
    + split; assumption.
    + intros j res1 Hj [[Hlen1 Hrows1] Hdone1]. cbv beta.
      rewrite ?H1. cbn [bind].
      rewrite offsets_lookup by lia. cbn [bind].
      rewrite idx_nth by assumption. cbn [bind].
      rewrite (idx_Some _ _ _ Hr). cbn [bind].
      pose proof (offset_of_end sizes j Hj) as Hend.
      destruct (argmax_scan_ok r (offset_of sizes j) (nth j sizes 0%nat))
        as [sai [a [Ea Ha]]].
      * lia.
      * apply sizes_pos; [assumption | lia].
      * intros k Hk. rewrite Forall_forall in Hbig. apply Hbig.
        unfold rd. rewrite nth_lookup.
        destruct (lookup_lt_is_Some_2 r (offset_of sizes j + k) ltac:(lia)) as [v Ev].
        rewrite Ev. simpl. apply list_elem_of_lookup. eauto.
      * rewrite Ea. cbn [bind].
        destruct (lookup_lt_is_Some_2 res1 i ltac:(lia)) as [resi Hresi].
        rewrite (idx_Some _ _ _ Hresi). cbn [bind].
        assert (Hwidth : length resi = length sizes).
        { rewrite Forall_forall in Hrows1. apply Hrows1, list_elem_of_lookup. eauto. }
        replace (j <? length resi)%nat with true
          by (symmetry; apply Nat.ltb_lt; lia).
        eexists. split; [reflexivity |]. cbn [snd]. split; [split |].
        -- rewrite length_insert. assumption.
        -- apply Forall_insert; [assumption |]. rewrite length_insert. assumption.
        -- intros i' j' r' Hlt Hj' Hr'.
           destruct (decide ((i', j') = (i, j))) as [Heq | Hneq].
           ++ inversion Heq; subst i' j'.
              rewrite Hr in Hr'. inversion Hr'; subst r'.
              exists a. split; [apply cell_insert_eq; [assumption | lia] | assumption].
           ++ rewrite (cell_insert_ne _ _ _ _ _ _ _ Hresi Hneq).
              apply Hdone1; [| assumption | assumption].
              destruct Hlt as [Hlt | [-> Hlt]]; [left; assumption |].
              right. split; [reflexivity |].
              assert (j' <> j) by congruence. lia.
    + rewrite E'. eexists. split; [reflexivity |].
      split; [assumption |].
      intros i' j' r' Hlt Hj' Hr'. apply Hdone'; [| assumption | assumption].
      destruct Hlt as [Hlt | [_ Hlt]]; [| lia].
      destruct (decide (i' = i)) as [-> | Hni]; [right; split; [reflexivity | assumption] |].
      left. lia.
  - exists res. split; [exact E |].
    intros i r j Hr Hj. apply Hdone; [| lia | assumption].
    left. apply lookup_lt_Some in Hr. assumption.
Qed.

(** Two rows of two probabilities: a single maximum, and a tie. *)
Lemma rev_y_scale_argmax_witness :
  exists res, rev_y_scale (toy_fitted "BFGS" "log_loss") [[0.25; 0.75]; [0.5; 0.5]] = Ok res /\
    (exists a, cell res 0 0 = Some a /\ first_argmax [0.25; 0.75] 0 2 a) /\
    (exists a, cell res 1 0 = Some a /\ first_argmax [0.5; 0.5] 0 2 a).
Proof.
  destruct (rev_y_scale_argmax (toy_fitted "BFGS" "log_loss") [[0; 1]%Z]
                               [[0.25; 0.75]; [0.5; 0.5]]) as [res [E H]].
  - reflexivity.
  - repeat constructor; discriminate.
  - repeat constructor; simpl; lia || lra.
  - exists res. split; [exact E |]. split.
    + apply (H 0%nat [0.25; 0.75] 0%nat); [reflexivity | simpl; lia].
    + apply (H 1%nat [0.5; 0.5] 0%nat); [reflexivity | simpl; lia].
Defined.

(** ** The softmax of the gradient, in place *)

Lemma rd_app_drop (pre row : list R) hid k :
  length pre = hid -> rd (pre ++ drop hid row) (hid + k) = rd row (hid + k).
Proof.
  intros Hpre. unfold rd. rewrite !nth_lookup.
  rewrite lookup_app_r by lia. rewrite lookup_drop.
  replace (hid + (hid + k - length pre))%nat with (hid + k)%nat by lia. reflexivity.
Qed.

Lemma grad_softmax_group {NP : Numpy} gamma (row pre : list R) hid n wa :
  length pre = hid -> (hid + n <= length row)%nat ->
  for_ (range n)
       (fun k row => let* v := idx row (hid + k) in
                     Ok (<[(hid + k)%nat := np_exp (gamma * v) / wa]> row))
       (pre ++ drop hid row)
  = Ok (pre ++ map (fun k => np_exp (gamma * rd row (hid + k)) / wa) (seq 0 n)
            ++ drop (hid + n) row).
Proof.
  intros Hpre Hlen.
  set (f := fun k => np_exp (gamma * rd row (hid + k)) / wa).
  loop_invariant (fun k acc => acc = pre ++ map f (seq 0 k) ++ drop (hid + k) row)
    as [acc [E Hacc]].
  - simpl. rewrite Nat.add_0_r. reflexivity.
  - intros k s Hk ->. cbv beta.
    destruct (lookup_lt_is_Some_2 row (hid + k) ltac:(lia)) as [v Hv].
    assert (Hrd : rd row (hid + k) = v)
      by (unfold rd; rewrite nth_lookup, Hv; reflexivity).
    rewrite (drop_S _ _ _ Hv).
    rewrite app_assoc.
    assert (Hl : length (pre ++ map f (seq 0 k)) = (hid + k)%nat)
      by (rewrite length_app, length_map, length_seq; lia).
    rewrite (idx_Some _ _ v) by (apply list_lookup_middle; lia).
    cbn [bind]. eexists. split; [reflexivity |].
    rewrite seq_S, map_app.
    replace (hid + S k)%nat with (S (hid + k)) by lia.
    rewrite <- Hl at 1. rewrite <- (Nat.add_0_r (length _)), insert_app_r.
    rewrite <- !app_assoc. simpl. unfold f at 3. rewrite Hrd. reflexivity.
  - rewrite E, Hacc. reflexivity.
Qed.

(** On a row that covers every group, the in-place softmax leaves the
    grouped softmax of the row, followed by the entries past the groups. *)
Lemma grad_softmax_ok {NP : Numpy} {LC : LearningCircuit} (self : QNNClassifier LC)
    sizes (row : list R) :
  scale_y_param self = [sizes; map (offset_of sizes) (seq 0 (S (length sizes)))] ->
  (sum_list sizes <= length row)%nat ->
  grad_softmax self row
  = Ok (grouped_softmax (y_exp_ratio self) sizes row ++ drop (sum_list sizes) row).
Proof.
  intros Hsp Hlen.
  assert (H0 : idx (scale_y_param self) 0 = Ok sizes) by (rewrite Hsp; reflexivity).
  assert (H1 : idx (scale_y_param self) 1
               = Ok (map (offset_of sizes) (seq 0 (S (length sizes)))))
    by (rewrite Hsp; reflexivity).
  set (gamma := y_exp_ratio self).
  set (gs := fun m => flat_map
     (fun j => map (softmax_prob gamma row (offset_of sizes j) (nth j sizes 0%nat))
                   (seq 0 (nth j sizes 0%nat))) (seq 0 m)).
  unfold grad_softmax. rewrite H0. cbn [bind]. fold gamma.
  loop_invariant (fun j acc => acc = gs j ++ drop (offset_of sizes j) row)
    as [acc [E Hacc]].
  - reflexivity.
  - intros j s Hj ->. cbv beta. rewrite ?H1. cbn [bind].
    rewrite offsets_lookup by lia. cbn [bind].
    rewrite idx_nth by assumption. cbn [bind].
    pose proof (offset_of_end sizes j Hj) as Hend.
    assert (Hpre : length (gs j) = offset_of sizes j)
      by (apply grouped_softmax_prefix_length; lia).
    rewrite softmax_wa_ok
      by (rewrite length_app, length_drop; lia).
    cbn [bind].
    rewrite (sumf_ext _ (fun k => np_exp (gamma * rd row (offset_of sizes j + k))))
      by (intros k Hk; rewrite rd_app_drop by assumption; reflexivity).
    rewrite grad_softmax_group by (assumption || lia).
    eexists. split; [reflexivity |].
    unfold gs. rewrite seq_S, flat_map_app. simpl. rewrite app_nil_r, <- app_assoc.
    rewrite offset_of_S by assumption. reflexivity.
  - rewrite E, Hacc. unfold grouped_softmax, gs.
    rewrite offset_of_all by lia. reflexivity.
Qed.

Lemma rd_softmax_row {NP : Numpy} gamma sizes (row : list R) i :
  (i < sum_list sizes)%nat ->
  rd (grouped_softmax gamma sizes row ++ drop (sum_list sizes) row) i
  = rd (grouped_softmax gamma sizes row) i.
Proof.
  intros Hi. unfold rd. rewrite !nth_lookup.
  rewrite lookup_app_l by (rewrite grouped_softmax_length; assumption). reflexivity.
Qed.

(** ** The observable of one sample *)

Lemma grad_backobs_ok {LC : LearningCircuit} (self : QNNClassifier LC)
    (row : list R) (y_scaled : list (list Z)) h y0 yh :
  y_scaled !! 0%nat = Some y0 -> y_scaled !! h = Some yh ->
  (length y0 <= length yh)%nat -> (length y0 <= length row)%nat ->
  grad_backobs self row y_scaled h
  = Ok (map (fun i => ((rd row i - IZR (nth i yh 0%Z)) * y_exp_ratio self, i))
            (seq 0 (length y0))).
Proof.
  intros Hy0 Hyh Hwy Hwr. unfold grad_backobs.
  rewrite (idx_Some _ _ _ Hy0). cbn [bind].
  set (f := fun i => ((rd row i - IZR (nth i yh 0%Z)) * y_exp_ratio self, i)).
  loop_invariant (fun i (acc : list (R * nat)) => acc = map f (seq 0 i))
    as [acc [E Hacc]].
  - reflexivity.
  - intros i s Hi ->. cbv beta.
    rewrite idx_rd by lia. cbn [bind].
    rewrite (idx_Some _ _ _ Hyh). cbn [bind].
    rewrite idx_nthZ by lia. cbn [bind].
    eexists. split; [reflexivity |].
    rewrite seq_S, map_app. reflexivity.
  - rewrite E, Hacc. reflexivity.
Qed.

(** ** Loops on the circuit *)

Lemma forM_seq_inv {LC : LearningCircuit} {St : Type}
    (P : nat -> St -> circ LC -> Prop) (body : nat -> St -> M LC St) :
  forall m a s c,
    P a s c ->
    (forall k s c, (a <= k < a + m)%nat -> P k s c ->
       exists s' c', body k s c = (Ok s', c') /\ P (S k) s' c') ->
    exists s' c', forM_ LC (seq a m) body s c = (Ok s', c') /\ P (a + m)%nat s' c'.
Proof.
  induction m as [|m IH]; intros a s c H0 Hstep; simpl.
  - exists s, c. rewrite Nat.add_0_r. auto.
  - destruct (Hstep a s c) as [s1 [c1 [E1 P1]]]; [lia | assumption |].
    unfold bindM at 1. rewrite E1.
    destruct (IH (S a) s1 c1 P1) as [s2 [c2 [E2 P2]]].
    + intros k s' c' Hk. apply Hstep. lia.
    + exists s2, c2. split; [assumption |].
      replace (a + S m)%nat with (S a + m)%nat by lia. assumption.
Qed.

Lemma forM_range_inv {LC : LearningCircuit} {St : Type}
    (P : nat -> St -> circ LC -> Prop) (body : nat -> St -> M LC St) n s c :
  P 0%nat s c ->
  (forall k s c, (k < n)%nat -> P k s c ->
     exists s' c', body k s c = (Ok s', c') /\ P (S k) s' c') ->
  exists s' c', forM_ LC (range n) body s c = (Ok s', c') /\ P n s' c'.
Proof.
  intros H0 Hstep. unfold range.
  destruct (forM_seq_inv P body n 0 s c H0) as [s' [c' [E Hs]]].
  - intros k s1 c1 Hk. apply Hstep. lia.
  - exists s', c'. auto.
Qed.

(** ** The forward predictor *)

Lemma predict_inner_cons (LC : LearningCircuit) x xs c :
  _predict_inner LC (x :: xs) c =
  (map (fun i => get_expectation_value LC i (fst (run LC x c))) (range (n_qubit LC))
     :: fst (_predict_inner LC xs (snd (run LC x c))),
   snd (_predict_inner LC xs (snd (run LC x c)))).
Proof.
  simpl. destruct (run LC x c) as [state c1]. simpl.
  destruct (_predict_inner LC xs c1) as [res c2]. reflexivity.
Qed.

Lemma predict_inner_length (LC : LearningCircuit) x_list c :
  length (fst (_predict_inner LC x_list c)) = length x_list.
Proof.
  revert c. induction x_list as [|x xs IH]; intros c; [reflexivity |].
  rewrite predict_inner_cons. simpl. rewrite IH. reflexivity.
Qed.

Lemma predict_inner_rows (LC : LearningCircuit) x_list c :
  Forall (fun r => length r = n_qubit LC) (fst (_predict_inner LC x_list c)).
Proof.
  revert c. induction x_list as [|x xs IH]; intros c; [constructor |].
  rewrite predict_inner_cons. simpl. constructor; [| apply IH].
  unfold range. rewrite length_map, length_seq. reflexivity.
Qed.

Lemma predict_inner_parameters (LC : LearningCircuit) x_list c :
  LawfulCircuit LC ->
  get_parameters LC (snd (_predict_inner LC x_list c)) = get_parameters LC c.
Proof.
  intros Hlaw. revert c. induction x_list as [|x xs IH]; intros c; [reflexivity |].
  rewrite predict_inner_cons. simpl. rewrite IH. apply (run_parameters LC Hlaw).
Qed.

(** ** The sum of the backprop calls *)

Lemma backprop_sum_snoc (LC : LearningCircuit) samples x obs :
  forall acc c,
    backprop_sum LC (samples ++ [(x, obs)]) acc c =
    (zip_with Rplus (fst (backprop_sum LC samples acc c))
                    (fst (backprop LC x obs (snd (backprop_sum LC samples acc c)))),
     snd (backprop LC x obs (snd (backprop_sum LC samples acc c)))).
Proof.
  induction samples as [|[x0 obs0] samples IH]; intros acc c; simpl.
  - destruct (backprop LC x obs c) as [g c']. reflexivity.
  - destruct (backprop LC x0 obs0 c) as [g c']. apply IH.
Qed.

Lemma vop_inplace_same op (u v : list R) :
  length u = length v -> vop_inplace op u v = Ok (zip_with op u v).
Proof.
  intros H. unfold vop_inplace.
  replace (length u =? length v)%nat with true by (symmetry; apply Nat.eqb_eq; assumption).
  reflexivity.
Qed.

Lemma vop_same op (u v : list R) :
  length u = length v -> vop op u v = Ok (zip_with op u v).
Proof.
  intros H. unfold vop.
  replace (length u =? length v)%nat with true by (symmetry; apply Nat.eqb_eq; assumption).
  reflexivity.
Qed.

(** ** The gradient *)

Lemma weighted_observable_code {NP : Numpy} gamma sizes (row : list R) (yh : list Z) width :
  (width <= sum_list sizes)%nat ->
  map (fun i => ((rd (grouped_softmax gamma sizes row ++ drop (sum_list sizes) row) i
                  - IZR (nth i yh 0%Z)) * gamma, i)) (seq 0 width)
  = weighted_observable gamma (grouped_softmax gamma sizes row) yh width.
Proof.
  intros Hw. unfold weighted_observable. apply map_ext_in. intros i Hi.
  apply in_seq in Hi. rewrite rd_softmax_row by lia. f_equal. apply Rmult_comm.
Qed.

(** C3. For every sample [h], [_cost_func_grad] builds one observable with
    the weight [y_exp_ratio * (p_i - y_i)] on qubit [i], where [p] is the
    grouped softmax of the raw outputs of the sample and [y] its one-hot
    target, makes one [backprop] call with it, and returns the sum of the
    gradients of these calls divided by the number of samples. *)
Theorem cost_func_grad_backprop {NP : Numpy} {LC : LearningCircuit}
    (self : QNNClassifier LC) (categories_ : list (list Z)) (theta : list R)
    (x_scaled : list (list R)) (y_scaled : list (list Z)) (c : circ LC) :
  scale_y_param self = get_y_scale_param categories_ ->
  (sum_list (map length categories_) <= n_qubit LC)%nat ->
  x_scaled <> [] ->
  length y_scaled = length x_scaled ->
  Forall (fun yh => length yh = sum_list (map length categories_)) y_scaled ->
  (forall x obs c, length (fst (backprop LC x obs c)) = length theta) ->
  forall raw c2 total c3,
    _predict_inner LC x_scaled (update_parameters LC theta c) = (raw, c2) ->
    backprop_sum LC
      (zip x_scaled
           (zip_with (fun r y =>
                        weighted_observable (y_exp_ratio self)
                          (grouped_softmax (y_exp_ratio self) (map length categories_) r)
                          y (sum_list (map length categories_)))
                     raw y_scaled))
      (zeros (length theta)) c2 = (total, c3) ->
    _cost_func_grad self theta x_scaled y_scaled c
    = (Ok (vdiv total (INR (length x_scaled))), update_parameters LC theta c3).
Proof.
  intros Hsp Hq Hx Hlen Hy Hbp raw c2 total c3 Hraw Htotal.
  rewrite get_y_scale_param_eq in Hsp.
  rewrite <- (length_map length categories_) in Hsp.
  set (sizes := map length categories_) in *.
  set (gamma := y_exp_ratio self) in *.
  set (W := sum_list sizes) in *.
  set (obs := zip_with (fun r y => weighted_observable gamma (grouped_softmax gamma sizes r) y W)
                       raw y_scaled) in *.
  assert (Hrawlen : length raw = length x_scaled)
    by (rewrite <- (predict_inner_length LC x_scaled (update_parameters LC theta c)), Hraw;
        reflexivity).
  assert (Hrawrows : Forall (fun r => length r = n_qubit LC) raw).
  { pose proof (predict_inner_rows LC x_scaled (update_parameters LC theta c)) as H.
    rewrite Hraw in H. exact H. }
  unfold _cost_func_grad. rewrite Hraw.
  match goal with |- context [forM_ LC _ ?b ?s0 c2] =>
    destruct (forM_range_inv
      (fun h (st : list (list R) * list R) ch =>
         length (fst st) = length raw /\
         (forall h', (h <= h')%nat -> fst st !! h' = raw !! h') /\
         length (snd st) = length theta /\
         backprop_sum LC (take h (zip x_scaled obs)) (zeros (length theta)) c2 = (snd st, ch))
      b (length x_scaled) s0 c2) as [[mtoN gradN] [cN [E [_ [_ [_ HN]]]]]] end.
  - simpl. repeat split. apply length_replicate.
  - intros h [mto grad] ch Hh [Hl [Hrows [Hg Hsum]]]. simpl in Hl, Hrows, Hg, Hsum.
    destruct (lookup_lt_is_Some_2 raw h ltac:(lia)) as [row Hrow].
    destruct (lookup_lt_is_Some_2 x_scaled h Hh) as [x Hxh].
    destruct (lookup_lt_is_Some_2 y_scaled h ltac:(lia)) as [yh Hyh].
    destruct (lookup_lt_is_Some_2 y_scaled 0 ltac:(lia)) as [y0 Hy0].
    assert (Hrowlen : length row = n_qubit LC).
    { rewrite Forall_forall in Hrawrows. apply Hrawrows, list_elem_of_lookup. eauto. }
    assert (Hyhlen : length yh = W).
    { rewrite Forall_forall in Hy. apply Hy, list_elem_of_lookup. eauto. }
    assert (Hy0len : length y0 = W).
    { rewrite Forall_forall in Hy. apply Hy, list_elem_of_lookup. eauto. }
    cbv beta iota. unfold bindM, lift, ret.
    rewrite (idx_Some mto h row) by (rewrite Hrows by lia; assumption).
    rewrite (grad_softmax_ok self sizes row Hsp) by (fold W; lia).
    rewrite (grad_backobs_ok self _ y_scaled h y0 yh Hy0 Hyh)
      by (rewrite ?length_app, ?grouped_softmax_length, ?length_drop; fold W; lia).
    rewrite (idx_Some _ _ _ Hxh).
    rewrite Hy0len. fold gamma.
    rewrite weighted_observable_code by (fold W; lia).
    set (o := weighted_observable gamma (grouped_softmax gamma sizes row) yh W).
    pose proof (Hbp x o ch) as Hgl.
    destruct (backprop LC x o ch) as [g c'] eqn:Ebp. simpl in Hgl.
    rewrite vop_inplace_same by lia.
    eexists. eexists. split; [reflexivity |]. simpl.
    split; [rewrite length_insert; assumption |].
    split; [intros h' Hh'; rewrite list_lookup_insert_ne by lia; apply Hrows; lia |].
    split; [rewrite length_zip_with; lia |].
    assert (Hs : zip x_scaled obs !! h = Some (x, o)).
    { apply lookup_zip_with_Some. exists x, o. split; [reflexivity |]. split; [assumption |].
      unfold obs. apply lookup_zip_with_Some. exists row, yh. auto. }
    rewrite (take_S_r _ _ _ Hs), backprop_sum_snoc, Hsum. simpl. rewrite Ebp. reflexivity.
  - rewrite E. simpl in HN.
    rewrite take_ge in HN
      by (unfold obs; rewrite !length_zip_with; lia).
    rewrite Htotal in HN. inversion HN; subst. reflexivity.
Qed.

(** The concrete adapter on two samples: two [backprop] calls. *)
Lemma cost_func_grad_backprop_witness :
  exists g c',
    _cost_func_grad (NP := exact_numpy) (toy_fitted "Adam" "log_loss") [1] [[0]; [1]]
                    [[1; 0]; [0; 1]]%Z toy_start
    = (Ok g, c') /\ length g = 1%nat /\ toy_backprops c' = 2%nat.
Proof.
  eexists. eexists. split.
  - eapply (cost_func_grad_backprop (NP := exact_numpy)
              (toy_fitted "Adam" "log_loss") [[0; 1]%Z] [1]
              [[0]; [1]] [[1; 0]; [0; 1]]%Z toy_start).
    + reflexivity.
    + simpl; lia.
    + discriminate.
    + reflexivity.
    + repeat constructor.
    + intros x obs c. reflexivity.
    + reflexivity.
    + reflexivity.
  - split; reflexivity.
Defined.

(** ** The circuit parameters after an evaluation *)

Lemma toy_lawful : LawfulCircuit toy.
Proof. split; intros; reflexivity. Qed.

(** The [backprop] of the concrete adapter does move the stored
    parameters: without the second [update_parameters] the gradient would
    leave them changed. *)
Example toy_backprop_moves_parameters :
  get_parameters toy (snd (backprop toy [0] [] (update_parameters toy [1] toy_start))) = [0].
Proof. reflexivity. Qed.

(** C10. When [cost_func] or [_cost_func_grad] returns, the parameter
    vector of the circuit is the [theta] that was passed in: [cost_func]
    sets it before its runs, which leave it alone, and [_cost_func_grad]
    sets it again after its [backprop] calls. *)
Theorem parameters_are_theta {NP : Numpy} {LC : LearningCircuit}
    (self : QNNClassifier LC) (theta : list R)
    (x_scaled : list (list R)) (y_scaled : list (list Z)) (c : circ LC) :
  LawfulCircuit LC ->
  (forall v c', cost_func self theta x_scaled y_scaled c = (Ok v, c') ->
                get_parameters LC c' = theta) /\
  (forall g c', _cost_func_grad self theta x_scaled y_scaled c = (Ok g, c') ->
                get_parameters LC c' = theta).
Proof.
  intros Hlaw. split.
  - intros v c'. unfold cost_func.
    destruct (cost self =? "log_loss")%string.
    + pose proof (predict_inner_parameters LC x_scaled (update_parameters LC theta c) Hlaw)
        as Hp.
      destruct (_predict_inner LC x_scaled (update_parameters LC theta c)) as [y_pred c2].
      simpl in Hp. intros H. inversion H; subst c'.
      rewrite Hp. apply (get_update LC Hlaw).
    + unfold lift. intros H. inversion H.
  - intros g c'. unfold _cost_func_grad.
    destruct (_predict_inner LC x_scaled (update_parameters LC theta c)) as [mto c2].
    match goal with |- context [forM_ LC ?l ?b ?s0 c2] =>
      destruct (forM_ LC l b s0 c2) as [[[mto' grad] | e] c3] end.
    + intros H. inversion H; subst. apply (get_update LC Hlaw).
    + intros H. inversion H.
Qed.

(** The concrete adapter, whose [backprop] moves the parameters, ends
    both evaluations with the parameters it was given. *)
Lemma parameters_are_theta_witness :
  get_parameters toy
    (snd (cost_func (NP := exact_numpy) (toy_fitted "Adam" "log_loss") [1] [[0]; [1]]
                    [[1; 0]; [0; 1]]%Z toy_start)) = [1] /\
  get_parameters toy
    (snd (_cost_func_grad (NP := exact_numpy) (toy_fitted "Adam" "log_loss") [1]
                          [[0]; [1]] [[1; 0]; [0; 1]]%Z toy_start)) = [1].
Proof.
  destruct (parameters_are_theta (NP := exact_numpy)
              (toy_fitted "Adam" "log_loss") [1] [[0]; [1]]
              [[1; 0]; [0; 1]]%Z toy_start toy_lawful) as [Hcost Hgrad].
  split.
  - eapply Hcost. reflexivity.
  - eapply Hgrad. reflexivity.
Defined.

(** ** The Adam update *)

Lemma rd_map (f : R -> R) (l : list R) i :
  (i < length l)%nat -> rd (map f l) i = f (rd l i).
Proof.
  intros Hi. unfold rd. rewrite !nth_lookup, list_lookup_fmap.
  destruct (lookup_lt_is_Some_2 l i Hi) as [v E]. rewrite E. reflexivity.
Qed.

Lemma rd_zip_with (op : R -> R -> R) (u v : list R) i :
  (i < length u)%nat -> (i < length v)%nat ->
  rd (zip_with op u v) i = op (rd u i) (rd v i).
Proof.
  intros Hu Hv. unfold rd. rewrite !nth_lookup, lookup_zip_with.
  destruct (lookup_lt_is_Some_2 u i Hu) as [a Ea].
  destruct (lookup_lt_is_Some_2 v i Hv) as [b Eb].
  rewrite Ea, Eb. reflexivity.
Qed.

Lemma sumf_shift f n : sumf f (S n) = f 0%nat + sumf (fun i => f (S i)) n.
Proof.
  induction n as [|n IH]; simpl in *; [lra |].
  rewrite IH. lra.
Qed.

(** [np.dot(grad, grad)] is the squared norm of the gradient. *)
Lemma dot_squared_norm (g : list R) :
  dot g g = sumf (fun i => rd g i * rd g i) (length g).
Proof.
  unfold dot. induction g as [|a g IH]; [reflexivity |].
  cbn [zip_with foldr length]. rewrite sumf_shift, IH. reflexivity.
Qed.

Lemma adam_update_ok (s : adam_state) (grad : list R) :
  length (moment s) = length grad -> length (theta_now s) = length grad ->
  adam_update s grad =
  Ok {| Bix := Bix s * pr_Bi + (1 - pr_Bi);
        Btx := Btx s * pr_Bt + (1 - pr_Bt);
        moment := zip_with Rplus (map (fun m => m * pr_Bi) (moment s))
                                 (map (fun g => (1 - pr_Bi) * g) grad);
        vel := vel s * pr_Bt + (1 - pr_Bt) * dot grad grad;
        theta_now :=
          zip_with Rminus (theta_now s)
            (map (fun m => pr_A / (sqrt ((vel s * pr_Bt + (1 - pr_Bt) * dot grad grad)
                                         / (Btx s * pr_Bt + (1 - pr_Bt))) + pr_ips) * m)
                 (vdiv (zip_with Rplus (map (fun m => m * pr_Bi) (moment s))
                                       (map (fun g => (1 - pr_Bi) * g) grad))
                       (Bix s * pr_Bi + (1 - pr_Bi)))) |}.
Proof.
  intros Hm Ht. unfold adam_update.
  rewrite vop_same by (rewrite !length_map; assumption). cbn [bind].
  rewrite vop_inplace_same
    by (unfold vdiv; rewrite !length_map, length_zip_with, !length_map; lia).
  reflexivity.
Qed.

(** C4. One step of the Adam driver, on a gradient of the length of the
    parameters: the hyperparameters are 0.02, 0.8, 0.995 and 1e-7; the
    velocity is a scalar fed by [dot(grad, grad)], the squared norm; the
    moment is [beta1*moment + (1-beta1)*grad]; the two bias corrections
    are scalars; and every parameter moves by the same scalar step
    [alpha / (sqrt(velocity/biasCorr2) + epsilon)] times its
    [moment/biasCorr1]. *)
Theorem adam_step_update {NP : Numpy} {LC : LearningCircuit}
    (self : QNNClassifier LC) (x_train : list (list R)) (y_train : list (list Z))
    (x_scaled : list (list R)) (y_scaled : list (list Z))
    (iter : nat) (s : adam_state) (c c1 : circ LC)
    (xy : list (list R) * list (list Z)) (grad : list R) :
  adam_batch x_train y_train x_scaled y_scaled iter = Ok xy ->
  _cost_func_grad self (theta_now s) (fst xy) (snd xy) c = (Ok grad, c1) ->
  length (moment s) = length grad ->
  length (theta_now s) = length grad ->
  (forall cb theta c, callback self = Some cb -> fst (cb theta c) = Ok tt) ->
  exists s' c',
    adam_step self x_train y_train x_scaled y_scaled iter s c = (Ok s', c') /\
    vel s' = 0.995 * vel s + (1 - 0.995) * dot grad grad /\
    dot grad grad = sumf (fun i => rd grad i * rd grad i) (length grad) /\
    Bix s' = 0.8 * Bix s + (1 - 0.8) /\
    Btx s' = 0.995 * Btx s + (1 - 0.995) /\
    length (moment s') = length grad /\
    length (theta_now s') = length grad /\
    forall i, (i < length grad)%nat ->
      rd (moment s') i = 0.8 * rd (moment s) i + (1 - 0.8) * rd grad i /\
      rd (theta_now s') i
      = rd (theta_now s) i
        - 0.02 / (sqrt (vel s' / Btx s') + 0.0000001) * (rd (moment s') i / Bix s').
Proof.
  intros Hxy Hgrad Hm Ht Hcb.
  unfold adam_step, bindM, lift, ret. rewrite Hxy, Hgrad.
  rewrite (adam_update_ok s grad Hm Ht).
  set (s' := {| Bix := _ |}).
  assert (Hstep : exists c',
    (let (r, c'0) :=
       match callback self with
       | Some cb => cb (theta_now s')
       | None => fun c0 => (Ok tt, c0)
       end c1 in
     match r with
     | Ok _ => (Ok s', c'0)
     | Raise e => (Raise e, c'0)
     end) = (Ok s', c')).
  { destruct (callback self) as [cb |] eqn:Ecb.
    - specialize (Hcb cb (theta_now s') c1 eq_refl).
      destruct (cb (theta_now s') c1) as [r c']. simpl in Hcb. subst r.
      exists c'. reflexivity.
    - exists c1. reflexivity. }
  destruct Hstep as [c' Hstep]. exists s', c'.
  split; [exact Hstep |].
  unfold s'. cbn [vel Bix Btx moment theta_now]. unfold pr_A, pr_Bi, pr_Bt, pr_ips.
  split; [lra |].
  split; [apply dot_squared_norm |].
  split; [lra |].
  split; [lra |].
  split; [rewrite length_zip_with, !length_map; lia |].
  split; [unfold vdiv; rewrite !length_zip_with, !length_map, length_zip_with, !length_map; lia |].
  intros i Hi.
  assert (Hmo : rd (zip_with Rplus (map (fun m => m * 0.8) (moment s))
                                   (map (fun g => (1 - 0.8) * g) grad)) i
                = 0.8 * rd (moment s) i + (1 - 0.8) * rd grad i).
  { rewrite rd_zip_with by (rewrite length_map; lia).
    rewrite !rd_map by lia. lra. }
  split; [exact Hmo |].
  rewrite rd_zip_with
    by (unfold vdiv; rewrite ?length_map, ?length_zip_with, ?length_map; lia).
  rewrite rd_map by (unfold vdiv; rewrite ?length_map, ?length_zip_with, ?length_map; lia).
  unfold vdiv. rewrite rd_map by (rewrite ?length_zip_with, ?length_map; lia).
  rewrite Hmo. reflexivity.
Qed.

(** The first step of the driver on the concrete adapter. *)
Lemma adam_step_update_witness :
  exists s' c',
    adam_step (NP := exact_numpy) (toy_fitted "Adam" "log_loss") [[0]; [1]] [[0]; [1]]%Z
              [[0]; [1]] [[1; 0]; [0; 1]]%Z 0 (adam_init [1]) toy_start = (Ok s', c') /\
    Bix s' = 0.8 * 0 + (1 - 0.8) /\
    Btx s' = 0.995 * 0 + (1 - 0.995) /\
    length (theta_now s') = 1%nat.
Proof.
  edestruct (adam_step_update (NP := exact_numpy)
               (toy_fitted "Adam" "log_loss") [[0]; [1]] [[0]; [1]]%Z
               [[0]; [1]] [[1; 0]; [0; 1]]%Z 0 (adam_init [1]) toy_start)
    as [s' [c' [E [_ [_ [HBix [HBtx [_ [Hlen _]]]]]]]]].
  - reflexivity.
  - reflexivity.
  - reflexivity.
  - reflexivity.
  - intros cb theta c H. discriminate H.
  - exists s', c'. split; [exact E |]. split; [exact HBix |]. split; [exact HBtx | exact Hlen].
Defined.

(** ** The batches of the Adam driver *)

Lemma range_by5_spec (stop : Z) (iter : nat) :
  iter ∈ range_by5 stop <-> (exists i, iter = (5 * i)%nat) /\ (Z.of_nat iter < stop)%Z.
Proof.
  unfold range_by5. rewrite list_elem_of_In, in_map_iff. split.
  - intros [i [<- Hi]]. apply in_seq in Hi. split; [eauto |].
    destruct (Z_lt_le_dec stop 1) as [Hs | Hs].
    + assert ((stop + 4) / 5 < 1)%Z by (apply Z.div_lt_upper_bound; lia).
      lia.
    + pose proof (Z.mul_div_le (stop + 4) 5 ltac:(lia)). lia.
  - intros [[i ->] Hlt]. exists i. split; [reflexivity |]. apply in_seq.
    split; [lia |]. simpl.
    assert (Z.of_nat i + 1 <= (stop + 4) / 5)%Z; [| lia].
    apply Z.div_le_lower_bound; lia.
Qed.

(** The number of steps: [maxiter * N], counted in fives, rounded up. *)
Lemma range_by5_length (stop : Z) :
  length (range_by5 stop) = Z.to_nat ((stop + 4) / 5).
Proof. unfold range_by5. rewrite length_map, length_seq. reflexivity. Qed.

Lemma slice_length {A : Type} (l : list A) a n :
  length (slice l a n) = (n `min` (length l - a))%nat.
Proof. unfold slice. rewrite length_take, length_drop. reflexivity. Qed.

Lemma slice_lookup {A : Type} (l : list A) a n q :
  (q < n)%nat -> slice l a n !! q = l !! (a + q)%nat.
Proof. intros Hq. unfold slice. rewrite lookup_take_lt by assumption. apply lookup_drop. Qed.


(** ** [fit] with the Adam driver *)

(** Where the cost kind is checked: [cost_func] refuses an unsupported
    kind before it touches the circuit. *)
Lemma cost_func_unsupported {NP : Numpy} {LC : LearningCircuit} (self : QNNClassifier LC)
    theta x_scaled y_scaled c :
  (cost self =? "log_loss")%string = false ->
  cost_func self theta x_scaled y_scaled c = (Raise NotImplementedError, c).
Proof. intros H. unfold cost_func. rewrite H. reflexivity. Qed.

(** C2 at two samples with the labels 0 and 2, no feature scaling and
    [maxiter = 1].  The encoder finds the levels [[0, 2]] and the one-hot
    targets [[1,0]] and [[0,1]], which the single Adam step uses.  The loss
    that [fit] returns is [cost_func] on the raw labels [[0]] and [[2]]:
    no label is 1, so it is 0, while the cost of the returned parameters
    on the one-hot targets is [ln 2 / 2]. *)
Theorem fit_adam_loss_on_raw_targets :
  enc_categories [[0]; [2]]%Z = Ok [[0; 2]%Z] /\
  enc_transform [[0; 2]%Z] [[0]; [2]]%Z = [[1; 0]; [0; 1]]%Z /\
  exists loss theta c',
    fit (NP := exact_numpy) toy_fit_transform toy_minimize (toy_model "Adam" "log_loss")
        (Arr2 [[0]; [1]]) (Arr1 [0; 2]%Z) (Some 1%Z) toy_start
    = (Ok (loss, theta), c') /\
    loss = 0 /\
    exists c'',
      cost_func (NP := exact_numpy)
                (set_scale_y_param (toy_model "Adam" "log_loss")
                                   (get_y_scale_param [[0; 2]%Z]))
                theta [[0]; [1]] [[1; 0]; [0; 1]]%Z c'
      = (Ok (ln 2 / 2), c'') /\
      ln 2 / 2 <> 0.
Proof.
  assert (Hhalf : ln (1 / (0 + 1 + 1)) = - ln 2).
  { replace (1 / (0 + 1 + 1)) with (/ 2) by lra. apply ln_Rinv. lra. }
  split; [reflexivity |]. split; [reflexivity |].
  eexists. eexists. eexists. split.
  - unfold fit. cbn. unfold adam_loop.
    change (range_by5 (1 * Z.of_nat (length [[0]; [1]]))) with [0%nat].
    cbn. reflexivity.
  - split; [lra |]. eexists. split.
    + unfold cost_func. cbn. rewrite !Rmult_0_r, !exp_0, Hhalf.
      f_equal. f_equal. lra.
    + pose proof ln_lt_2. lra.
Qed.

(** C6 at the solver "Adam" and the cost kind "mse", two samples and
    [maxiter = 1]: [fit] does raise [NotImplementedError], but only from
    the [cost_func] call after the loop.  By then the step has run the
    circuit on both samples and made both [backprop] calls. *)
Theorem fit_adam_unsupported_cost_after_training :
  exists c',
    fit (NP := exact_numpy) toy_fit_transform toy_minimize (toy_model "Adam" "mse")
        (Arr2 [[0]; [1]]) (Arr1 [0; 1]%Z) (Some 1%Z) toy_start
    = (Raise NotImplementedError, c') /\
    toy_runs c' = 2%nat /\ toy_backprops c' = 2%nat.
Proof.
  eexists. split.
  - unfold fit. cbn. unfold adam_loop.
    change (range_by5 (1 * Z.of_nat (length [[0]; [1]]))) with [0%nat].
    cbn. reflexivity.
  - split; reflexivity.
Qed.

(** * Further properties of the classifier *)

(** ** Loops that fail, loops that return *)

Lemma for_first_raise {St : Type} (body : nat -> St -> res St) n s e :
  body 0%nat s = Raise e -> for_ (range (S n)) body s = Raise e.
Proof. intros H. unfold range. simpl. rewrite H. reflexivity. Qed.

Lemma for_ok_each {A St : Type} (body : A -> St -> res St) (l : list A) :
  forall s s', for_ l body s = Ok s' ->
  forall a, a ∈ l -> exists s1 s2, body a s1 = Ok s2.
Proof.
  induction l as [|b l IH]; intros s s' H a Ha.
  - apply elem_of_nil in Ha. destruct Ha.
  - simpl in H. destruct (body b s) as [s1 |] eqn:E; [| discriminate].
    apply elem_of_cons in Ha. destruct Ha as [-> | Ha].
    + exists s, s1. exact E.
    + apply (IH s1 s' H a Ha).
Qed.

Lemma for_raise_some {A St : Type} (body : A -> St -> res St) (l : list A) :
  forall s e, for_ l body s = Raise e ->
  exists a s1, a ∈ l /\ body a s1 = Raise e.
Proof.
  induction l as [|b l IH]; intros s e H; [discriminate |].
  simpl in H. destruct (body b s) as [s1 |] eqn:E.
  - destruct (IH s1 e H) as [a [s2 [Ha Hb]]].
    exists a, s2. split; [apply elem_of_cons; right; exact Ha | exact Hb].
  - inversion H; subst. exists b, s. split; [apply elem_of_cons; left; reflexivity | exact E].
Qed.

Lemma forM_first_raise {LC : LearningCircuit} {St : Type}
    (body : nat -> St -> M LC St) n s c e c' :
  body 0%nat s c = (Raise e, c') -> forM_ LC (range (S n)) body s c = (Raise e, c').
Proof. intros H. unfold range. simpl. unfold bindM. rewrite H. reflexivity. Qed.

(** An invariant of the steps that return carries to the end of a loop
    that returns. *)
Lemma forM_ok_invariant {LC : LearningCircuit} {A St : Type}
    (I : nat -> St -> Prop) (body : A -> St -> M LC St) (l : list A) :
  forall k s c s' c',
    I k s ->
    (forall i a s c s' c', I i s -> body a s c = (Ok s', c') -> I (S i) s') ->
    forM_ LC l body s c = (Ok s', c') ->
    I (k + length l)%nat s'.
Proof.
  induction l as [|a l IH]; intros k s c s' c' H0 Hstep H.
  - simpl in H. unfold ret in H. inversion H; subst. rewrite Nat.add_0_r. exact H0.
  - simpl in H. unfold bindM in H.
    destruct (body a s c) as [[s1 | e] c1] eqn:E; [| discriminate].
    replace (k + length (a :: l))%nat with (S k + length l)%nat by (simpl; lia).
    apply (IH (S k) s1 c1 s' c'); [| exact Hstep | exact H].
    apply (Hstep k a s c s1 c1 H0 E).
Qed.

(** ** The value of [cost_func] *)

Lemma cost_func_value {NP : Numpy} {LC : LearningCircuit} (self : QNNClassifier LC)
    (categories_ : list (list Z)) (theta : list R)
    (x_scaled : list (list R)) (y_scaled : list (list Z)) (c : circ LC) raw c2 :
  (cost self =? "log_loss")%string = true ->
  scale_y_param self = get_y_scale_param categories_ ->
  (sum_list (map length categories_) <= n_qubit LC)%nat ->
  _predict_inner LC x_scaled (update_parameters LC theta c) = (raw, c2) ->
  (length (concat y_scaled) <= length x_scaled * sum_list (map length categories_))%nat ->
  concat y_scaled <> [] ->
  cost_func self theta x_scaled y_scaled c
  = (Ok (neg_log_sum
           (hot_args (flat_map (grouped_softmax (y_exp_ratio self) (map length categories_)) raw)
                     (concat y_scaled) (length (concat y_scaled)))
         / INR (length (concat y_scaled))), c2).
Proof.
  intros Hcost Hsp Hq Hraw Hlen Hne.
  rewrite get_y_scale_param_eq in Hsp.
  rewrite <- (length_map length categories_) in Hsp.
  set (sizes := map length categories_) in *.
  assert (Hrawlen : length raw = length x_scaled)
    by (rewrite <- (predict_inner_length LC x_scaled (update_parameters LC theta c)), Hraw;
        reflexivity).
  assert (Hrows : Forall (fun r => (sum_list sizes <= length r)%nat) raw).
  { pose proof (predict_inner_rows LC x_scaled (update_parameters LC theta c)) as H.
    rewrite Hraw in H. eapply Forall_impl; [exact H |]. intros r Hr. simpl in Hr. lia. }
  unfold cost_func. rewrite Hcost, Hraw.
  rewrite (cost_ypf_ok self sizes raw Hsp Hrows). cbn [bind].
  rewrite cost_sum_ok; [reflexivity | | assumption].
  rewrite (flat_map_length_row _ (sum_list sizes)) by apply grouped_softmax_length.
  lia.
Qed.

(** X1: on targets of the total width [W] of the groups, one row per
    sample, [cost_func] returns the mean over samples of the summed
    [-log p], divided once more by [W]. *)
Theorem cost_func_mean_div_width {NP : Numpy} {LC : LearningCircuit}
    (self : QNNClassifier LC) (categories_ : list (list Z)) (theta : list R)
    (x_scaled : list (list R)) (y_scaled : list (list Z)) (c : circ LC) raw c2 :
  (cost self =? "log_loss")%string = true ->
  scale_y_param self = get_y_scale_param categories_ ->
  (0 < sum_list (map length categories_) <= n_qubit LC)%nat ->
  x_scaled <> [] ->
  length y_scaled = length x_scaled ->
  Forall (fun yh => length yh = sum_list (map length categories_)) y_scaled ->
  _predict_inner LC x_scaled (update_parameters LC theta c) = (raw, c2) ->
  cost_func self theta x_scaled y_scaled c
  = (Ok (mean_over_samples
           (flat_map (grouped_softmax (y_exp_ratio self) (map length categories_)) raw)
           y_scaled
         / INR (sum_list (map length categories_))), c2).
Proof.
  intros Hcost Hsp [HW Hq] Hx Hlen Hy Hraw.
  pose proof (concat_length_rows _ _ Hy) as Hcat.
  assert (HN : (0 < length x_scaled)%nat) by (destruct x_scaled; [congruence | simpl; lia]).
  rewrite (cost_func_value self categories_ theta x_scaled y_scaled c raw c2
             Hcost Hsp Hq Hraw).
  - f_equal. f_equal. unfold mean_over_samples. rewrite Hcat, mult_INR.
    assert (INR (length y_scaled) <> 0) by (apply not_0_INR; lia).
    assert (INR (sum_list (map length categories_)) <> 0) by (apply not_0_INR; lia).
    field. split; assumption.
  - lia.
  - intros Hnil. rewrite Hnil in Hcat. simpl in Hcat. nia.
Qed.

(** The two samples of the concrete adapter, targets [[1,0]] and [[0,1]]. *)
Lemma cost_func_mean_div_width_witness :
  exists ypf c2,
    cost_func (NP := exact_numpy) (toy_fitted "BFGS" "log_loss") [1] [[0]; [0]]
              [[1; 0]; [0; 1]]%Z toy_start
    = (Ok (mean_over_samples (NP := exact_numpy) ypf [[1; 0]; [0; 1]]%Z / INR 2), c2).
Proof.
  eexists. eexists.
  eapply (cost_func_mean_div_width (NP := exact_numpy) (toy_fitted "BFGS" "log_loss")
            [[0; 1]%Z] [1] [[0]; [0]] [[1; 0]; [0; 1]]%Z toy_start).
  - reflexivity.
  - reflexivity.
  - simpl; lia.
  - discriminate.
  - reflexivity.
  - repeat constructor.
  - reflexivity.
Defined.

(** ** The sign of the cost *)

Lemma sumf_ge_term f n k :
  (forall i, 0 <= f i) -> (k < n)%nat -> f k <= sumf f n.
Proof.
  intros Hf. induction n as [|n IH]; intros Hk; [lia |].
  simpl. assert (Hn : 0 <= sumf f n).
  { clear IH Hk. induction n as [|n IHn]; simpl; [lra |]. specialize (Hf n). lra. }
  destruct (decide (k = n)) as [-> | Hne]; [lra |].
  specialize (IH ltac:(lia)). specialize (Hf n). lra.
Qed.

Lemma softmax_prob_le_1 {NP : Numpy} gamma r h s k :
  exp_positive NP -> (k < s)%nat -> softmax_prob gamma r h s k <= 1.
Proof.
  intros Hexp Hk. unfold softmax_prob.
  assert (Hs : 0 < sumf (fun k' => np_exp (gamma * rd r (h + k'))) s)
    by (apply sumf_pos; [intros; apply Hexp | lia]).
  apply (Rmult_le_reg_r (sumf (fun k' => np_exp (gamma * rd r (h + k'))) s)); [exact Hs |].
  unfold Rdiv. rewrite Rmult_assoc, Rinv_l, Rmult_1_r, Rmult_1_l by lra.
  apply (sumf_ge_term (fun k' => np_exp (gamma * rd r (h + k')))); [| exact Hk].
  intros i. apply Rlt_le, Hexp.
Qed.

Lemma neg_log_sum_fold {NP : Numpy} (args : list R) (c0 : R) :
  fold_left (fun c p => c - np_log p) args c0 = c0 + neg_log_sum args.
Proof.
  unfold neg_log_sum. revert c0. induction args as [|p args IH]; intros c0; simpl.
  - lra.
  - rewrite IH, (IH (0 - np_log p)). lra.
Qed.

Lemma neg_log_sum_cons {NP : Numpy} p (args : list R) :
  neg_log_sum (p :: args) = neg_log_sum args - np_log p.
Proof.
  unfold neg_log_sum at 1. simpl. rewrite neg_log_sum_fold. lra.
Qed.

Lemma neg_log_sum_nonneg (args : list R) :
  Forall (fun p => 0 < p <= 1) args -> 0 <= neg_log_sum (NP := exact_numpy) args.
Proof.
  induction 1 as [|p args [Hp0 Hp1] _ IH].
  - unfold neg_log_sum. simpl. lra.
  - rewrite neg_log_sum_cons. simpl.
    assert (ln p <= 0).
    { destruct (Req_dec p 1) as [-> | Hne]; [rewrite ln_1; lra |].
      rewrite <- ln_1. apply Rlt_le, ln_increasing; lra. }
    lra.
Qed.

Lemma hot_args_quotients {NP : Numpy} gamma sizes (raw : list (list R)) ysf n p :
  (n <= length raw * sum_list sizes)%nat ->
  p ∈ hot_args (flat_map (grouped_softmax gamma sizes) raw) ysf n ->
  exists r, r ∈ raw /\ is_quotient gamma sizes r p.
Proof.
  intros Hn Hp. apply hot_args_elem in Hp.
  - apply list_elem_of_In, in_flat_map in Hp. destruct Hp as [r [Hr Hp]].
    apply list_elem_of_In in Hr, Hp. exists r. split; [exact Hr |].
    apply grouped_softmax_quotient. exact Hp.
  - rewrite (flat_map_length_row _ (sum_list sizes)) by apply grouped_softmax_length.
    exact Hn.
Qed.

(** X2: in exact arithmetic the cost is never negative. *)
Theorem cost_func_nonneg {LC : LearningCircuit} (self : QNNClassifier LC)
    (categories_ : list (list Z)) (theta : list R)
    (x_scaled : list (list R)) (y_scaled : list (list Z)) (c : circ LC) :
  (cost self =? "log_loss")%string = true ->
  scale_y_param self = get_y_scale_param categories_ ->
  (sum_list (map length categories_) <= n_qubit LC)%nat ->
  (length (concat y_scaled) <= length x_scaled * sum_list (map length categories_))%nat ->
  concat y_scaled <> [] ->
  exists v c', cost_func (NP := exact_numpy) self theta x_scaled y_scaled c = (Ok v, c') /\
               0 <= v.
Proof.
  intros Hcost Hsp Hq Hlen Hne.
  destruct (_predict_inner LC x_scaled (update_parameters LC theta c)) as [raw c2] eqn:Hraw.
  assert (Hrawlen : length raw = length x_scaled)
    by (rewrite <- (predict_inner_length LC x_scaled (update_parameters LC theta c)), Hraw;
        reflexivity).
  eexists. exists c2. split.
  - apply (cost_func_value (NP := exact_numpy) self categories_ theta x_scaled y_scaled
             c raw c2 Hcost Hsp Hq Hraw Hlen Hne).
  - apply Rmult_le_pos.
    + apply neg_log_sum_nonneg. apply Forall_forall. intros p Hp.
      apply hot_args_quotients in Hp; [| lia].
      destruct Hp as [r [_ [j [k [Hj [Hk ->]]]]]]. split.
      * apply softmax_prob_pos; [apply exact_numpy_positive | lia].
      * apply softmax_prob_le_1; [apply exact_numpy_positive | exact Hk].
    + apply Rlt_le, Rinv_0_lt_compat, lt_0_INR.
      destruct (concat y_scaled); [congruence | simpl; lia].
Qed.

Lemma cost_func_nonneg_witness :
  exists v c',
    cost_func (NP := exact_numpy) (toy_fitted "BFGS" "log_loss") [1] [[0]; [0]]
              [[1; 0]; [0; 1]]%Z toy_start = (Ok v, c') /\ 0 <= v.
Proof.
  apply (cost_func_nonneg (toy_fitted "BFGS" "log_loss") [[0; 1]%Z] [1] [[0]; [0]]
           [[1; 0]; [0; 1]]%Z toy_start).
  - reflexivity.
  - reflexivity.
  - simpl; lia.
  - simpl; lia.
  - discriminate.
Defined.

(** ** Label columns with a single level *)

Lemma neg_log_sum_ones (args : list R) :
  Forall (fun p => p = 1) args -> neg_log_sum (NP := exact_numpy) args = 0.
Proof.
  induction 1 as [|p args -> _ IH].
  - reflexivity.
  - rewrite neg_log_sum_cons, IH. simpl. rewrite ln_1. lra.
Qed.

Lemma singleton_sizes (cats : list (list Z)) j :
  Forall (fun aaa => length aaa = 1%nat) cats -> (j < length cats)%nat ->
  nth j (map length cats) 0%nat = 1%nat.
Proof.
  intros H Hj. destruct (lookup_lt_is_Some_2 cats j Hj) as [aaa E].
  rewrite nth_lookup, list_lookup_fmap, E. simpl.
  rewrite Forall_forall in H. apply H, list_elem_of_lookup. eauto.
Qed.

(** X3: when every label column has a single level, every group is a
    softmax over one entry, every probability is 1 and the cost is 0,
    whatever the circuit returns. *)
Theorem cost_func_single_level {LC : LearningCircuit} (self : QNNClassifier LC)
    (categories_ : list (list Z)) (theta : list R)
    (x_scaled : list (list R)) (y_scaled : list (list Z)) (c : circ LC) :
  (cost self =? "log_loss")%string = true ->
  scale_y_param self = get_y_scale_param categories_ ->
  Forall (fun aaa => length aaa = 1%nat) categories_ ->
  (sum_list (map length categories_) <= n_qubit LC)%nat ->
  (length (concat y_scaled) <= length x_scaled * sum_list (map length categories_))%nat ->
  concat y_scaled <> [] ->
  exists c', cost_func (NP := exact_numpy) self theta x_scaled y_scaled c = (Ok 0, c').
Proof.
  intros Hcost Hsp Hone Hq Hlen Hne.
  destruct (_predict_inner LC x_scaled (update_parameters LC theta c)) as [raw c2] eqn:Hraw.
  assert (Hrawlen : length raw = length x_scaled)
    by (rewrite <- (predict_inner_length LC x_scaled (update_parameters LC theta c)), Hraw;
        reflexivity).
  exists c2.
  rewrite (cost_func_value (NP := exact_numpy) self categories_ theta x_scaled y_scaled
             c raw c2 Hcost Hsp Hq Hraw Hlen Hne).
  f_equal. f_equal. rewrite neg_log_sum_ones; [apply Rdiv_0_l |].
  apply Forall_forall. intros p Hp.
  apply hot_args_quotients in Hp; [| lia].
  destruct Hp as [r [_ [j [k [Hj [Hk ->]]]]]].
  rewrite length_map in Hj.
  rewrite (singleton_sizes _ _ Hone Hj) in *.
  assert (k = 0%nat) by lia. subst k.
  unfold softmax_prob. simpl. rewrite Rplus_0_l.
  apply Rdiv_diag, Rgt_not_eq, exp_pos.
Qed.

Lemma cost_func_single_level_witness :
  exists c',
    cost_func (NP := exact_numpy)
              (set_scale_y_param (toy_model "BFGS" "log_loss")
                                 (get_y_scale_param [[7]%Z; [3]%Z]))
              [1] [[0]; [1]] [[1; 1]; [1; 1]]%Z toy_start = (Ok 0, c').
Proof.
  apply (cost_func_single_level
           (set_scale_y_param (toy_model "BFGS" "log_loss")
                              (get_y_scale_param [[7]%Z; [3]%Z]))
           [[7]%Z; [3]%Z] [1] [[0]; [1]] [[1; 1]; [1; 1]]%Z toy_start).
  - reflexivity.
  - reflexivity.
  - repeat constructor.
  - simpl; lia.
  - simpl; lia.
  - discriminate.
Defined.

(** ** The errors of [cost_func] *)

(** X4: an empty batch makes [cost_func] divide the integer 0 by 0. *)
Theorem cost_func_empty_batch {NP : Numpy} {LC : LearningCircuit}
    (self : QNNClassifier LC) (theta : list R) (y_scaled : list (list Z)) (c : circ LC) :
  (cost self =? "log_loss")%string = true ->
  concat y_scaled = [] ->
  cost_func self theta [] y_scaled c
  = (Raise ZeroDivisionError, update_parameters LC theta c).
Proof.
  intros Hcost Hy. unfold cost_func. rewrite Hcost, Hy. reflexivity.
Qed.

Lemma cost_func_empty_batch_witness :
  cost_func (NP := exact_numpy) (toy_fitted "BFGS" "log_loss") [1] [] [] toy_start
  = (Raise ZeroDivisionError, update_parameters toy [1] toy_start).
Proof.
  apply (cost_func_empty_batch (NP := exact_numpy) (toy_fitted "BFGS" "log_loss") [1] []
           toy_start); reflexivity.
Defined.

Lemma idx_raise {A : Type} (l : list A) i e : idx l i = Raise e -> e = IndexError.
Proof. unfold idx. destruct (l !! i); intros H; inversion H; reflexivity. Qed.

Lemma idx_ok_lt {A : Type} (l : list A) i v : idx l i = Ok v -> (i < length l)%nat.
Proof.
  unfold idx. destruct (l !! i) eqn:E; intros H; [| discriminate].
  apply lookup_lt_Some in E. exact E.
Qed.

Lemma softmax_wa_raise {NP : Numpy} gamma row hid n e :
  softmax_wa gamma row hid n = Raise e -> e = IndexError.
Proof.
  unfold softmax_wa. intros H. apply for_raise_some in H.
  destruct H as [k [wa [_ H]]].
  destruct (idx row (hid + k)) as [v |] eqn:E; simpl in H; [discriminate |].
  inversion H; subst. apply (idx_raise _ _ _ E).
Qed.

(** The loops that fill [ypf] raise nothing but [IndexError]. *)
Lemma cost_ypf_raise {NP : Numpy} {LC : LearningCircuit} (self : QNNClassifier LC)
    y_pred e :
  cost_ypf self y_pred = Raise e -> e = IndexError.
Proof.
  unfold cost_ypf. intros H. apply for_raise_some in H.
  destruct H as [i [ypf [_ H]]].
  destruct (idx (scale_y_param self) 0) as [p0 |] eqn:E0; simpl in H;
    [| inversion H; subst; apply (idx_raise _ _ _ E0)].
  apply for_raise_some in H. destruct H as [j [ypf1 [_ H]]].
  destruct (idx (scale_y_param self) 1) as [p1 |] eqn:E1; simpl in H;
    [| inversion H; subst; apply (idx_raise _ _ _ E1)].
  destruct (idx p1 j) as [hid |] eqn:E2; simpl in H;
    [| inversion H; subst; apply (idx_raise _ _ _ E2)].
  destruct (idx p0 j) as [n |] eqn:E3; simpl in H;
    [| inversion H; subst; apply (idx_raise _ _ _ E3)].
  destruct (idx y_pred i) as [row |] eqn:E4; simpl in H;
    [| inversion H; subst; apply (idx_raise _ _ _ E4)].
  destruct (softmax_wa (y_exp_ratio self) row hid n) as [wa |] eqn:E5; simpl in H;
    [| inversion H; subst; apply (softmax_wa_raise _ _ _ _ _ E5)].
  apply for_raise_some in H. destruct H as [k [ypf2 [_ H]]].
  destruct (idx row (hid + k)) as [v |] eqn:E6; simpl in H; [discriminate |].
  inversion H; subst. apply (idx_raise _ _ _ E6).
Qed.

Lemma group_past_end sizes n :
  (n < sum_list sizes)%nat ->
  exists j, (j < length sizes)%nat /\
            (offset_of sizes j <= n < offset_of sizes j + nth j sizes 0)%nat.
Proof.
  intros Hn.
  assert (Hgen : forall m, (m <= length sizes)%nat -> (n < offset_of sizes m)%nat ->
            exists j, (j < m)%nat /\
                      (offset_of sizes j <= n < offset_of sizes j + nth j sizes 0)%nat).
  { induction m as [|m IH]; intros Hm Hlt.
    - unfold offset_of in Hlt. simpl in Hlt. lia.
    - destruct (decide (n < offset_of sizes m)%nat) as [Hless | Hge].
      + destruct (IH ltac:(lia) Hless) as [j [Hj Hjn]]. exists j. split; [lia | exact Hjn].
      + exists m. split; [lia |]. rewrite offset_of_S in Hlt by lia. lia. }
  destruct (Hgen (length sizes)) as [j [Hj Hjn]].
  - lia.
  - rewrite offset_of_all by lia. exact Hn.
  - exists j. split; assumption.
Qed.

Lemma seq_elem (n k : nat) : (k < n)%nat -> k ∈ range n.
Proof. intros H. unfold range. apply list_elem_of_In, in_seq. lia. Qed.

(** With a first row shorter than the total width of the groups, the
    loops that fill [ypf] cannot return. *)
Lemma cost_ypf_short_row {NP : Numpy} {LC : LearningCircuit} (self : QNNClassifier LC)
    sizes row y_pred ypf :
  scale_y_param self = [sizes; map (offset_of sizes) (seq 0 (S (length sizes)))] ->
  (length row < sum_list sizes)%nat ->
  cost_ypf self (row :: y_pred) = Ok ypf -> False.
Proof.
  intros Hsp Hshort H.
  assert (H0 : idx (scale_y_param self) 0 = Ok sizes) by (rewrite Hsp; reflexivity).
  assert (H1 : idx (scale_y_param self) 1
               = Ok (map (offset_of sizes) (seq 0 (S (length sizes)))))
    by (rewrite Hsp; reflexivity).
  destruct (group_past_end sizes (length row) Hshort) as [j [Hj Hjn]].
  unfold cost_ypf in H.
  destruct (for_ok_each _ _ _ _ H 0%nat) as [s1 [s2 Hi]];
    [apply seq_elem; simpl; lia |].
  rewrite H0 in Hi. cbn [bind] in Hi.
  destruct (for_ok_each _ _ _ _ Hi j (seq_elem _ _ Hj)) as [s3 [s4 Hg]].
  rewrite H1 in Hg. cbn [bind] in Hg.
  rewrite offsets_lookup in Hg by lia. cbn [bind] in Hg.
  rewrite idx_nth in Hg by assumption. cbn [bind] in Hg.
  change (idx (row :: y_pred) 0) with (Ok (A := list R) row) in Hg. cbn [bind] in Hg.
  destruct (softmax_wa (y_exp_ratio self) row (offset_of sizes j) (nth j sizes 0%nat))
    as [wa |] eqn:Ewa; [| discriminate].
  unfold softmax_wa in Ewa.
  destruct (for_ok_each _ _ _ _ Ewa (length row - offset_of sizes j)%nat) as [w1 [w2 Hk]];
    [apply seq_elem; lia |].
  replace (offset_of sizes j + (length row - offset_of sizes j))%nat with (length row)
    in Hk by lia.
  destruct (idx row (length row)) as [v |] eqn:Ev; [| discriminate].
  apply idx_ok_lt in Ev. lia.
Qed.

(** X5: a circuit with fewer qubits than the groups have levels in total
    makes [cost_func] raise [IndexError] on every non-empty batch, after
    the circuit has been run on the batch. *)
Theorem cost_func_too_few_qubits {NP : Numpy} {LC : LearningCircuit}
    (self : QNNClassifier LC) (categories_ : list (list Z)) (theta : list R)
    (x_scaled : list (list R)) (y_scaled : list (list Z)) (c : circ LC) :
  (cost self =? "log_loss")%string = true ->
  scale_y_param self = get_y_scale_param categories_ ->
  (n_qubit LC < sum_list (map length categories_))%nat ->
  x_scaled <> [] ->
  cost_func self theta x_scaled y_scaled c
  = (Raise IndexError,
     snd (_predict_inner LC x_scaled (update_parameters LC theta c))).
Proof.
  intros Hcost Hsp Hq Hx.
  rewrite get_y_scale_param_eq in Hsp.
  rewrite <- (length_map length categories_) in Hsp.
  unfold cost_func. rewrite Hcost.
  pose proof (predict_inner_rows LC x_scaled (update_parameters LC theta c)) as Hrows.
  pose proof (predict_inner_length LC x_scaled (update_parameters LC theta c)) as Hlen.
  destruct (_predict_inner LC x_scaled (update_parameters LC theta c)) as [raw c2].
  simpl in *. f_equal.
  destruct raw as [|row raw]; [destruct x_scaled; [congruence | discriminate] |].
  apply Forall_cons_1 in Hrows. destruct Hrows as [Hrow _].
  destruct (cost_ypf self (row :: raw)) as [ypf | e] eqn:E.
  - exfalso. apply (cost_ypf_short_row self _ row raw ypf Hsp); [lia | exact E].
  - apply cost_ypf_raise in E. subst e. reflexivity.
Qed.

Lemma cost_func_too_few_qubits_witness :
  cost_func (NP := exact_numpy) toy_one_model [1] [[0]] [[1; 0]]%Z toy_start
  = (Raise IndexError,
     snd (_predict_inner toy_one_qubit [[0]] (update_parameters toy_one_qubit [1] toy_start))).
Proof.
  apply (cost_func_too_few_qubits (NP := exact_numpy) toy_one_model [[0; 1]%Z] [1]
           [[0]] [[1; 0]]%Z toy_start).
  - reflexivity.
  - reflexivity.
  - simpl; lia.
  - discriminate.
Defined.

(** ** Before [fit] *)

(** X6: on a model that [fit] has not seen, [scale_y_param] is the empty
    list, and [cost_func] and [_cost_func_grad] on a non-empty batch, and
    [rev_y_scale] on any input, raise [IndexError]. *)
Theorem unfitted_raises_index_error {NP : Numpy} {LC : LearningCircuit}
    (self : QNNClassifier LC) (theta : list R)
    (x_scaled : list (list R)) (y_scaled : list (list Z)) (y_inr : list (list R))
    (c : circ LC) :
  scale_y_param self = [] ->
  (cost self =? "log_loss")%string = true ->
  x_scaled <> [] ->
  fst (cost_func self theta x_scaled y_scaled c) = Raise IndexError /\
  fst (_cost_func_grad self theta x_scaled y_scaled c) = Raise IndexError /\
  rev_y_scale self y_inr = Raise IndexError.
Proof.
  intros Hsp Hcost Hx.
  pose proof (predict_inner_length LC x_scaled (update_parameters LC theta c)) as Hlen.
  split; [| split].
  - unfold cost_func. rewrite Hcost.
    destruct (_predict_inner LC x_scaled (update_parameters LC theta c)) as [raw c2].
    simpl in *. destruct raw as [|row raw]; [destruct x_scaled; [congruence | discriminate] |].
    unfold cost_ypf. cbn [length]. rewrite for_first_raise with (e := IndexError).
    + reflexivity.
    + rewrite Hsp. reflexivity.
  - unfold _cost_func_grad.
    destruct (_predict_inner LC x_scaled (update_parameters LC theta c)) as [raw c2].
    simpl in Hlen. destruct raw as [|row raw]; [destruct x_scaled; [congruence | discriminate] |].
    destruct x_scaled as [|x xs]; [congruence |]. cbn [length].
    rewrite forM_first_raise with (e := IndexError) (c' := c2); [reflexivity |].
    unfold bindM, lift, grad_softmax. rewrite Hsp. reflexivity.
  - unfold rev_y_scale. rewrite Hsp. reflexivity.
Qed.

Lemma unfitted_raises_index_error_witness :
  fst (cost_func (NP := exact_numpy) (toy_model "BFGS" "log_loss") [1] [[0]] [[1; 0]]%Z
                 toy_start) = Raise IndexError /\
  fst (_cost_func_grad (NP := exact_numpy) (toy_model "BFGS" "log_loss") [1] [[0]]
                       [[1; 0]]%Z toy_start) = Raise IndexError /\
  rev_y_scale (toy_model "BFGS" "log_loss") [[0; 0]] = Raise IndexError.
Proof.
  apply (unfitted_raises_index_error (NP := exact_numpy) (toy_model "BFGS" "log_loss") [1]
           [[0]] [[1; 0]]%Z [[0; 0]] toy_start).
  - reflexivity.
  - reflexivity.
  - discriminate.
Defined.

(** ** The group encoding that [fit] stores *)

(** X7: [get_y_scale_param] returns the sizes of the groups and one more
    offset than there are groups: the first offset is 0, each next one
    adds the size of its group, and the last one is the total width. *)
Theorem get_y_scale_param_offsets (categories_ : list (list Z)) :
  exists syurui syurui_rui,
    get_y_scale_param categories_ = [syurui; syurui_rui] /\
    syurui = map length categories_ /\
    length syurui_rui = S (length syurui) /\
    nth 0 syurui_rui 0%nat = 0%nat /\
    (forall j, (j < length syurui)%nat ->
       nth (S j) syurui_rui 0%nat = (nth j syurui_rui 0 + nth j syurui 0)%nat) /\
    nth (length syurui) syurui_rui 0%nat = sum_list syurui.
Proof.
  exists (map length categories_),
         (map (offset_of (map length categories_)) (seq 0 (S (length categories_)))).
  split; [apply get_y_scale_param_eq |]. split; [reflexivity |].
  set (sizes := map length categories_).
  assert (HG : length sizes = length categories_) by apply length_map.
  assert (Hnth : forall j, (j <= length sizes)%nat ->
            nth j (map (offset_of sizes) (seq 0 (S (length categories_)))) 0%nat
            = offset_of sizes j).
  { intros j Hj. rewrite nth_lookup, list_lookup_fmap, lookup_seq_lt by lia. reflexivity. }
  split; [rewrite length_map, length_seq; lia |].
  split; [rewrite Hnth by lia; reflexivity |].
  split.
  - intros j Hj. rewrite !Hnth by lia. apply offset_of_S. exact Hj.
  - rewrite Hnth by lia. apply offset_of_all. lia.
Qed.

(** ** The decoder, cell by cell *)

Lemma argmax_scan_total (row : list R) hid n :
  (hid + n <= length row)%nat -> exists sa, argmax_scan row hid n = Ok sa.
Proof.
  intros Hlen. unfold argmax_scan.
  loop_invariant (fun (k : nat) (sa : R * nat) => True) as [sa [E _]].
  - exact I.
  - intros k [sai arg] Hk _. cbv beta iota. rewrite idx_rd by lia. cbn [bind].
    destruct (Rlt_dec sai (rd row (hid + k))); eexists; split; (reflexivity || exact I).
  - exists sa. exact E.
Qed.

(** On rows that cover the groups, [rev_y_scale] returns one row of
    labels per input row, one label per group, and the label is what the
    scan of the group leaves in [arg]. *)
Lemma rev_y_scale_cells {LC : LearningCircuit} (self : QNNClassifier LC)
    sizes (y_inr : list (list R)) :
  scale_y_param self = [sizes; map (offset_of sizes) (seq 0 (S (length sizes)))] ->
  Forall (fun r => (sum_list sizes <= length r)%nat) y_inr ->
  exists res, rev_y_scale self y_inr = Ok res /\
    length res = length y_inr /\
    Forall (fun row => length row = length sizes) res /\
    forall i r j, y_inr !! i = Some r -> (j < length sizes)%nat ->
      exists sai a, argmax_scan r (offset_of sizes j) (nth j sizes 0%nat) = Ok (sai, a) /\
                    cell res i j = Some a.
Proof.
  intros Hsp Hrows.
  assert (H0 : idx (scale_y_param self) 0 = Ok sizes) by (rewrite Hsp; reflexivity).
  assert (H1 : idx (scale_y_param self) 1
               = Ok (map (offset_of sizes) (seq 0 (S (length sizes)))))
    by (rewrite Hsp; reflexivity).
  pose (done := fun (i j : nat) (res : list (list nat)) =>
    forall i' j' r, (i' < i \/ (i' = i /\ j' < j))%nat -> (j' < length sizes)%nat ->
      y_inr !! i' = Some r ->
      exists sai a, argmax_scan r (offset_of sizes j') (nth j' sizes 0%nat) = Ok (sai, a) /\
                    cell res i' j' = Some a).
  pose (shape := fun (res : list (list nat)) =>
    length res = length y_inr /\ Forall (fun row => length row = length sizes) res).
  unfold rev_y_scale. rewrite H0. cbn [bind].
  loop_invariant (fun i res => shape res /\ done i 0%nat res)
    as [res [E [Hshape Hdone]]].
  - split; [split |].
    + apply length_replicate.
    + apply Forall_replicate. apply length_replicate.
    + intros i' j' r Hlt. lia.
  - intros i res Hi [Hshape Hdone]. cbv beta. rewrite ?H0. cbn [bind].
    destruct (lookup_lt_is_Some_2 y_inr i Hi) as [r Hr].
    assert (Hwide : (sum_list sizes <= length r)%nat).
    { rewrite Forall_forall in Hrows. apply Hrows, list_elem_of_lookup. eauto. }
    loop_invariant (fun j res => shape res /\ done i j res)
      as [res' [E' [Hshape' Hdone']]].
    + split; assumption.
    + intros j res1 Hj [[Hlen1 Hrows1] Hdone1]. cbv beta.
      rewrite ?H1. cbn [bind].
      rewrite offsets_lookup by lia. cbn [bind].
      rewrite idx_nth by assumption. cbn [bind].
      rewrite (idx_Some _ _ _ Hr). cbn [bind].
      pose proof (offset_of_end sizes j Hj) as Hend.
      destruct (argmax_scan_total r (offset_of sizes j) (nth j sizes 0%nat) ltac:(lia))
        as [[sai a] Ea].
      rewrite Ea. cbn [bind].
      destruct (lookup_lt_is_Some_2 res1 i ltac:(lia)) as [resi Hresi].
      rewrite (idx_Some _ _ _ Hresi). cbn [bind].
      assert (Hwidth : length resi = length sizes).
      { rewrite Forall_forall in Hrows1. apply Hrows1, list_elem_of_lookup. eauto. }
      replace (j <? length resi)%nat with true
        by (symmetry; apply Nat.ltb_lt; lia).
      eexists. split; [reflexivity |]. cbn [snd]. split; [split |].
      * rewrite length_insert. assumption.
      * apply Forall_insert; [assumption |]. rewrite length_insert. assumption.
      * intros i' j' r' Hlt Hj' Hr'.
        destruct (decide ((i', j') = (i, j))) as [Heq | Hneq].
        -- inversion Heq; subst i' j'.
           rewrite Hr in Hr'. inversion Hr'; subst r'.
           exists sai, a. split; [exact Ea | apply cell_insert_eq; [assumption | lia]].
        -- rewrite (cell_insert_ne _ _ _ _ _ _ _ Hresi Hneq).
           apply Hdone1; [| assumption | assumption].
           destruct Hlt as [Hlt | [-> Hlt]]; [left; assumption |].
           right. split; [reflexivity |].
           assert (j' <> j) by congruence. lia.
    + rewrite E'. eexists. split; [reflexivity |].
      split; [assumption |].
      intros i' j' r' Hlt Hj' Hr'. apply Hdone'; [| assumption | assumption].
      destruct Hlt as [Hlt | [_ Hlt]]; [| lia].
      destruct (decide (i' = i)) as [-> | Hni]; [right; split; [reflexivity | assumption] |].
      left. lia.
  - exists res. split; [exact E |]. destruct Hshape as [Hl Hw].
    split; [exact Hl |]. split; [exact Hw |].
    intros i r j Hr Hj. apply Hdone; [| lia | assumption].
    left. apply lookup_lt_Some in Hr. assumption.
Qed.

Lemma first_argmax_unique (r : list R) h s a b :
  first_argmax r h s a -> first_argmax r h s b -> a = b.
Proof.
  intros [Ha [Hamax Hafirst]] [Hb [Hbmax Hbfirst]].
  destruct (lt_eq_lt_dec a b) as [[Hlt | Heq] | Hgt]; [| exact Heq |].
  - specialize (Hbfirst a Hlt). specialize (Hamax b Hb). lra.
  - specialize (Hafirst b Hgt). specialize (Hbmax a Ha). lra.
Qed.

Lemma one_hot_first_argmax (r : list R) h s a :
  one_hot_at r h s a -> first_argmax r h s a.
Proof.
  intros [Ha Hbits]. split; [exact Ha |].
  assert (Hat : rd r (h + a) = 1) by (rewrite Hbits by exact Ha; rewrite Nat.eqb_refl; reflexivity).
  split.
  - intros k Hk. rewrite Hat, Hbits by exact Hk. destruct (k =? a)%nat; lra.
  - intros k Hk. rewrite Hat, Hbits by lia.
    replace (k =? a)%nat with false by (symmetry; apply Nat.eqb_neq; lia). lra.
Qed.

Lemma argmax_scan_first_argmax (row : list R) hid n sai arg a :
  (hid + n <= length row)%nat ->
  (forall k, (k < n)%nat -> -99998888 < rd row (hid + k)) ->
  first_argmax row hid n a ->
  argmax_scan row hid n = Ok (sai, arg) -> arg = a.
Proof.
  intros Hlen Hbig Ha E.
  destruct (argmax_scan_ok row hid n Hlen) as [sai' [arg' [E' Harg]]].
  - destruct Ha as [Ha _]. lia.
  - exact Hbig.
  - rewrite E in E'. inversion E'; subst. apply (first_argmax_unique _ _ _ _ _ Harg Ha).
Qed.

(** X8: [rev_y_scale] undoes the one-hot code.  It returns one row of
    labels per input row and one label per group, and wherever the
    entries of a group are the one-hot code of [a], the label is [a]. *)
Theorem rev_y_scale_one_hot {LC : LearningCircuit} (self : QNNClassifier LC)
    (categories_ : list (list Z)) (y_inr : list (list R)) :
  scale_y_param self = get_y_scale_param categories_ ->
  Forall (fun r => (sum_list (map length categories_) <= length r)%nat) y_inr ->
  exists res, rev_y_scale self y_inr = Ok res /\
    length res = length y_inr /\
    Forall (fun row => length row = length categories_) res /\
    forall i r j a, y_inr !! i = Some r -> (j < length categories_)%nat ->
      one_hot_at r (offset_of (map length categories_) j)
                 (nth j (map length categories_) 0%nat) a ->
      cell res i j = Some a.
Proof.
  intros Hsp Hrows. rewrite get_y_scale_param_eq in Hsp.
  rewrite <- (length_map length categories_) in Hsp.
  set (sizes := map length categories_) in *.
  assert (HG : length sizes = length categories_) by apply length_map.
  destruct (rev_y_scale_cells self sizes y_inr Hsp Hrows) as [res [E [Hl [Hw Hcells]]]].
  exists res. split; [exact E |]. split; [exact Hl |].
  split; [rewrite <- HG; exact Hw |].
  intros i r j a Hr Hj Hone.
  destruct (Hcells i r j Hr ltac:(lia)) as [sai [arg [Ea Hc]]].
  rewrite Hc. f_equal.
  assert (Hwide : (sum_list sizes <= length r)%nat).
  { rewrite Forall_forall in Hrows. apply Hrows, list_elem_of_lookup. eauto. }
  pose proof (offset_of_end sizes j ltac:(lia)) as Hend.
  apply (argmax_scan_first_argmax r (offset_of sizes j) (nth j sizes 0%nat) sai arg a).
  - lia.
  - intros k Hk. destruct Hone as [_ Hbits]. rewrite Hbits by exact Hk.
    destruct (k =? a)%nat; lra.
  - apply one_hot_first_argmax. exact Hone.
  - exact Ea.
Qed.

(** Groups of 2 and 3 levels: the one-hot code of the labels 1 and 2. *)
Lemma rev_y_scale_one_hot_witness :
  exists res,
    rev_y_scale (set_scale_y_param (toy_model "BFGS" "log_loss")
                                   (get_y_scale_param [[0; 1]; [0; 1; 2]]%Z))
                [[0; 1; 0; 0; 1]] = Ok res /\
    cell res 0 0 = Some 1%nat /\ cell res 0 1 = Some 2%nat.
Proof.
  destruct (rev_y_scale_one_hot
              (set_scale_y_param (toy_model "BFGS" "log_loss")
                                 (get_y_scale_param [[0; 1]; [0; 1; 2]]%Z))
              [[0; 1]; [0; 1; 2]]%Z [[0; 1; 0; 0; 1]]) as [res [E [_ [_ H]]]].
  - reflexivity.
  - repeat constructor; simpl; lia.
  - exists res. split; [exact E |]. split.
    + apply (H 0%nat [0; 1; 0; 0; 1] 0%nat 1%nat); [reflexivity | simpl; lia |].
      split; [simpl; lia |]. intros k Hk. simpl in Hk.
      destruct k as [|[|k]]; [reflexivity | reflexivity | lia].
    + apply (H 0%nat [0; 1; 0; 0; 1] 1%nat 2%nat); [reflexivity | simpl; lia |].
      split; [simpl; lia |]. intros k Hk. simpl in Hk.
      destruct k as [|[|[|k]]]; [reflexivity | reflexivity | reflexivity | lia].
Defined.

(** ** The sentinel of the decoder *)

Lemma argmax_scan_sentinel (row : list R) hid n :
  (hid + n <= length row)%nat ->
  (forall k, (k < n)%nat -> rd row (hid + k) <= -99998888) ->
  argmax_scan row hid n = Ok (-99998888, 0%nat).
Proof.
  intros Hlen Hlow. unfold argmax_scan.
  loop_invariant (fun (k : nat) (sa : R * nat) => sa = (-99998888, 0%nat))
    as [sa [E Hsa]].
  - reflexivity.
  - intros k sa Hk ->. cbv beta iota. rewrite idx_rd by lia. cbn [bind].
    specialize (Hlow k Hk).
    destruct (Rlt_dec (-99998888) (rd row (hid + k))) as [Hlt | Hge]; [lra |].
    eexists. split; reflexivity.
  - rewrite E, Hsa. reflexivity.
Qed.

(** X9: the scan starts from [sai = -99998888], not from the first entry.
    A group none of whose entries exceeds -99998888 is decoded to the
    label 0, wherever its maximum is. *)
Theorem rev_y_scale_below_sentinel {LC : LearningCircuit} (self : QNNClassifier LC)
    (categories_ : list (list Z)) (y_inr : list (list R)) :
  scale_y_param self = get_y_scale_param categories_ ->
  Forall (fun r => (sum_list (map length categories_) <= length r)%nat) y_inr ->
  exists res, rev_y_scale self y_inr = Ok res /\
    forall i r j, y_inr !! i = Some r -> (j < length categories_)%nat ->
      (forall k, (k < nth j (map length categories_) 0)%nat ->
         rd r (offset_of (map length categories_) j + k) <= -99998888) ->
      cell res i j = Some 0%nat.
Proof.
  intros Hsp Hrows. rewrite get_y_scale_param_eq in Hsp.
  rewrite <- (length_map length categories_) in Hsp.
  set (sizes := map length categories_) in *.
  assert (HG : length sizes = length categories_) by apply length_map.
  destruct (rev_y_scale_cells self sizes y_inr Hsp Hrows) as [res [E [_ [_ Hcells]]]].
  exists res. split; [exact E |].
  intros i r j Hr Hj Hlow.
  destruct (Hcells i r j Hr ltac:(lia)) as [sai [arg [Ea Hc]]].
  assert (Hwide : (sum_list sizes <= length r)%nat).
  { rewrite Forall_forall in Hrows. apply Hrows, list_elem_of_lookup. eauto. }
  pose proof (offset_of_end sizes j ltac:(lia)) as Hend.
  rewrite argmax_scan_sentinel in Ea by (lia || exact Hlow).
  inversion Ea; subst. exact Hc.
Qed.

(** The maximum of the group is its second entry; the label is 0. *)
Lemma rev_y_scale_below_sentinel_witness :
  exists res,
    rev_y_scale (toy_fitted "BFGS" "log_loss") [[-100000000; -99998888]] = Ok res /\
    cell res 0 0 = Some 0%nat /\
    rd [-100000000; -99998888] 0 < rd [-100000000; -99998888] 1.
Proof.
  destruct (rev_y_scale_below_sentinel (toy_fitted "BFGS" "log_loss") [[0; 1]%Z]
              [[-100000000; -99998888]]) as [res [E H]].
  - reflexivity.
  - repeat constructor; simpl; lia.
  - exists res. split; [exact E |]. split.
    + apply (H 0%nat [-100000000; -99998888] 0%nat); [reflexivity | simpl; lia |].
      intros k Hk. simpl in Hk. destruct k as [|[|k]]; [| | lia].
      * change (-100000000 <= -99998888). lra.
      * change (-99998888 <= -99998888). lra.
    + change (-100000000 < -99998888). lra.
Defined.

(** ** Decoding raw outputs and decoding probabilities *)

Lemma rd_grouped_softmax {NP : Numpy} gamma sizes (r : list R) j k :
  (j < length sizes)%nat -> (k < nth j sizes 0)%nat ->
  rd (grouped_softmax gamma sizes r) (offset_of sizes j + k)
  = softmax_prob gamma r (offset_of sizes j) (nth j sizes 0%nat) k.
Proof.
  intros Hj Hk. unfold rd at 1. rewrite nth_lookup, grouped_softmax_lookup by assumption.
  reflexivity.
Qed.

Lemma softmax_prob_le gamma (r : list R) h s k a :
  0 < gamma -> (0 < s)%nat -> rd r (h + k) <= rd r (h + a) ->
  softmax_prob (NP := exact_numpy) gamma r h s k
  <= softmax_prob (NP := exact_numpy) gamma r h s a.
Proof.
  intros Hg Hs Hle. unfold softmax_prob. simpl.
  assert (HS : 0 < sumf (fun k' => exp (gamma * rd r (h + k'))) s)
    by (apply sumf_pos; [intros; apply exp_pos | exact Hs]).
  apply Rmult_le_compat_r; [apply Rlt_le, Rinv_0_lt_compat, HS |].
  destruct Hle as [Hlt | Heq]; [| rewrite Heq; lra].
  apply Rlt_le, exp_increasing. nra.
Qed.

Lemma softmax_prob_lt gamma (r : list R) h s k a :
  0 < gamma -> (0 < s)%nat -> rd r (h + k) < rd r (h + a) ->
  softmax_prob (NP := exact_numpy) gamma r h s k
  < softmax_prob (NP := exact_numpy) gamma r h s a.
Proof.
  intros Hg Hs Hlt. unfold softmax_prob. simpl.
  assert (HS : 0 < sumf (fun k' => exp (gamma * rd r (h + k'))) s)
    by (apply sumf_pos; [intros; apply exp_pos | exact Hs]).
  apply Rmult_lt_compat_r; [apply Rinv_0_lt_compat, HS |].
  apply exp_increasing. nra.
Qed.

Lemma first_argmax_softmax gamma sizes (r : list R) j a :
  0 < gamma -> (j < length sizes)%nat ->
  first_argmax r (offset_of sizes j) (nth j sizes 0%nat) a ->
  first_argmax (grouped_softmax (NP := exact_numpy) gamma sizes r)
               (offset_of sizes j) (nth j sizes 0%nat) a.
Proof.
  intros Hg Hj [Ha [Hmax Hfirst]]. split; [exact Ha |]. split.
  - intros k Hk. rewrite !rd_grouped_softmax by assumption.
    apply softmax_prob_le; [exact Hg | lia | apply Hmax; exact Hk].
  - intros k Hk. rewrite !rd_grouped_softmax by (assumption || lia).
    apply softmax_prob_lt; [exact Hg | lia | apply Hfirst; exact Hk].
Qed.

Lemma matrix_eq_cells (m1 m2 : list (list nat)) n g :
  length m1 = n -> length m2 = n ->
  Forall (fun row => length row = g) m1 -> Forall (fun row => length row = g) m2 ->
  (forall i j, (i < n)%nat -> (j < g)%nat -> cell m1 i j = cell m2 i j) ->
  m1 = m2.
Proof.
  intros Hl1 Hl2 Hw1 Hw2 Hcells. apply list_eq. intros i.
  destruct (decide (i < n)%nat) as [Hi | Hi].
  - destruct (lookup_lt_is_Some_2 m1 i ltac:(lia)) as [r1 E1].
    destruct (lookup_lt_is_Some_2 m2 i ltac:(lia)) as [r2 E2].
    rewrite E1, E2. f_equal. apply list_eq. intros j.
    assert (Hr1 : length r1 = g)
      by (rewrite Forall_forall in Hw1; apply Hw1, list_elem_of_lookup; eauto).
    assert (Hr2 : length r2 = g)
      by (rewrite Forall_forall in Hw2; apply Hw2, list_elem_of_lookup; eauto).
    destruct (decide (j < g)%nat) as [Hj | Hj].
    + specialize (Hcells i j Hi Hj). unfold cell in Hcells. rewrite E1, E2 in Hcells.
      exact Hcells.
    + rewrite !lookup_ge_None_2 by lia. reflexivity.
  - rewrite !lookup_ge_None_2 by lia. reflexivity.
Qed.

(** X10: [predict] decodes the raw expectation values, not the softmax
    probabilities.  For a positive [y_exp_ratio], in exact arithmetic,
    both decode to the same labels. *)
Theorem rev_y_scale_softmax {LC : LearningCircuit} (self : QNNClassifier LC)
    (categories_ : list (list Z)) (y_inr : list (list R)) :
  scale_y_param self = get_y_scale_param categories_ ->
  Forall (fun aaa => aaa <> []) categories_ ->
  Forall (fun r => (sum_list (map length categories_) <= length r)%nat /\
                   Forall (fun v => -99998888 < v) r) y_inr ->
  0 < y_exp_ratio self ->
  exists res,
    rev_y_scale self y_inr = Ok res /\
    rev_y_scale self
      (map (grouped_softmax (NP := exact_numpy) (y_exp_ratio self)
                            (map length categories_)) y_inr) = Ok res.
Proof.
  intros Hsp Hne Hrows Hg. rewrite get_y_scale_param_eq in Hsp.
  rewrite <- (length_map length categories_) in Hsp.
  set (sizes := map length categories_) in *.
  set (gamma := y_exp_ratio self) in *.
  assert (HG : length sizes = length categories_) by apply length_map.
  assert (Hwide : Forall (fun r => (sum_list sizes <= length r)%nat) y_inr)
    by (eapply Forall_impl; [exact Hrows |]; intros r [H _]; exact H).
  assert (Hwide' : Forall (fun r => (sum_list sizes <= length r)%nat)
                          (map (grouped_softmax (NP := exact_numpy) gamma sizes) y_inr)).
  { apply Forall_map. apply Forall_forall. intros r _. simpl.
    rewrite grouped_softmax_length. lia. }
  destruct (rev_y_scale_cells self sizes y_inr Hsp Hwide) as [res [E [Hl [Hw Hcells]]]].
  destruct (rev_y_scale_cells self sizes _ Hsp Hwide') as [res' [E' [Hl' [Hw' Hcells']]]].
  exists res. split; [exact E |]. rewrite E'. f_equal.
  rewrite length_map in Hl'.
  apply (matrix_eq_cells res' res (length y_inr) (length sizes) Hl' Hl Hw' Hw).
  intros i j Hi Hj.
  destruct (lookup_lt_is_Some_2 y_inr i Hi) as [r Hr].
  assert (Hrow : (sum_list sizes <= length r)%nat /\ Forall (fun v => -99998888 < v) r).
  { rewrite Forall_forall in Hrows. apply Hrows, list_elem_of_lookup. eauto. }
  destruct Hrow as [Hrw Hbig].
  pose proof (offset_of_end sizes j Hj) as Hend.
  assert (Hs : (0 < nth j sizes 0)%nat) by (apply sizes_pos; [exact Hne | lia]).
  destruct (Hcells i r j Hr Hj) as [sai [a [Ea Hc]]].
  destruct (Hcells' i (grouped_softmax (NP := exact_numpy) gamma sizes r) j)
    as [sai' [a' [Ea' Hc']]];
    [rewrite list_lookup_fmap, Hr; reflexivity | exact Hj |].
  rewrite Hc, Hc'. f_equal.
  assert (Hbig_r : forall k, (k < nth j sizes 0)%nat ->
                     -99998888 < rd r (offset_of sizes j + k)).
  { intros k Hk. rewrite Forall_forall in Hbig. apply Hbig.
    unfold rd. rewrite nth_lookup.
    destruct (lookup_lt_is_Some_2 r (offset_of sizes j + k) ltac:(lia)) as [v Ev].
    rewrite Ev. simpl. apply list_elem_of_lookup. eauto. }
  destruct (argmax_scan_ok r (offset_of sizes j) (nth j sizes 0%nat) ltac:(lia) Hs Hbig_r)
    as [sai0 [a0 [Ea0 Hfirst]]].
  rewrite Ea in Ea0. inversion Ea0; subst sai0 a0.
  apply (argmax_scan_first_argmax (grouped_softmax (NP := exact_numpy) gamma sizes r)
           (offset_of sizes j) (nth j sizes 0%nat) sai' a' a).
  - rewrite grouped_softmax_length. lia.
  - intros k Hk. rewrite rd_grouped_softmax by assumption.
    assert (0 < softmax_prob (NP := exact_numpy) gamma r (offset_of sizes j)
                             (nth j sizes 0%nat) k)
      by (apply softmax_prob_pos; [apply exact_numpy_positive | exact Hs]).
    lra.
  - apply first_argmax_softmax; assumption.
  - exact Ea'.
Qed.

Lemma rev_y_scale_softmax_witness :
  exists res,
    rev_y_scale (toy_fitted "BFGS" "log_loss") [[0.5; -0.25]] = Ok res /\
    rev_y_scale (toy_fitted "BFGS" "log_loss")
      (map (grouped_softmax (NP := exact_numpy) 2.2 [2%nat]) [[0.5; -0.25]]) = Ok res.
Proof.
  apply (rev_y_scale_softmax (toy_fitted "BFGS" "log_loss") [[0; 1]%Z] [[0.5; -0.25]]).
  - reflexivity.
  - repeat constructor; discriminate.
  - repeat constructor; simpl; lia || lra.
  - simpl. lra.
Defined.

(** ** [predict] *)

Lemma predict_inner_entries (LC : LearningCircuit) (P : R -> Prop) x_list c :
  (forall i st, P (get_expectation_value LC i st)) ->
  Forall (Forall P) (fst (_predict_inner LC x_list c)).
Proof.
  intros HP. revert c. induction x_list as [|x xs IH]; intros c; [constructor |].
  rewrite predict_inner_cons. simpl. constructor; [| apply IH].
  apply Forall_map. apply Forall_forall. intros i _. apply HP.
Qed.

(** X11: on a fitted model whose groups fit into the qubits, [predict]
    returns one row per sample and, in it, for every group a label below
    the size of the group; it runs the circuit but leaves its parameters
    as they were. *)
Theorem predict_labels {LC : LearningCircuit}
    (transform : list (list R) -> res (list (list R))) (self : QNNClassifier LC)
    (categories_ : list (list Z)) (x_test : ndarray R) (x_scaled : list (list R))
    (c : circ LC) :
  scale_y_param self = get_y_scale_param categories_ ->
  Forall (fun aaa => aaa <> []) categories_ ->
  (sum_list (map length categories_) <= n_qubit LC)%nat ->
  (forall i st, -99998888 < get_expectation_value LC i st) ->
  (if do_x_scale self then transform (as_2d x_test) else Ok (as_2d x_test)) = Ok x_scaled ->
  exists res c',
    predict transform self x_test c = (Ok res, c') /\
    length res = length x_scaled /\
    (forall i j, (i < length x_scaled)%nat -> (j < length categories_)%nat ->
       exists a, cell res i j = Some a /\ (a < nth j (map length categories_) 0)%nat) /\
    (LawfulCircuit LC -> get_parameters LC c' = get_parameters LC c).
Proof.
  intros Hsp Hne Hq Hbig Hscale. rewrite get_y_scale_param_eq in Hsp.
  rewrite <- (length_map length categories_) in Hsp.
  set (sizes := map length categories_) in *.
  assert (HG : length sizes = length categories_) by apply length_map.
  pose proof (predict_inner_rows LC x_scaled c) as Hrows.
  pose proof (predict_inner_length LC x_scaled c) as Hlen.
  pose proof (predict_inner_entries LC (fun v => -99998888 < v) x_scaled c Hbig) as Hent.
  pose proof (predict_inner_parameters LC x_scaled c) as Hpar.
  assert (Hrun : predict transform self x_test c
                 = (rev_y_scale self (fst (_predict_inner LC x_scaled c)),
                    snd (_predict_inner LC x_scaled c))).
  { unfold predict, bindM, lift, ret.
    destruct (do_x_scale self); rewrite ?Hscale; [| inversion Hscale; subst x_scaled];
      destruct (_predict_inner LC _ c) as [y_pred c']; reflexivity. }
  destruct (_predict_inner LC x_scaled c) as [raw c']. simpl in *.
  assert (Hwide : Forall (fun r => (sum_list sizes <= length r)%nat) raw)
    by (eapply Forall_impl; [exact Hrows |]; intros r Hr; simpl in Hr; lia).
  destruct (rev_y_scale_cells self sizes raw Hsp Hwide) as [res [E [Hl [Hw Hcells]]]].
  exists res, c'. rewrite Hrun, E.
  split; [reflexivity |]. split; [lia |]. split; [| exact Hpar].
  intros i j Hi Hj.
  destruct (lookup_lt_is_Some_2 raw i ltac:(lia)) as [r Hr].
  destruct (Hcells i r j Hr ltac:(lia)) as [sai [a [Ea Hc]]].
  exists a. split; [exact Hc |].
  assert (Hrw : (sum_list sizes <= length r)%nat)
    by (rewrite Forall_forall in Hwide; apply Hwide, list_elem_of_lookup; eauto).
  assert (Hrb : Forall (fun v => -99998888 < v) r)
    by (rewrite Forall_forall in Hent; apply Hent, list_elem_of_lookup; eauto).
  pose proof (offset_of_end sizes j ltac:(lia)) as Hend.
  destruct (argmax_scan_ok r (offset_of sizes j) (nth j sizes 0%nat))
    as [sai0 [a0 [Ea0 [Ha0 _]]]].
  - lia.
  - apply sizes_pos; [exact Hne | lia].
  - intros k Hk. rewrite Forall_forall in Hrb. apply Hrb.
    unfold rd. rewrite nth_lookup.
    destruct (lookup_lt_is_Some_2 r (offset_of sizes j + k) ltac:(lia)) as [v Ev].
    rewrite Ev. simpl. apply list_elem_of_lookup. eauto.
  - rewrite Ea in Ea0. inversion Ea0; subst. exact Ha0.
Qed.

Lemma predict_labels_witness :
  exists res c',
    predict (toy_fit_transform 1) (toy_fitted "BFGS" "log_loss") (Arr1 [0; 1; 2]) toy_start
    = (Ok res, c') /\
    length res = 3%nat /\
    (exists a, cell res 2 0 = Some a /\ (a < 2)%nat) /\
    get_parameters toy c' = get_parameters toy toy_start.
Proof.
  destruct (predict_labels (toy_fit_transform 1) (toy_fitted "BFGS" "log_loss") [[0; 1]%Z]
              (Arr1 [0; 1; 2]) [[0]; [1]; [2]] toy_start)
    as [res [c' [E [Hl [Hcell Hpar]]]]].
  - reflexivity.
  - repeat constructor; discriminate.
  - simpl; lia.
  - intros i st. change (-99998888 < 0). lra.
  - reflexivity.
  - exists res, c'. split; [exact E |]. split; [exact Hl |]. split.
    + apply (Hcell 2%nat 0%nat); simpl; lia.
    + apply Hpar, toy_lawful.
Defined.

(** ** The configuration errors of [fit] *)

Lemma string_eqb_false (a b : string) : a <> b -> (a =? b)%string = false.
Proof. intros H. apply String.eqb_neq. exact H. Qed.

(** X12: once the targets are encoded and the features scaled, [fit] with a
    solver other than "Nelder-Mead", "BFGS" and "Adam" raises
    [NotImplementedError], and with "Adam" and no [maxiter] it raises
    [TypeError]; in both cases the circuit has only been read. *)
Theorem fit_configuration_errors {NP : Numpy} {LC : LearningCircuit}
    (fit_transform : R -> list (list R) -> res (list (list R)))
    (minimize : (list R -> M LC R) -> option (list R -> M LC (list R)) ->
                list R -> string -> option Z -> M LC (R * list R))
    (self : QNNClassifier LC) (x_train : ndarray R) (y_train : ndarray Z)
    (maxiter : option Z) (categories_ : list (list Z)) (x_scaled : list (list R))
    (c : circ LC) :
  enc_categories (as_2d y_train) = Ok categories_ ->
  (if do_x_scale self then fit_transform (x_norm_range self) (as_2d x_train)
   else Ok (as_2d x_train)) = Ok x_scaled ->
  (solver self <> "Nelder-Mead"%string -> solver self <> "BFGS"%string ->
   solver self <> "Adam"%string ->
   fit fit_transform minimize self x_train y_train maxiter c
   = (Raise NotImplementedError, c)) /\
  (solver self = "Adam"%string ->
   fit fit_transform minimize self x_train y_train None c = (Raise TypeError, c)).
Proof.
  intros Henc Hscale.
  split.
  - intros H1 H2 H3. unfold fit.
    change (solver (set_scale_y_param self (get_y_scale_param _))) with (solver self).
    change (do_x_scale (set_scale_y_param self (get_y_scale_param _)))
      with (do_x_scale self).
    change (x_norm_range (set_scale_y_param self (get_y_scale_param _)))
      with (x_norm_range self).
    unfold bindM, lift, ret. rewrite Henc.
    rewrite (string_eqb_false _ _ H1), (string_eqb_false _ _ H2), (string_eqb_false _ _ H3).
    destruct (do_x_scale self); [rewrite Hscale | inversion Hscale; subst x_scaled];
      reflexivity.
  - intros HA. unfold fit.
    change (solver (set_scale_y_param self (get_y_scale_param _))) with (solver self).
    change (do_x_scale (set_scale_y_param self (get_y_scale_param _)))
      with (do_x_scale self).
    change (x_norm_range (set_scale_y_param self (get_y_scale_param _)))
      with (x_norm_range self).
    unfold bindM, lift, ret. rewrite Henc, HA. cbn [String.eqb Ascii.eqb Bool.eqb].
    destruct (do_x_scale self); [rewrite Hscale | inversion Hscale; subst x_scaled];
      reflexivity.
Qed.

Lemma fit_configuration_errors_witness :
  fit (NP := exact_numpy) toy_fit_transform toy_minimize (toy_model "SGD" "log_loss")
      (Arr2 [[0]; [1]]) (Arr1 [0; 1]%Z) (Some 1%Z) toy_start
  = (Raise NotImplementedError, toy_start) /\
  fit (NP := exact_numpy) toy_fit_transform toy_minimize (toy_model "Adam" "log_loss")
      (Arr2 [[0]; [1]]) (Arr1 [0; 1]%Z) None toy_start
  = (Raise TypeError, toy_start).
Proof.
  split.
  - apply (fit_configuration_errors (NP := exact_numpy) toy_fit_transform toy_minimize
             (toy_model "SGD" "log_loss") (Arr2 [[0]; [1]]) (Arr1 [0; 1]%Z) (Some 1%Z)
             [[0; 1]%Z] [[0]; [1]] toy_start eq_refl eq_refl); discriminate.
  - apply (fit_configuration_errors (NP := exact_numpy) toy_fit_transform toy_minimize
             (toy_model "Adam" "log_loss") (Arr2 [[0]; [1]]) (Arr1 [0; 1]%Z) None
             [[0; 1]%Z] [[0]; [1]] toy_start eq_refl eq_refl). reflexivity.
Defined.

(** ** [fit] with the Adam driver: no step, and the circuit at the end *)

Lemma range_by5_nonpos (stop : Z) : (stop <= 0)%Z -> range_by5 stop = [].
Proof.
  intros H. unfold range_by5.
  assert ((stop + 4) / 5 < 1)%Z by (apply Z.div_lt_upper_bound; lia).
  replace (Z.to_nat ((stop + 4) / 5)) with 0%nat by lia. reflexivity.
Qed.

(** X13: with the solver "Adam" and a budget [maxiter * N] that is not
    positive, [fit] makes no step: it returns the parameters it read from
    the circuit, with the cost that [cost_func] gives them on the
    training data as passed in. *)
Theorem fit_adam_no_step {NP : Numpy} {LC : LearningCircuit}
    (fit_transform : R -> list (list R) -> res (list (list R)))
    (minimize : (list R -> M LC R) -> option (list R -> M LC (list R)) ->
                list R -> string -> option Z -> M LC (R * list R))
    (self : QNNClassifier LC) (x_train : ndarray R) (y_train : ndarray Z)
    (maxiter : Z) (categories_ : list (list Z)) (x_scaled : list (list R))
    (c : circ LC) :
  solver self = "Adam"%string ->
  enc_categories (as_2d y_train) = Ok categories_ ->
  (if do_x_scale self then fit_transform (x_norm_range self) (as_2d x_train)
   else Ok (as_2d x_train)) = Ok x_scaled ->
  (maxiter * Z.of_nat (length (as_2d x_train)) <= 0)%Z ->
  fit fit_transform minimize self x_train y_train (Some maxiter) c
  = match cost_func (set_scale_y_param self (get_y_scale_param categories_))
                    (get_parameters LC c) (as_2d x_train) (as_2d y_train) c with
    | (Ok loss, c') => (Ok (loss, get_parameters LC c), c')
    | (Raise e, c') => (Raise e, c')
    end.
Proof.
  intros HA Henc Hscale Hbudget. unfold fit.
  change (solver (set_scale_y_param self (get_y_scale_param _))) with (solver self).
  change (do_x_scale (set_scale_y_param self (get_y_scale_param _)))
    with (do_x_scale self).
  change (x_norm_range (set_scale_y_param self (get_y_scale_param _)))
    with (x_norm_range self).
  unfold bindM, lift, ret. rewrite Henc, HA. cbn [String.eqb Ascii.eqb Bool.eqb].
  unfold adam_loop. rewrite (range_by5_nonpos _ Hbudget). cbn [forM_]. unfold ret.
  destruct (do_x_scale self); [rewrite Hscale | inversion Hscale; subst x_scaled];
    cbn [theta_now adam_init]; reflexivity.
Qed.

Lemma fit_adam_no_step_witness :
  fit (NP := exact_numpy) toy_fit_transform toy_minimize (toy_model "Adam" "log_loss")
      (Arr2 [[0]; [1]]) (Arr1 [0; 1]%Z) (Some 0%Z) toy_start
  = match cost_func (NP := exact_numpy)
                    (set_scale_y_param (toy_model "Adam" "log_loss")
                                       (get_y_scale_param [[0; 1]%Z]))
                    [1] [[0]; [1]] [[0]; [1]]%Z toy_start with
    | (Ok loss, c') => (Ok (loss, [1]), c')
    | (Raise e, c') => (Raise e, c')
    end.
Proof.
  apply (fit_adam_no_step (NP := exact_numpy) toy_fit_transform toy_minimize
           (toy_model "Adam" "log_loss") (Arr2 [[0]; [1]]) (Arr1 [0; 1]%Z) 0
           [[0; 1]%Z] [[0]; [1]] toy_start).
  - reflexivity.
  - reflexivity.
  - reflexivity.
  - simpl. lia.
Defined.

Lemma cost_func_sets_parameters {NP : Numpy} {LC : LearningCircuit}
    (self : QNNClassifier LC) theta x_scaled y_scaled c v c' :
  LawfulCircuit LC ->
  cost_func self theta x_scaled y_scaled c = (Ok v, c') ->
  get_parameters LC c' = theta.
Proof.
  intros Hlaw. unfold cost_func.
  destruct (cost self =? "log_loss")%string.
  - pose proof (predict_inner_parameters LC x_scaled (update_parameters LC theta c) Hlaw)
      as Hp.
    destruct (_predict_inner LC x_scaled (update_parameters LC theta c)) as [y_pred c2].
    simpl in Hp. intros H. inversion H; subst c'.
    rewrite Hp. apply (get_update LC Hlaw).
  - unfold lift. intros H. inversion H.
Qed.

(** X14: when [fit] with the solver "Adam" returns, the circuit holds the
    parameters that [fit] returns. *)
Theorem fit_adam_circuit_parameters {NP : Numpy} {LC : LearningCircuit}
    (fit_transform : R -> list (list R) -> res (list (list R)))
    (minimize : (list R -> M LC R) -> option (list R -> M LC (list R)) ->
                list R -> string -> option Z -> M LC (R * list R))
    (self : QNNClassifier LC) (x_train : ndarray R) (y_train : ndarray Z)
    (maxiter : option Z) (c c' : circ LC) (loss : R) (theta_opt : list R) :
  LawfulCircuit LC ->
  solver self = "Adam"%string ->
  fit fit_transform minimize self x_train y_train maxiter c = (Ok (loss, theta_opt), c') ->
  get_parameters LC c' = theta_opt.
Proof.
  intros Hlaw HA. unfold fit.
  change (solver (set_scale_y_param self (get_y_scale_param _))) with (solver self).
  rewrite HA. cbn [String.eqb Ascii.eqb Bool.eqb].
  unfold bindM, lift, ret.
  destruct (enc_categories (as_2d y_train)) as [cats |]; [| discriminate].
  match goal with |- context [if ?b then _ else _] => destruct b end.
  - destruct (fit_transform _ _) as [xs |]; [| discriminate].
    destruct maxiter as [m |]; [| discriminate].
    destruct (adam_loop _ _ _ _ _ _ _ c) as [[s | e] c1]; [| discriminate].
    destruct (cost_func _ (theta_now s) _ _ c1) as [[v | e] c2] eqn:Ecost; [| discriminate].
    intros H. inversion H; subst.
    apply (cost_func_sets_parameters _ _ _ _ _ _ _ Hlaw Ecost).
  - destruct maxiter as [m |]; [| discriminate].
    destruct (adam_loop _ _ _ _ _ _ _ c) as [[s | e] c1]; [| discriminate].
    destruct (cost_func _ (theta_now s) _ _ c1) as [[v | e] c2] eqn:Ecost; [| discriminate].
    intros H. inversion H; subst.
    apply (cost_func_sets_parameters _ _ _ _ _ _ _ Hlaw Ecost).
Qed.

Lemma fit_adam_circuit_parameters_witness :
  exists loss theta_opt c',
    fit (NP := exact_numpy) toy_fit_transform toy_minimize (toy_model "Adam" "log_loss")
        (Arr2 [[0]; [1]]) (Arr1 [0; 1]%Z) (Some 1%Z) toy_start
    = (Ok (loss, theta_opt), c') /\
    get_parameters toy c' = theta_opt.
Proof.
  destruct (fit (NP := exact_numpy) toy_fit_transform toy_minimize
              (toy_model "Adam" "log_loss") (Arr2 [[0]; [1]]) (Arr1 [0; 1]%Z)
              (Some 1%Z) toy_start) as [[[loss theta_opt] | e] c'] eqn:E.
  - exists loss, theta_opt, c'. split; [reflexivity |].
    apply (fit_adam_circuit_parameters (NP := exact_numpy) toy_fit_transform
             toy_minimize (toy_model "Adam" "log_loss") (Arr2 [[0]; [1]])
             (Arr1 [0; 1]%Z) (Some 1%Z) toy_start c' loss theta_opt
             toy_lawful eq_refl E).
  - cbn in E. discriminate E.
Defined.

(** ** The Adam driver over a whole run *)

Lemma vop_inplace_length op (u v w : list R) :
  vop_inplace op u v = Ok w -> length w = length u.
Proof.
  unfold vop_inplace. destruct (length u =? length v)%nat eqn:E.
  - apply Nat.eqb_eq in E. intros H. inversion H; subst.
    rewrite length_zip_with. lia.
  - destruct v as [|b [|b' v]]; try discriminate.
    intros H. inversion H; subst. apply length_map.
Qed.

Lemma dot_self_nonneg (g : list R) : 0 <= dot g g.
Proof.
  unfold dot. induction g as [|a g IH]; simpl; [lra |]. nra.
Qed.

Lemma adam_update_scalars (s s' : adam_state) (grad : list R) :
  adam_update s grad = Ok s' ->
  Bix s' = Bix s * pr_Bi + (1 - pr_Bi) /\
  Btx s' = Btx s * pr_Bt + (1 - pr_Bt) /\
  vel s' = vel s * pr_Bt + (1 - pr_Bt) * dot grad grad /\
  length (theta_now s') = length (theta_now s).
Proof.
  unfold adam_update.
  destruct (vop Rplus _ _) as [moment' |]; [| discriminate]. cbn [bind].
  destruct (vop_inplace Rminus _ _) as [theta' |] eqn:E; [| discriminate]. cbn [bind].
  intros H. inversion H; subst. cbn [Bix Btx vel theta_now].
  repeat split. apply (vop_inplace_length _ _ _ _ E).
Qed.

Lemma adam_step_updates {NP : Numpy} {LC : LearningCircuit}
    (self : QNNClassifier LC) x_train y_train x_scaled y_scaled iter s c s' c' :
  adam_step self x_train y_train x_scaled y_scaled iter s c = (Ok s', c') ->
  exists grad, adam_update s grad = Ok s'.
Proof.
  unfold adam_step, bindM, lift, ret.
  destruct (adam_batch _ _ _ _ _) as [xy |]; [| discriminate].
  destruct (_cost_func_grad _ _ _ _ c) as [[grad | e] c1]; [| discriminate].
  destruct (adam_update s grad) as [s1 |] eqn:E; [| discriminate].
  destruct (callback self) as [cb |].
  - destruct (cb (theta_now s1) c1) as [[u | e] c2]; [| discriminate].
    intros H. inversion H; subst. eauto.
  - intros H. inversion H; subst. eauto.
Qed.

Lemma pow_unit (a : R) (n : nat) : 0 < a < 1 -> (0 < n)%nat -> 0 < a ^ n < 1.
Proof.
  intros Ha Hn. destruct n as [|n]; [lia |]. clear Hn.
  induction n as [|n IH]; [simpl; lra |].
  change (a ^ S (S n)) with (a * a ^ S n). nra.
Qed.

(** X15: when the Adam loop returns, after [n] steps, one for every fifth
    index below [maxiter * N], the two bias corrections are [1 - 0.8^n]
    and [1 - 0.995^n] (strictly between 0 and 1 once a step was made), the
    velocity is not negative and the parameter vector has kept its
    length. *)
Theorem adam_loop_bias_corrections {NP : Numpy} {LC : LearningCircuit}
    (self : QNNClassifier LC) (x_train : list (list R)) (y_train : list (list Z))
    (x_scaled : list (list R)) (y_scaled : list (list Z)) (maxiter : Z)
    (theta_init : list R) (c c' : circ LC) (s : adam_state) :
  adam_loop self x_train y_train x_scaled y_scaled maxiter theta_init c = (Ok s, c') ->
  let n := Z.to_nat ((maxiter * Z.of_nat (length x_train) + 4) / 5) in
  Bix s = 1 - 0.8 ^ n /\ Btx s = 1 - 0.995 ^ n /\
  ((0 < n)%nat -> 0 < Bix s < 1 /\ 0 < Btx s < 1) /\
  0 <= vel s /\
  length (theta_now s) = length theta_init.
Proof.
  intros Hrun n. unfold adam_loop in Hrun.
  pose (I := fun (k : nat) (st : adam_state) =>
    Bix st = 1 - 0.8 ^ k /\ Btx st = 1 - 0.995 ^ k /\ 0 <= vel st /\
    length (theta_now st) = length theta_init).
  assert (HI : I (0 + length (range_by5 (maxiter * Z.of_nat (length x_train))))%nat s).
  { apply (forM_ok_invariant I (adam_step self x_train y_train x_scaled y_scaled)
             (range_by5 (maxiter * Z.of_nat (length x_train))) 0%nat
             (adam_init theta_init) c s c'); [| | exact Hrun].
    - unfold I, adam_init. cbn [Bix Btx vel theta_now]. simpl. repeat split; lra.
    - intros i a st c0 st' c0' [HB [HT [Hv Hl]]] Hstep.
      destruct (adam_step_updates _ _ _ _ _ _ _ _ _ _ Hstep) as [grad Hup].
      destruct (adam_update_scalars _ _ _ Hup) as [HB' [HT' [Hv' Hl']]].
      unfold I. rewrite HB', HT', Hv', Hl', HB, HT. unfold pr_Bi, pr_Bt.
      pose proof (dot_self_nonneg grad).
      change (0.8 ^ S i) with (0.8 * 0.8 ^ i).
      change (0.995 ^ S i) with (0.995 * 0.995 ^ i).
      repeat split; try lra; assumption. }
  rewrite range_by5_length in HI. simpl in HI. fold n in HI.
  destruct HI as [HB [HT [Hv Hl]]].
  repeat split; try assumption; rewrite ?HB, ?HT.
  - pose proof (pow_unit 0.8 n ltac:(lra) H). lra.
  - pose proof (pow_unit 0.8 n ltac:(lra) H). lra.
  - pose proof (pow_unit 0.995 n ltac:(lra) H). lra.
  - pose proof (pow_unit 0.995 n ltac:(lra) H). lra.
Qed.

Lemma adam_loop_bias_corrections_witness :
  exists s c',
    adam_loop (NP := exact_numpy) (toy_fitted "Adam" "log_loss") [[0]; [1]] [[0]; [1]]%Z
              [[0]; [1]] [[1; 0]; [0; 1]]%Z 1 [1] toy_start = (Ok s, c') /\
    Bix s = 1 - 0.8 ^ 1 /\ Btx s = 1 - 0.995 ^ 1 /\ length (theta_now s) = 1%nat.
Proof.
  destruct (adam_loop (NP := exact_numpy) (toy_fitted "Adam" "log_loss") [[0]; [1]]
              [[0]; [1]]%Z [[0]; [1]] [[1; 0]; [0; 1]]%Z 1 [1] toy_start)
    as [[s | e] c'] eqn:E.
  - exists s, c'. split; [reflexivity |].
    destruct (adam_loop_bias_corrections (NP := exact_numpy)
                (toy_fitted "Adam" "log_loss") [[0]; [1]] [[0]; [1]]%Z
                [[0]; [1]] [[1; 0]; [0; 1]]%Z 1 [1] toy_start c' s E)
      as [HB [HT [_ [_ Hl]]]].
    split; [exact HB |]. split; [exact HT | exact Hl].
  - cbn in E. discriminate E.
Defined.

(** ** The first step of the Adam driver *)

Lemma rd_zeros n i : rd (zeros n) i = 0.
Proof.
  unfold rd, zeros. rewrite nth_lookup.
  destruct (replicate n 0 !! i) as [v |] eqn:E; [| reflexivity].
  apply lookup_replicate in E. destruct E as [-> _]. reflexivity.
Qed.

Lemma abs_le_norm (g : list R) i : Rabs (rd g i) <= sqrt (dot g g).
Proof.
  destruct (Nat.lt_ge_cases i (length g)) as [Hi | Hi].
  - rewrite <- sqrt_Rsqr_abs. apply sqrt_le_1_alt. unfold Rsqr.
    rewrite dot_squared_norm.
    apply (sumf_ge_term (fun k => rd g k * rd g k)); [| exact Hi].
    intros k. nra.
  - unfold rd. rewrite nth_overflow by lia. rewrite Rabs_R0. apply sqrt_pos.
Qed.

(** X16: from the initial state, one update with a gradient of the length of
    the parameter vector is a step along the normalised gradient: every
    parameter moves by [0.02 * grad[i] / (|grad| + 1e-7)], so by less than
    0.02, whatever the size of the gradient. *)
Theorem adam_first_step_normalised (theta grad : list R) :
  length grad = length theta ->
  exists s',
    adam_update (adam_init theta) grad = Ok s' /\
    forall i, (i < length theta)%nat ->
      rd (theta_now s') i
      = rd theta i - 0.02 * rd grad i / (sqrt (dot grad grad) + 0.0000001) /\
      Rabs (rd (theta_now s') i - rd theta i) < 0.02.
Proof.
  intros Hlen.
  assert (Hm : length (moment (adam_init theta)) = length grad).
  { unfold adam_init, zeros. cbn [moment]. rewrite length_replicate. lia. }
  assert (Ht : length (theta_now (adam_init theta)) = length grad).
  { cbn [adam_init theta_now]. lia. }
  eexists. split; [apply (adam_update_ok _ _ Hm Ht) |].
  cbn [theta_now adam_init moment vel Bix Btx].
  intros i Hi.
  pose proof (sqrt_pos (dot grad grad)) as Hsq.
  assert (Hstep : rd (zip_with Rminus theta
      (map (fun m => pr_A / (sqrt ((0 * pr_Bt + (1 - pr_Bt) * dot grad grad)
                                    / (0 * pr_Bt + (1 - pr_Bt))) + pr_ips) * m)
         (vdiv (zip_with Rplus (map (fun m => m * pr_Bi) (zeros (length theta)))
                  (map (fun g => (1 - pr_Bi) * g) grad))
               (0 * pr_Bi + (1 - pr_Bi))))) i
    = rd theta i - 0.02 * rd grad i / (sqrt (dot grad grad) + 0.0000001)).
  { assert (Hz : length (zeros (length theta)) = length theta)
      by apply length_replicate.
    rewrite rd_zip_with
      by (unfold vdiv; rewrite ?length_map, ?length_zip_with, ?length_map; lia).
    rewrite rd_map
      by (unfold vdiv; rewrite ?length_map, ?length_zip_with, ?length_map; lia).
    unfold vdiv. rewrite rd_map by (rewrite ?length_zip_with, ?length_map; lia).
    rewrite rd_zip_with by (rewrite length_map; lia).
    rewrite !rd_map by lia. rewrite rd_zeros.
    unfold pr_A, pr_Bi, pr_Bt, pr_ips.
    replace ((0 * 0.995 + (1 - 0.995) * dot grad grad) / (0 * 0.995 + (1 - 0.995)))
      with (dot grad grad) by (field; lra).
    field. lra. }
  split; [exact Hstep |].
  rewrite Hstep.
  replace (rd theta i - 0.02 * rd grad i / (sqrt (dot grad grad) + 0.0000001) - rd theta i)
    with (- (0.02 * (rd grad i / (sqrt (dot grad grad) + 0.0000001))))
    by (field; lra).
  rewrite Rabs_Ropp, Rabs_mult, (Rabs_pos_eq 0.02) by lra.
  unfold Rdiv. rewrite Rabs_mult.
  rewrite (Rabs_pos_eq (/ _)) by (left; apply Rinv_0_lt_compat; lra).
  pose proof (abs_le_norm grad i) as Hle.
  assert (Hq : Rabs (rd grad i) * / (sqrt (dot grad grad) + 0.0000001) < 1).
  { apply (Rmult_lt_reg_r (sqrt (dot grad grad) + 0.0000001)); [lra |].
    rewrite Rmult_assoc, Rinv_l by lra. lra. }
  lra.
Qed.

Lemma adam_first_step_normalised_witness :
  exists s',
    adam_update (adam_init [1; 2]) [3; 4] = Ok s' /\
    forall i, (i < 2)%nat ->
      rd (theta_now s') i
      = rd [1; 2] i - 0.02 * rd [3; 4] i / (sqrt (dot [3; 4] [3; 4]) + 0.0000001) /\
      Rabs (rd (theta_now s') i - rd [1; 2] i) < 0.02.
Proof. apply (adam_first_step_normalised [1; 2] [3; 4]). reflexivity. Defined.

(** ** Filling an array cell by cell *)

Lemma mat_set_row (kar : list (list R)) i j v row :
  kar !! i = Some row -> (j < length row)%nat ->
  mat_set kar i j v = Ok (<[i := <[j := v]> row]> kar).
Proof.
  intros Hrow Hj. unfold mat_set. rewrite (idx_Some _ _ _ Hrow). cbn [bind].
  replace (j <? length row)%nat with true by (symmetry; apply Nat.ltb_lt; exact Hj).
  reflexivity.
Qed.

Lemma fill_row {A : Type} (cols : list A) (h : A -> R)
    (body : nat -> list (list R) -> res (list (list R))) i kar row :
  kar !! i = Some row -> length row = length cols ->
  (forall j cj kar', cols !! j = Some cj -> body j kar' = mat_set kar' i j (h cj)) ->
  for_ (range (length cols)) body kar = Ok (<[i := map h cols]> kar).
Proof.
  intros Hrow Hlen Hbody.
  assert (Hi : (i < length kar)%nat) by (apply lookup_lt_is_Some; eauto).
  destruct (for_range_inv
              (fun k s => s = <[i := map h (take k cols) ++ drop k row]> kar)
              body (length cols) kar) as [s' [E Hs]].
  - simpl. rewrite drop_0. symmetry. apply list_insert_id, Hrow.
  - intros k s Hk ->.
    destruct (lookup_lt_is_Some_2 cols k Hk) as [ck Eck].
    destruct (lookup_lt_is_Some_2 row k ltac:(lia)) as [rk Erk].
    rewrite (Hbody k ck _ Eck).
    assert (Hlk : length (map h (take k cols)) = k)
      by (rewrite length_map, length_take; lia).
    rewrite (mat_set_row _ i k (h ck) (map h (take k cols) ++ drop k row)).
    + eexists. split; [reflexivity |].
      rewrite list_insert_insert_eq. f_equal.
      rewrite (take_S_r _ _ _ Eck), map_app, <- app_assoc. cbn [map app].
      rewrite (drop_S _ _ _ Erk).
      replace k with (length (map h (take k cols)) + 0)%nat at 1 by lia.
      rewrite insert_app_r. reflexivity.
    + apply list_lookup_insert_eq. exact Hi.
    + rewrite length_app, length_drop. lia.
  - rewrite E. rewrite Hs. rewrite firstn_all, <- Hlen, drop_all, app_nil_r.
    reflexivity.
Qed.

Lemma fill_matrix {A : Type} (rows : list A) (m : nat) (g : A -> list R)
    (obody : nat -> list (list R) -> res (list (list R))) :
  (forall i a kar row, rows !! i = Some a -> kar !! i = Some row -> length row = m ->
                       obody i kar = Ok (<[i := g a]> kar)) ->
  for_ (range (length rows)) obody (replicate (length rows) (replicate m 0))
  = Ok (map g rows).
Proof.
  intros Hbody.
  destruct (for_range_inv
              (fun k s => s = map g (take k rows)
                              ++ replicate (length rows - k) (replicate m 0))
              obody (length rows) (replicate (length rows) (replicate m 0)))
    as [s' [E Hs]].
  - simpl. rewrite Nat.sub_0_r. reflexivity.
  - intros k s Hk ->.
    destruct (lookup_lt_is_Some_2 rows k Hk) as [a Ea].
    assert (Hlk : length (map g (take k rows)) = k)
      by (rewrite length_map, length_take; lia).
    assert (Hrest : replicate (length rows - k) (replicate m 0)
                    = replicate m 0 :: replicate (length rows - S k) (replicate m 0)).
    { replace (length rows - k)%nat with (S (length rows - S k)) by lia. reflexivity. }
    rewrite (Hbody k a _ (replicate m 0) Ea).
    + eexists. split; [reflexivity |].
      rewrite Hrest.
      replace k with (length (map g (take k rows)) + 0)%nat at 1 by lia.
      rewrite insert_app_r. cbn [insert list_insert].
      rewrite (take_S_r _ _ _ Ea), map_app, <- app_assoc. reflexivity.
    + rewrite Hrest.
      replace k with (length (map g (take k rows)) + 0)%nat at 1 by lia.
      rewrite lookup_app_r by lia.
      replace (length (map g (take k rows)) + 0 - length (map g (take k rows)))%nat
        with 0%nat by lia.
      reflexivity.
    + apply length_replicate.
  - rewrite E, Hs, firstn_all, Nat.sub_diag, app_nil_r. reflexivity.
Qed.

(** ** [QSVR] *)

Section QSVRFacts.

Context (KB : KernelBackend).

Lemma qsvr_append_states_ok (x : list (list R)) n_qubit t (ds : list (kstate KB)) :
  qsvr_append_states KB x n_qubit t ds
  = Ok (ds ++ map (fun xi => get_qvec KB xi n_qubit t) x).
Proof.
  unfold qsvr_append_states.
  destruct (for_range_inv
              (fun k s => s = ds ++ map (fun xi => get_qvec KB xi n_qubit t) (take k x))
              (fun i ds0 => let* xi := idx x i in Ok (ds0 ++ [get_qvec KB xi n_qubit t]))
              (length x) ds) as [s' [E Hs]].
  - simpl. rewrite app_nil_r. reflexivity.
  - intros k s Hk ->. destruct (lookup_lt_is_Some_2 x k Hk) as [xk Ek].
    rewrite (idx_Some _ _ _ Ek). cbn [bind]. eexists. split; [reflexivity |].
    rewrite (take_S_r _ _ _ Ek), map_app, app_assoc. reflexivity.
  - rewrite E, Hs, firstn_all. reflexivity.
Qed.

Lemma qsvr_fit_kernel_ok (n : nat) (ds : list (kstate KB)) :
  (n <= length ds)%nat ->
  qsvr_fit_kernel KB n ds = Ok (gram KB (take n ds) (take n ds)).
Proof.
  intros Hn. unfold qsvr_fit_kernel, gram.
  assert (Hl : length (take n ds) = n) by (rewrite length_take; lia).
  pose proof (fill_matrix (take n ds) n
    (fun a => map (fun b => abs_sq (inner_product KB a b)) (take n ds))
    (fun i kar =>
       for_ (range n)
         (fun j kar =>
            let* si := idx ds i in
            let* sj := idx ds j in
            mat_set kar i j (abs_sq (inner_product KB si sj)))
         kar)) as HF.
  rewrite Hl in HF. apply HF. clear HF.
  intros i a kar row Ea Hrow Hlen.
  apply lookup_take_Some in Ea. destruct Ea as [Ea Hi].
  pose proof (fill_row (take n ds) (fun b => abs_sq (inner_product KB a b))
    (fun j kar =>
       let* si := idx ds i in
       let* sj := idx ds j in
       mat_set kar i j (abs_sq (inner_product KB si sj)))
    i kar row Hrow) as HR.
  rewrite Hl in HR. apply HR; [exact Hlen |].
  intros j cj kar' Ej. apply lookup_take_Some in Ej. destruct Ej as [Ej Hj].
  rewrite (idx_Some _ _ _ Ea), (idx_Some _ _ _ Ej). reflexivity.
Qed.

Lemma qsvr_predict_kernel_ok (xs : list (list R)) (self : QSVR KB) :
  qsvr_predict_kernel KB xs self
  = Ok (gram KB (map (fun xi => get_qvec KB xi (qsvr_n_qubit self) (tlotstep self)) xs)
             (data_states self)).
Proof.
  unfold qsvr_predict_kernel, gram. rewrite map_map.
  apply (fill_matrix xs (length (data_states self))
           (fun xi => map (fun b => abs_sq (inner_product KB
                         (get_qvec KB xi (qsvr_n_qubit self) (tlotstep self)) b))
                      (data_states self))).
  intros i xi kar row Ei Hrow Hlen.
  rewrite (idx_Some _ _ _ Ei). cbn [bind].
  apply (fill_row (data_states self)
           (fun b => abs_sq (inner_product KB
                       (get_qvec KB xi (qsvr_n_qubit self) (tlotstep self)) b))
           _ i kar row Hrow Hlen).
  intros j cj kar' Ej. rewrite (idx_Some _ _ _ Ej). reflexivity.
Qed.

End QSVRFacts.

Lemma qsvr_fit_eq (KB : KernelBackend) (x : list (list R)) (y : list R)
    (self : QSVR KB) (x0 : list R) :
  x !! 0%nat = Some x0 ->
  let ds := data_states self
            ++ map (fun xi => get_qvec KB xi (length x0) (tlotstep self)) x in
  let first := take (length x) ds in
  qsvr_fit KB x y self
  = match svr_fit KB (gram KB first first) y (regr self) with
    | Ok regr' =>
        (Ok tt, {| regr := regr'; data_states := ds;
                   qsvr_n_qubit := length x0; tlotstep := tlotstep self |})
    | Raise e =>
        (Raise e, {| regr := regr self; data_states := ds;
                     qsvr_n_qubit := length x0; tlotstep := tlotstep self |})
    end.
Proof.
  intros Hx0 ds first. unfold qsvr_fit.
  rewrite (idx_Some _ _ _ Hx0), qsvr_append_states_ok.
  fold ds. rewrite qsvr_fit_kernel_ok.
  - fold first. destruct (svr_fit KB (gram KB first first) y (regr self)); reflexivity.
  - unfold ds. rewrite length_app, length_map. lia.
Qed.

(** X17: on a fresh object (no stored state) and a non-empty [x], [fit]
    stores one state per sample, prepared on [len(x[0])] qubits, and
    hands the regressor the matrix of [abs(<s_i|s_j>) ** 2] over these
    states; [n_qubit] becomes [len(x[0])]. *)
Theorem qsvr_fit_fresh (KB : KernelBackend) (x : list (list R)) (y : list R)
    (self : QSVR KB) (x0 : list R) :
  data_states self = [] ->
  x !! 0%nat = Some x0 ->
  let states := map (fun xi => get_qvec KB xi (length x0) (tlotstep self)) x in
  qsvr_fit KB x y self
  = match svr_fit KB (gram KB states states) y (regr self) with
    | Ok regr' =>
        (Ok tt, {| regr := regr'; data_states := states;
                   qsvr_n_qubit := length x0; tlotstep := tlotstep self |})
    | Raise e =>
        (Raise e, {| regr := regr self; data_states := states;
                     qsvr_n_qubit := length x0; tlotstep := tlotstep self |})
    end.
Proof.
  intros Hfresh Hx0 states. rewrite (qsvr_fit_eq KB x y self x0 Hx0).
  rewrite Hfresh. cbn [app]. fold states.
  rewrite take_ge by (unfold states; rewrite length_map; lia).
  reflexivity.
Qed.

Lemma qsvr_fit_fresh_witness :
  qsvr_fit toy_kernel [[1; 0]; [0; 1]] [1; 2] (qsvr_init toy_kernel ([], []) 4)
  = match svr_fit toy_kernel
            (gram toy_kernel [[1; 0]; [0; 1]] [[1; 0]; [0; 1]]) [1; 2] ([], []) with
    | Ok regr' =>
        (Ok tt, Build_QSVR toy_kernel regr' [[1; 0]; [0; 1]] 2 4)
    | Raise e =>
        (Raise e, Build_QSVR toy_kernel ([], []) [[1; 0]; [0; 1]] 2 4)
    end.
Proof.
  apply (qsvr_fit_fresh toy_kernel [[1; 0]; [0; 1]] [1; 2]
           (qsvr_init toy_kernel ([], []) 4) [1; 0]); reflexivity.
Defined.

(** X18: [fit] appends to the stored states and never clears them.  On an
    object that already holds at least [len(x)] states, the kernel handed
    to the regressor is the one of the first [len(x)] stored states: it
    does not depend on the entries of the new [x], whose states are only
    added behind the old ones. *)
Theorem qsvr_refit_stale_states (KB : KernelBackend) (x : list (list R)) (y : list R)
    (self : QSVR KB) (x0 : list R) :
  (length x <= length (data_states self))%nat ->
  x !! 0%nat = Some x0 ->
  let old := take (length x) (data_states self) in
  fst (qsvr_fit KB x y self)
  = match svr_fit KB (gram KB old old) y (regr self) with
    | Ok _ => Ok tt
    | Raise e => Raise e
    end /\
  data_states (snd (qsvr_fit KB x y self))
  = data_states self ++ map (fun xi => get_qvec KB xi (length x0) (tlotstep self)) x.
Proof.
  intros Hlen Hx0 old. rewrite (qsvr_fit_eq KB x y self x0 Hx0).
  rewrite take_app_le by exact Hlen. fold old.
  destruct (svr_fit KB (gram KB old old) y (regr self)); split; reflexivity.
Qed.

Lemma qsvr_refit_stale_states_witness :
  fst (qsvr_fit toy_kernel [[5; 5]] [7]
         (Build_QSVR toy_kernel ([], []) [[1; 0]; [0; 1]] 2 4))
  = match svr_fit toy_kernel (gram toy_kernel [[1; 0]] [[1; 0]]) [7] ([], []) with
    | Ok _ => Ok tt
    | Raise e => Raise e
    end /\
  data_states (snd (qsvr_fit toy_kernel [[5; 5]] [7]
         (Build_QSVR toy_kernel ([], []) [[1; 0]; [0; 1]] 2 4)))
  = [[1; 0]; [0; 1]] ++ [[5; 5]].
Proof.
  apply (qsvr_refit_stale_states toy_kernel [[5; 5]] [7]
           (Build_QSVR toy_kernel ([], []) [[1; 0]; [0; 1]] 2 4) [5; 5]).
  - simpl. lia.
  - reflexivity.
Defined.

(** X19: [predict] hands the regressor the matrix with one row per test
    sample and one column per stored state, the entry being
    [abs(<x_i|s_j>) ** 2] for the state of the test sample prepared with
    the stored [n_qubit]; it raises only if the regressor does. *)
Theorem qsvr_predict_gram (KB : KernelBackend) (xs : list (list R)) (self : QSVR KB) :
  qsvr_predict KB xs self
  = svr_predict KB
      (gram KB (map (fun xi => get_qvec KB xi (qsvr_n_qubit self) (tlotstep self)) xs)
            (data_states self))
      (regr self).
Proof.
  unfold qsvr_predict. rewrite qsvr_predict_kernel_ok. reflexivity.
Qed.

(** ** [preprocess_x] *)

Lemma py_clip_bounds (v : R) : -1 <= py_min 1 (py_max (-1) v) <= 1.
Proof.
  unfold py_min, py_max.
  destruct (Rlt_dec (-1) v); destruct (Rlt_dec _ 1); lra.
Qed.

(** X20: on a non-empty [x], [preprocess_x] reads the entry
    [xa = x[index % len(x)]] and clips it to [-1, 1]: it returns 1 when
    [xa > 1], -1 when [xa < -1] and [xa] itself otherwise, so the result
    always lies in [-1, 1]. *)
Theorem preprocess_x_clips (x : list R) (index : nat) :
  x <> [] ->
  let xa := rd x (index mod length x) in
  exists v,
    preprocess_x x index = Ok v /\
    (1 < xa -> v = 1) /\
    (xa < -1 -> v = -1) /\
    (-1 <= xa <= 1 -> v = xa) /\
    -1 <= v <= 1.
Proof.
  intros Hx xa. unfold preprocess_x, pymod.
  assert (Hl : (0 < length x)%nat) by (destruct x; [congruence | simpl; lia]).
  replace (length x =? 0)%nat with false by (symmetry; apply Nat.eqb_neq; lia).
  cbn [bind].
  rewrite idx_rd by (apply Nat.mod_upper_bound; lia). cbn [bind]. fold xa.
  eexists. split; [reflexivity |].
  unfold py_min, py_max.
  destruct (Rlt_dec (-1) xa); destruct (Rlt_dec _ 1); repeat split; intros; lra.
Qed.

(** The entry 3 is clipped to 1, the entry 0.5 is returned as it is. *)
Lemma preprocess_x_clips_witness :
  preprocess_x [3; 0.5] 2 = Ok 1 /\ preprocess_x [3; 0.5] 1 = Ok 0.5.
Proof.
  split.
  - destruct (preprocess_x_clips [3; 0.5] 2 ltac:(discriminate))
      as [v [E [Hhigh _]]].
    rewrite E. f_equal. apply Hhigh. simpl. unfold rd. simpl. lra.
  - destruct (preprocess_x_clips [3; 0.5] 1 ltac:(discriminate))
      as [v [E [_ [_ [Hin _]]]]].
    rewrite E. f_equal. apply Hin. simpl. unfold rd. simpl. lra.
Defined.

(** ** The steps and the batches of the Adam driver *)

Lemma forM_ext {LC : LearningCircuit} {A St : Type} (f g : A -> St -> M LC St)
    (l : list A) :
  (forall a s c, a ∈ l -> f a s c = g a s c) ->
  forall s c, forM_ LC l f s c = forM_ LC l g s c.
Proof.
  induction l as [|a l IH]; intros H s c; [reflexivity |].
  simpl. unfold bindM. rewrite (H a s c) by (apply elem_of_cons; left; reflexivity).
  destruct (g a s c) as [[s1 | e] c1]; [| reflexivity].
  apply IH. intros b s2 c2 Hb. apply H. apply elem_of_cons. right. exact Hb.
Qed.

Lemma steps_by5 (n : nat) :
  map (fun i => (5 * i)%nat) (seq 0 ((n + 4) / 5))
  = List.filter (fun i => (i mod 5 =? 0)%nat) (seq 0 n).
Proof.
  induction n as [|n IH]; [reflexivity |].
  rewrite seq_S, List.filter_app. change (0 + n)%nat with n. cbn [List.filter].
  rewrite <- IH.
  destruct (n mod 5 =? 0)%nat eqn:E.
  - apply Nat.eqb_eq in E.
    assert (H1 : ((S n + 4) / 5 = S ((n + 4) / 5))%nat).
    { pose proof (Nat.div_mod_eq n 5). pose proof (Nat.div_mod_eq (n + 4) 5).
      pose proof (Nat.div_mod_eq (S n + 4) 5).
      pose proof (Nat.mod_upper_bound (n + 4) 5 ltac:(lia)).
      pose proof (Nat.mod_upper_bound (S n + 4) 5 ltac:(lia)). lia. }
    assert (H2 : (5 * ((n + 4) / 5) = n)%nat).
    { pose proof (Nat.div_mod_eq n 5). pose proof (Nat.div_mod_eq (n + 4) 5).
      pose proof (Nat.mod_upper_bound (n + 4) 5 ltac:(lia)). lia. }
    rewrite H1, seq_S, map_app. change (0 + (n + 4) / 5)%nat with ((n + 4) / 5)%nat.
    cbn [map]. rewrite H2. reflexivity.
  - apply Nat.eqb_neq in E.
    assert (H1 : ((S n + 4) / 5 = (n + 4) / 5)%nat).
    { pose proof (Nat.div_mod_eq n 5). pose proof (Nat.div_mod_eq (n + 4) 5).
      pose proof (Nat.div_mod_eq (S n + 4) 5).
      pose proof (Nat.mod_upper_bound n 5 ltac:(lia)).
      pose proof (Nat.mod_upper_bound (n + 4) 5 ltac:(lia)).
      pose proof (Nat.mod_upper_bound (S n + 4) 5 ltac:(lia)). lia. }
    rewrite H1, app_nil_r. reflexivity.
Qed.

(** [range(0, stop, 5)] lists the multiples of 5 below [stop]. *)
Lemma range_by5_steps (stop : Z) : range_by5 stop = adam_steps stop.
Proof.
  unfold range_by5, adam_steps. rewrite <- steps_by5. f_equal. f_equal.
  destruct (Z_lt_le_dec stop 0) as [Hneg | Hpos].
  - assert ((stop + 4) / 5 <= 0)%Z.
    { assert ((stop + 4) / 5 < 1)%Z by (apply Z.div_lt_upper_bound; lia). lia. }
    replace (Z.to_nat stop) with 0%nat by lia.
    replace (Z.to_nat ((stop + 4) / 5)) with 0%nat by lia. reflexivity.
  - rewrite Z2Nat.inj_div by lia.
    replace (Z.to_nat (stop + 4)) with (Z.to_nat stop + 4)%nat by lia.
    reflexivity.
Qed.

Lemma window_take_drop {A : Type} (l : list A) :
  forall n a, (a + n <= length l)%nat ->
    omap (fun q => l !! q) (seq a n) = take n (drop a l).
Proof.
  induction n as [|n IH]; intros a Ha; [reflexivity |].
  destruct (lookup_lt_is_Some_2 l a ltac:(lia)) as [x Ex].
  cbn [seq omap list_omap]. rewrite Ex, (drop_S _ _ _ Ex). cbn [take].
  f_equal. apply IH. lia.
Qed.

(** The Python slice [data[start : start + 5]] is the window. *)
Lemma slice_window {A : Type} (data : list A) (start : nat) :
  slice data start 5 = batch_window data start.
Proof.
  unfold slice, batch_window.
  destruct (le_lt_dec start (length data)) as [Hs | Hs].
  - rewrite window_take_drop by lia.
    destruct (le_lt_dec 5 (length data - start)) as [H | H].
    + rewrite Nat.min_l by exact H. reflexivity.
    + rewrite Nat.min_r by lia.
      rewrite !take_ge by (rewrite length_drop; lia). reflexivity.
  - replace (length data - start)%nat with 0%nat by lia.
    rewrite drop_ge by lia. reflexivity.
Qed.

Lemma batch_window_length {A : Type} (data : list A) (start : nat) :
  length (batch_window data start) = (5 `min` (length data - start))%nat.
Proof. rewrite <- slice_window. apply slice_length. Qed.

Lemma batch_window_lookup {A : Type} (data : list A) (start q : nat) :
  (q < 5)%nat -> batch_window data start !! q = data !! (start + q)%nat.
Proof. intros Hq. rewrite <- slice_window. apply slice_lookup. exact Hq. Qed.

Lemma adam_steps_spec (budget : Z) (iter : nat) :
  iter ∈ adam_steps budget
  <-> (exists i, iter = (5 * i)%nat) /\ (Z.of_nat iter < budget)%Z.
Proof. rewrite <- range_by5_steps. apply range_by5_spec. Qed.

Lemma adam_step_window {NP : Numpy} {LC : LearningCircuit} (self : QNNClassifier LC)
    (x_train : list (list R)) (y_train : list (list Z))
    (x_scaled : list (list R)) (y_scaled : list (list Z)) iter s c :
  (1 <= length x_train)%nat -> length y_train = length x_train ->
  adam_step self x_train y_train x_scaled y_scaled iter s c
  = adam_step_on self (batch_window x_scaled (iter mod length x_train))
                 (batch_window y_scaled (iter mod length x_train)) s c.
Proof.
  intros HN Hy. unfold adam_step, adam_step_on, adam_batch, pymod, bindM, lift, ret.
  rewrite Hy.
  replace (length x_train =? 0)%nat with false by (symmetry; apply Nat.eqb_neq; lia).
  cbn [bind fst snd]. rewrite !slice_window. reflexivity.
Qed.

(** C5, as stated, fails.  With 7 samples and [maxiter = 1] the driver
    makes the two steps 0 and 5.  The batch of step 5 is the slice
    [x_scaled[5:10]], which holds the 2 samples at 5 and 6 and does not
    wrap around to the start: over the whole loop the circuit is run, and
    differentiated, 5 + 2 = 7 times, not on 2 batches of 5 samples. *)
Lemma adam_loop_batch_not_wrapped :
  range_by5 (1 * 7) = [0; 5]%nat /\
  adam_batch seven_x seven_y seven_x seven_y_scaled 5
  = Ok ([[5]; [6]], [[0; 1]; [0; 1]]%Z) /\
  exists s c',
    adam_loop (NP := exact_numpy) (toy_fitted "Adam" "log_loss")
              seven_x seven_y seven_x seven_y_scaled 1 [1] toy_start = (Ok s, c') /\
    toy_runs c' = 7%nat /\ toy_backprops c' = 7%nat.
Proof.
  split; [reflexivity |]. split; [reflexivity |].
  destruct (adam_loop (NP := exact_numpy) (toy_fitted "Adam" "log_loss")
              seven_x seven_y seven_x seven_y_scaled 1 [1] toy_start)
    as [[s | e] c'] eqn:E.
  - exists s, c'. split; [reflexivity |].
    cbn in E. inversion E; subst. split; reflexivity.
  - cbn in E. discriminate E.
Qed.

Lemma adam_loop_windowed {NP : Numpy} {LC : LearningCircuit}
    (self : QNNClassifier LC) (x_train : list (list R)) (y_train : list (list Z))
    (x_scaled : list (list R)) (y_scaled : list (list Z)) (maxiter : Z)
    (theta_init : list R) (c : circ LC) :
  length y_train = length x_train ->
  adam_loop self x_train y_train x_scaled y_scaled maxiter theta_init c
  = adam_windowed_loop self x_scaled y_scaled (length x_train) maxiter theta_init c.
Proof.
  intros Hy. unfold adam_loop, adam_windowed_loop. rewrite range_by5_steps.
  apply forM_ext. intros iter s c0 Hin.
  apply adam_steps_spec in Hin. destruct Hin as [_ Hlt].
  assert (HN : (1 <= length x_train)%nat).
  { destruct (length x_train); [| lia]. simpl in Hlt. lia. }
  apply adam_step_window; assumption.
Qed.

(** C5, amended.  For every training-set size [N] and every [maxiter],
    the driver makes one step for every multiple of 5 below
    [maxiter * N], in increasing order, and the gradient of step [iter] is
    computed over the window of the scaled training set that starts at
    [iter mod N] and is cut at the end of the training set: the samples
    [start, ..., min(start + 5, N) - 1], between 1 and 5 of them.  The
    window does not wrap.  [fit] with the solver "Adam" is this loop,
    started at the parameters of the circuit, followed by the final
    [cost_func]. *)
Theorem adam_loop_steps_and_batches {NP : Numpy} {LC : LearningCircuit}
    (self : QNNClassifier LC) (x_train : list (list R)) (y_train : list (list Z))
    (x_scaled : list (list R)) (y_scaled : list (list Z)) (maxiter : Z)
    (theta_init : list R) (c : circ LC) :
  length y_train = length x_train ->
  length x_scaled = length x_train ->
  length y_scaled = length x_train ->
  let N := length x_train in
  adam_loop self x_train y_train x_scaled y_scaled maxiter theta_init c
  = adam_windowed_loop self x_scaled y_scaled N maxiter theta_init c /\
  (forall iter,
     iter ∈ adam_steps (maxiter * Z.of_nat N) <->
     (exists i, iter = (5 * i)%nat) /\ (Z.of_nat iter < maxiter * Z.of_nat N)%Z) /\
  (forall start, (start < N)%nat ->
     length (batch_window x_scaled start) = (5 `min` (N - start))%nat /\
     length (batch_window y_scaled start) = (5 `min` (N - start))%nat /\
     (1 <= 5 `min` (N - start) <= 5)%nat /\
     forall q, (q < 5 `min` (N - start))%nat ->
       batch_window x_scaled start !! q = x_scaled !! (start + q)%nat /\
       batch_window y_scaled start !! q = y_scaled !! (start + q)%nat) /\
  forall fit_transform minimize (self0 : QNNClassifier LC)
         (x : ndarray R) (y : ndarray Z) categories_ c0,
    solver self0 = "Adam"%string ->
    self = set_scale_y_param self0 (get_y_scale_param categories_) ->
    as_2d x = x_train -> as_2d y = y_train ->
    enc_categories y_train = Ok categories_ ->
    y_scaled = enc_transform categories_ y_train ->
    (if do_x_scale self0 then fit_transform (x_norm_range self0) x_train
     else Ok x_train) = Ok x_scaled ->
    fit fit_transform minimize self0 x y (Some maxiter) c0
    = bindM LC (adam_windowed_loop self x_scaled y_scaled N maxiter (get_parameters LC c0))
        (fun s =>
           bindM LC (cost_func self (theta_now s) x_train y_train)
             (fun loss => ret LC (loss, theta_now s))) c0.
Proof.
  intros Hy Hxs Hys N. split; [| split; [| split]].
  - apply adam_loop_windowed. exact Hy.
  - intros iter. apply adam_steps_spec.
  - intros start Hstart. rewrite !batch_window_length, Hxs, Hys. fold N.
    split; [reflexivity |]. split; [reflexivity |]. split; [lia |].
    intros q Hq. split; apply batch_window_lookup; lia.
  - intros fit_transform minimize self0 x y categories_ c0 HA Hself Hx Hyy Henc Hysc Hscale.
    unfold fit. rewrite Hx, Hyy.
    change (solver (set_scale_y_param self0 (get_y_scale_param _))) with (solver self0).
    change (do_x_scale (set_scale_y_param self0 (get_y_scale_param _)))
      with (do_x_scale self0).
    change (x_norm_range (set_scale_y_param self0 (get_y_scale_param _)))
      with (x_norm_range self0).
    unfold bindM at 1 2 3, lift, ret. rewrite Henc, HA.
    cbn [String.eqb Ascii.eqb Bool.eqb]. rewrite <- Hself, <- Hysc.
    assert (Hloop : forall k : adam_state -> M LC (R * list R),
              bindM LC (adam_loop self x_train y_train x_scaled y_scaled maxiter
                                  (get_parameters LC c0)) k c0
              = bindM LC (adam_windowed_loop self x_scaled y_scaled N maxiter
                                             (get_parameters LC c0)) k c0).
    { intros k. unfold bindM. rewrite (adam_loop_windowed _ _ _ _ _ _ _ _ Hy).
      reflexivity. }
    destruct (do_x_scale self0).
    + rewrite Hscale. apply Hloop.
    + inversion Hscale; subst x_scaled. apply Hloop.
Qed.

(** Seven samples and [maxiter = 1]: the window that starts at 5 holds
    2 samples, and [fit] runs the loop over the windows. *)
Lemma adam_loop_steps_and_batches_witness :
  adam_loop (NP := exact_numpy) (toy_fitted "Adam" "log_loss")
            seven_x seven_y seven_x seven_y_scaled 1 [1] toy_start
  = adam_windowed_loop (NP := exact_numpy) (toy_fitted "Adam" "log_loss")
                       seven_x seven_y_scaled 7 1 [1] toy_start /\
  length (batch_window seven_x 5) = 2%nat /\
  fit (NP := exact_numpy) toy_fit_transform toy_minimize (toy_model "Adam" "log_loss")
      (Arr2 seven_x) (Arr2 seven_y) (Some 1%Z) toy_start
  = bindM toy (adam_windowed_loop (NP := exact_numpy) (toy_fitted "Adam" "log_loss")
                                  seven_x seven_y_scaled 7 1 [1])
      (fun s =>
         bindM toy (cost_func (NP := exact_numpy) (toy_fitted "Adam" "log_loss")
                              (theta_now s) seven_x seven_y)
           (fun loss => ret toy (loss, theta_now s))) toy_start.
Proof.
  destruct (adam_loop_steps_and_batches (NP := exact_numpy)
              (toy_fitted "Adam" "log_loss") seven_x seven_y seven_x seven_y_scaled
              1 [1] toy_start eq_refl eq_refl eq_refl) as [H1 [_ [H3 H4]]].
  split; [exact H1 |]. split.
  - destruct (H3 5%nat ltac:(simpl; lia)) as [Hl _]. exact Hl.
  - apply (H4 toy_fit_transform toy_minimize (toy_model "Adam" "log_loss")
              (Arr2 seven_x) (Arr2 seven_y) [[0; 1]%Z] toy_start);
      reflexivity.
Defined.

(** ** The loops of [cost_func] on [float64] *)

Lemma idx_frd (r : list float64) i : (i < length r)%nat -> idx r i = Ok (frd r i).
Proof.
  intros Hi. destruct (lookup_lt_is_Some_2 r i Hi) as [v E].
  unfold frd. rewrite nth_lookup, E. simpl. apply idx_Some, E.
Qed.

Lemma f64_softmax_wa_ok gamma row hid n :
  (hid + n <= length row)%nat ->
  F64.softmax_wa gamma row hid n
  = Ok (f64_sum (fun k => fexp (rnd (gamma * rd row (hid + k)))) n).
Proof.
  intros Hlen. unfold F64.softmax_wa.
  loop_invariant
    (fun k wa => wa = f64_sum (fun k => fexp (rnd (gamma * rd row (hid + k)))) k)
    as [wa [E Hwa]].
  - reflexivity.
  - intros k s Hk ->. rewrite idx_rd by lia. simpl. eauto.
  - rewrite E, Hwa. reflexivity.
Qed.

Lemma f64_cost_ypf_group gamma row hid n wa (ypf : list float64) :
  (hid + n <= length row)%nat ->
  for_ (range n)
       (fun k ypf => let* v := idx row (hid + k) in
                     Ok (ypf ++ [fdiv (fexp (rnd (gamma * v))) wa])) ypf
  = Ok (ypf ++ map (fun k => fdiv (fexp (rnd (gamma * rd row (hid + k)))) wa) (seq 0 n)).
Proof.
  intros Hlen.
  loop_invariant
    (fun k (acc : list float64) =>
       acc = ypf ++ map (fun k => fdiv (fexp (rnd (gamma * rd row (hid + k)))) wa)
                        (seq 0 k))
    as [acc [E Hacc]].
  - simpl. rewrite app_nil_r. reflexivity.
  - intros k s Hk ->. rewrite idx_rd by lia. eexists. split; [reflexivity |].
    cbv beta. rewrite seq_S, map_app, app_assoc. reflexivity.
  - rewrite E, Hacc. reflexivity.
Qed.

Lemma f64_cost_ypf_row {LC : LearningCircuit} (self : QNNClassifier LC)
    sizes y_pred i row (ypf : list float64) :
  scale_y_param self = [sizes; map (offset_of sizes) (seq 0 (S (length sizes)))] ->
  y_pred !! i = Some row ->
  (sum_list sizes <= length row)%nat ->
  for_ (range (length sizes))
    (fun j ypf =>
       let* p1 := idx (scale_y_param self) 1 in
       let* hid := idx p1 j in
       let* n := idx sizes j in
       let* row := idx y_pred i in
       let* wa := F64.softmax_wa (y_exp_ratio self) row hid n in
       for_ (range n)
         (fun k ypf =>
            let* v := idx row (hid + k) in
            Ok (ypf ++ [fdiv (fexp (rnd (y_exp_ratio self * v))) wa]))
         ypf)
    ypf
  = Ok (ypf ++ f64_grouped_softmax (y_exp_ratio self) sizes row).
Proof.
  intros Hsp Hrow Hlen.
  set (gs := fun m => flat_map
     (fun j => map (f64_softmax_prob (y_exp_ratio self) row (offset_of sizes j)
                                     (nth j sizes 0%nat))
                   (seq 0 (nth j sizes 0%nat))) (seq 0 m)).
  loop_invariant (fun j (acc : list float64) => acc = ypf ++ gs j) as [acc [E Hacc]].
  - unfold gs. simpl. rewrite app_nil_r. reflexivity.
  - intros j s Hj ->.
    assert (H1 : idx (scale_y_param self) 1
                 = Ok (map (offset_of sizes) (seq 0 (S (length sizes)))))
      by (rewrite Hsp; reflexivity).
    rewrite H1. cbn [bind].
    rewrite offsets_lookup by lia. cbn [bind].
    rewrite idx_nth by assumption. cbn [bind].
    rewrite (idx_Some _ _ _ Hrow). cbn [bind].
    pose proof (offset_of_end sizes j Hj) as Hend.
    rewrite f64_softmax_wa_ok by lia. cbn [bind].
    rewrite f64_cost_ypf_group by lia.
    eexists. split; [reflexivity |].
    unfold gs. cbv beta. rewrite seq_S, flat_map_app. simpl. rewrite app_nil_r, app_assoc.
    reflexivity.
  - rewrite E, Hacc. reflexivity.
Qed.

Lemma f64_cost_ypf_ok {LC : LearningCircuit} (self : QNNClassifier LC) sizes y_pred :
  scale_y_param self = [sizes; map (offset_of sizes) (seq 0 (S (length sizes)))] ->
  Forall (fun row => (sum_list sizes <= length row)%nat) y_pred ->
  F64.cost_ypf self y_pred
  = Ok (flat_map (f64_grouped_softmax (y_exp_ratio self) sizes) y_pred).
Proof.
  intros Hsp Hrows. unfold F64.cost_ypf.
  loop_invariant
    (fun i (acc : list float64) =>
       acc = flat_map (f64_grouped_softmax (y_exp_ratio self) sizes) (take i y_pred))
    as [acc [E Hacc]].
  - reflexivity.
  - intros i s Hi ->.
    destruct (lookup_lt_is_Some_2 y_pred i Hi) as [row Hrow].
    assert (H0 : idx (scale_y_param self) 0 = Ok sizes) by (rewrite Hsp; reflexivity).
    cbv beta. rewrite H0. cbn [bind].
    rewrite (f64_cost_ypf_row self sizes y_pred i row _ Hsp Hrow).
    + eexists. split; [reflexivity |].
      rewrite (take_S_r _ _ _ Hrow), flat_map_app. simpl. rewrite app_nil_r.
      reflexivity.
    + rewrite Forall_forall in Hrows. apply Hrows.
      apply list_elem_of_lookup. eauto.
  - rewrite E, Hacc, firstn_all. reflexivity.
Qed.

Lemma f64_grouped_softmax_prefix_length gamma sizes r m :
  (m <= length sizes)%nat ->
  length (flat_map (fun j => map (f64_softmax_prob gamma r (offset_of sizes j)
                                                   (nth j sizes 0%nat))
                                 (seq 0 (nth j sizes 0%nat)))
                   (seq 0 m)) = offset_of sizes m.
Proof.
  induction m as [|m IH]; intros Hm; [reflexivity |].
  rewrite seq_S, flat_map_app, length_app, IH by lia. simpl.
  rewrite app_nil_r, length_map, length_seq, offset_of_S by lia. reflexivity.
Qed.

Lemma f64_grouped_softmax_length gamma sizes r :
  length (f64_grouped_softmax gamma sizes r) = sum_list sizes.
Proof.
  unfold f64_grouped_softmax. rewrite f64_grouped_softmax_prefix_length by lia.
  apply offset_of_all. lia.
Qed.

Lemma f64_grouped_softmax_lookup gamma sizes r j k :
  (j < length sizes)%nat -> (k < nth j sizes 0)%nat ->
  f64_grouped_softmax gamma sizes r !! (offset_of sizes j + k)%nat
  = Some (f64_softmax_prob gamma r (offset_of sizes j) (nth j sizes 0%nat) k).
Proof.
  intros Hj Hk. unfold f64_grouped_softmax.
  set (F := fun j => map (f64_softmax_prob gamma r (offset_of sizes j) (nth j sizes 0%nat))
                         (seq 0 (nth j sizes 0%nat))).
  assert (Hgen : forall m, (j < m <= length sizes)%nat ->
            flat_map F (seq 0 m) !! (offset_of sizes j + k)%nat
            = Some (f64_softmax_prob gamma r (offset_of sizes j) (nth j sizes 0%nat) k)).
  { induction m as [|m IH]; intros Hm; [lia |].
    rewrite seq_S, flat_map_app. simpl. rewrite app_nil_r.
    destruct (decide (j = m)) as [-> | Hne].
    - rewrite lookup_app_r
        by (unfold F; rewrite f64_grouped_softmax_prefix_length by lia; lia).
      unfold F at 1. rewrite f64_grouped_softmax_prefix_length by lia.
      replace (offset_of sizes m + k - offset_of sizes m)%nat with k by lia.
      unfold F. rewrite list_lookup_fmap, lookup_seq_lt by assumption. reflexivity.
    - rewrite lookup_app_l.
      + apply IH. lia.
      + unfold F. rewrite f64_grouped_softmax_prefix_length by lia.
        pose proof (offset_of_mono sizes (S j) m ltac:(lia)) as Hmono.
        rewrite offset_of_S in Hmono by lia. lia. }
  apply Hgen. lia.
Qed.

Lemma f64_hot_args_S ypf ysf n :
  f64_hot_args ypf ysf (S n) =
  f64_hot_args ypf ysf n ++ (if (nth n ysf 0%Z =? 1)%Z then [frd ypf n] else []).
Proof.
  unfold f64_hot_args. rewrite seq_S, flat_map_app. simpl. rewrite app_nil_r. reflexivity.
Qed.

Lemma f64_neg_log_sum_snoc args p :
  f64_neg_log_sum (args ++ [p]) = fsub (f64_neg_log_sum args) (flog p).
Proof. unfold f64_neg_log_sum. rewrite fold_left_app. reflexivity. Qed.

Lemma f64_cost_sum_ok ypf ysf :
  (length ysf <= length ypf)%nat -> ysf <> [] ->
  F64.cost_sum ypf ysf
  = Ok (fdiv (f64_neg_log_sum (f64_hot_args ypf ysf (length ysf)))
             (Fin (INR (length ysf)))).
Proof.
  intros Hlen Hne. unfold F64.cost_sum.
  loop_invariant (fun i cost => cost = f64_neg_log_sum (f64_hot_args ypf ysf i))
    as [cost [E Hcost]].
  - reflexivity.
  - intros i s Hi ->. cbv beta. rewrite idx_nthZ by assumption. cbn [bind].
    rewrite f64_hot_args_S.
    destruct (nth i ysf 0%Z =? 1)%Z.
    + rewrite idx_frd by lia. eexists. split; [reflexivity |].
      rewrite f64_neg_log_sum_snoc. reflexivity.
    + eexists. split; [reflexivity |]. rewrite app_nil_r. reflexivity.
  - rewrite E, Hcost. cbn [bind].
    destruct ysf; [congruence | reflexivity].
Qed.

(** [cost_func] takes the logarithm of the grouped-softmax quotients as
    they are, subtracts them from the cost and divides by the number of
    target entries. *)
Lemma f64_cost_func_value {LC : LearningCircuit} (self : QNNClassifier LC)
    (categories_ : list (list Z)) (theta : list R)
    (x_scaled : list (list R)) (y_scaled : list (list Z)) (c : circ LC) raw c2 :
  (cost self =? "log_loss")%string = true ->
  scale_y_param self = get_y_scale_param categories_ ->
  (sum_list (map length categories_) <= n_qubit LC)%nat ->
  _predict_inner LC x_scaled (update_parameters LC theta c) = (raw, c2) ->
  (length (concat y_scaled) <= length x_scaled * sum_list (map length categories_))%nat ->
  concat y_scaled <> [] ->
  F64.cost_func self theta x_scaled y_scaled c
  = (Ok (fdiv
           (f64_neg_log_sum
              (f64_hot_args
                 (flat_map (f64_grouped_softmax (y_exp_ratio self) (map length categories_))
                           raw)
                 (concat y_scaled) (length (concat y_scaled))))
           (Fin (INR (length (concat y_scaled))))), c2).
Proof.
  intros Hcost Hsp Hq Hraw Hlen Hne.
  rewrite get_y_scale_param_eq in Hsp.
  rewrite <- (length_map length categories_) in Hsp.
  set (sizes := map length categories_) in *.
  assert (Hrawlen : length raw = length x_scaled)
    by (rewrite <- (predict_inner_length LC x_scaled (update_parameters LC theta c)), Hraw;
        reflexivity).
  assert (Hrows : Forall (fun r => (sum_list sizes <= length r)%nat) raw).
  { pose proof (predict_inner_rows LC x_scaled (update_parameters LC theta c)) as H.
    rewrite Hraw in H. eapply Forall_impl; [exact H |]. intros r Hr. simpl in Hr. lia. }
  unfold F64.cost_func. rewrite Hcost, Hraw.
  rewrite (f64_cost_ypf_ok self sizes raw Hsp Hrows). cbn [bind].
  rewrite f64_cost_sum_ok; [reflexivity | | assumption].
  rewrite (flat_map_length_row _ (sum_list sizes)) by apply f64_grouped_softmax_length.
  lia.
Qed.

(** ** Inside the range of [float64] *)

Lemma pow2_pos n : 0 < 2 ^ n.
Proof. apply pow_lt. lra. Qed.

Lemma pow2_le m n : (m <= n)%nat -> 2 ^ m <= 2 ^ n.
Proof. intros H. apply Rle_pow; [lra | exact H]. Qed.

Lemma pow2_inv_le m n : (m <= n)%nat -> / 2 ^ n <= / 2 ^ m.
Proof.
  intros H. apply Rinv_le_contravar; [apply pow2_pos | apply pow2_le, H].
Qed.

Lemma f64_tiny_pos : 0 < f64_tiny.
Proof. unfold f64_tiny. apply Rinv_0_lt_compat, pow2_pos. Qed.

Lemma f64_huge_big : 2 ^ 1001 <= f64_huge.
Proof. unfold f64_huge. apply pow2_le. lia. Qed.

Lemma f64_tiny_small : f64_tiny <= / 2 ^ 1001.
Proof. unfold f64_tiny. apply pow2_inv_le. lia. Qed.

Lemma pow2_1001 : 2 ^ 1001 = 2 * 2 ^ 1000.
Proof. reflexivity. Qed.

(** A result between [2^-1000] and [2^1000] is kept as it is. *)
Lemma rnd_window (r : R) : / 2 ^ 1000 <= r <= 2 ^ 1000 -> rnd r = Fin r.
Proof.
  intros [Hlo Hhi].
  pose proof (pow2_pos 1000) as Hp.
  pose proof f64_huge_big as Hh. pose proof f64_tiny_small as Ht.
  rewrite pow2_1001 in Hh, Ht.
  assert (Hi : 0 < / 2 ^ 1000) by (apply Rinv_0_lt_compat, Hp).
  assert (Hi2 : / (2 * 2 ^ 1000) < / 2 ^ 1000).
  { apply Rinv_lt_contravar; [| lra]. apply Rmult_lt_0_compat; lra. }
  unfold rnd, flush.
  destruct (Rle_dec f64_huge r); [lra |].
  destruct (Rle_dec r (- f64_huge)); [lra |].
  rewrite Rabs_pos_eq by lra.
  destruct (Rle_dec r f64_tiny); [lra | reflexivity].
Qed.

Lemma rnd_zero : rnd 0 = Fin 0.
Proof.
  pose proof (pow2_pos 1000) as Hp. pose proof f64_huge_big as Hh.
  rewrite pow2_1001 in Hh. pose proof f64_tiny_pos as Ht.
  unfold rnd, flush.
  destruct (Rle_dec f64_huge 0); [lra |].
  destruct (Rle_dec 0 (- f64_huge)); [lra |].
  rewrite Rabs_R0. destruct (Rle_dec 0 f64_tiny); [reflexivity | lra].
Qed.

Lemma pow2_10 : 2 ^ 10 = 1024.
Proof. simpl. lra. Qed.

(** A product of magnitude at most 300 stays finite, of magnitude at
    most 300. *)
Lemma rnd_bounded (r : R) :
  Rabs r <= 300 -> rnd r = Fin (flush r) /\ Rabs (flush r) <= 300.
Proof.
  intros Hr.
  assert (Hh : 1024 <= f64_huge).
  { rewrite <- pow2_10. unfold f64_huge. apply pow2_le. lia. }
  split.
  - unfold rnd.
    destruct (Rle_dec f64_huge r) as [H | _].
    { pose proof (Rle_abs r). lra. }
    destruct (Rle_dec r (- f64_huge)) as [H | _]; [| reflexivity].
    pose proof (Rle_abs (- r)) as Ha. rewrite Rabs_Ropp in Ha. lra.
  - unfold flush. destruct (Rle_dec (Rabs r) f64_tiny); [| exact Hr].
    rewrite Rabs_R0. lra.
Qed.

Lemma exp_INR (n : nat) : exp (INR n) = exp 1 ^ n.
Proof.
  induction n as [|n IH]; [simpl; apply exp_0 |].
  rewrite S_INR, exp_plus, IH. simpl. ring.
Qed.

Lemma pow3_300 : 3 ^ 300 <= 2 ^ 480.
Proof.
  replace (3 ^ 300) with ((3 ^ 5) ^ 60) by (rewrite <- pow_mult; reflexivity).
  replace (2 ^ 480) with ((2 ^ 8) ^ 60) by (rewrite <- pow_mult; reflexivity).
  apply pow_incr. simpl. lra.
Qed.

Lemma exp_300 : exp 300 <= 2 ^ 480.
Proof.
  replace 300 with (INR 300) by (rewrite INR_IZR_INZ; reflexivity).
  rewrite exp_INR.
  apply Rle_trans with (3 ^ 300); [| apply pow3_300].
  apply pow_incr. split; [left; apply exp_pos | apply exp_le_3].
Qed.

Lemma exp_le_mono (x y : R) : x <= y -> exp x <= exp y.
Proof.
  intros [H | ->]; [left; apply exp_increasing, H | right; reflexivity].
Qed.

(** The exponential of an argument of magnitude at most 300. *)
Lemma exp_bounded (y : R) : Rabs y <= 300 -> / 2 ^ 480 <= exp y <= 2 ^ 480.
Proof.
  intros Hy. pose proof (Rle_abs y) as H1.
  pose proof (Rle_abs (- y)) as H2. rewrite Rabs_Ropp in H2.
  split.
  - replace y with (- - y) by ring. rewrite exp_Ropp.
    apply Rinv_le_contravar; [apply exp_pos |].
    apply Rle_trans with (exp 300); [apply exp_le_mono; lra | apply exp_300].
  - apply Rle_trans with (exp 300); [apply exp_le_mono; lra | apply exp_300].
Qed.

Lemma sumf_bounds (e : nat -> R) (A : R) (j : nat) :
  (forall k, (k < j)%nat -> 0 <= e k <= A) ->
  0 <= sumf e j <= INR j * A.
Proof.
  induction j as [|j IH]; intros H.
  - simpl. lra.
  - rewrite S_INR. cbn [sumf].
    specialize (IH ltac:(intros k Hk; apply H; lia)).
    specialize (H j ltac:(lia)). lra.
Qed.

Lemma INR_1024 (j : nat) : (j <= 1024)%nat -> INR j <= 1024.
Proof.
  intros H. apply le_INR in H.
  replace 1024 with (INR 1024) by (rewrite INR_IZR_INZ; reflexivity). exact H.
Qed.

Lemma pow2_490 : 2 ^ 490 = 1024 * 2 ^ 480.
Proof.
  replace (2 ^ 490) with (2 ^ 10 * 2 ^ 480) by (rewrite <- pow_add; reflexivity).
  rewrite pow2_10. reflexivity.
Qed.

Lemma pow2_970 : 2 ^ 970 = 2 ^ 480 * 2 ^ 490.
Proof. rewrite <- pow_add. reflexivity. Qed.

(** The sum of at most 1024 exponentials of arguments of magnitude at
    most 300 is computed without overflow or underflow. *)
Lemma f64_sum_fin (f : nat -> float64) (e : nat -> R) (j : nat) :
  (j <= 1024)%nat ->
  (forall k, (k < j)%nat -> f k = Fin (e k) /\ / 2 ^ 480 <= e k <= 2 ^ 480) ->
  f64_sum f j = Fin (sumf e j).
Proof.
  induction j as [|j IH]; intros Hj H; [reflexivity |].
  cbn [f64_sum sumf]. rewrite IH by (try lia; intros k Hk; apply H; lia).
  destruct (H j ltac:(lia)) as [-> [Hlo Hhi]].
  unfold fadd. apply rnd_window.
  pose proof (pow2_pos 480) as Hp.
  assert (Hi : 0 < / 2 ^ 480) by (apply Rinv_0_lt_compat, Hp).
  destruct (sumf_bounds e (2 ^ 480) j) as [Hs0 Hs1].
  { intros k Hk. destruct (H k ltac:(lia)) as [_ [Hk1 Hk2]]. lra. }
  pose proof (INR_1024 j ltac:(lia)) as HjR.
  pose proof (pos_INR j) as Hj0.
  pose proof (pow2_inv_le 480 1000 ltac:(lia)) as H1.
  pose proof (pow2_le 490 1000 ltac:(lia)) as H2. rewrite pow2_490 in H2.
  split; [lra |].
  assert (INR j * 2 ^ 480 <= 1023 * 2 ^ 480).
  { apply Rmult_le_compat_r; [lra |].
    assert (Hj' : (j <= 1023)%nat) by lia. apply le_INR in Hj'.
    replace 1023 with (INR 1023) by (rewrite INR_IZR_INZ; reflexivity). exact Hj'. }
  lra.
Qed.

Lemma fexp_bounded (x : R) :
  Rabs x <= 300 ->
  fexp (rnd x) = Fin (exp (flush x)) /\ / 2 ^ 480 <= exp (flush x) <= 2 ^ 480.
Proof.
  intros Hx. destruct (rnd_bounded x Hx) as [-> Hf].
  pose proof (exp_bounded _ Hf) as [Hlo Hhi].
  split; [| split; assumption].
  unfold fexp. apply rnd_window.
  pose proof (pow2_inv_le 480 1000 ltac:(lia)).
  pose proof (pow2_le 480 1000 ltac:(lia)). lra.
Qed.

Lemma quotient_window (a b A : R) :
  0 < A -> / A <= a -> a <= b -> b <= 1024 * A -> 1024 * A * A <= 2 ^ 1000 ->
  / 2 ^ 1000 <= a / b <= 2 ^ 1000 /\ 0 < a / b <= 1.
Proof.
  intros HA Ha Hab Hb Hc.
  assert (Hi : 0 < / A) by (apply Rinv_0_lt_compat, HA).
  assert (Ha0 : 0 < a) by lra. assert (Hb0 : 0 < b) by lra.
  assert (Hq1 : a / b <= 1).
  { apply (Rmult_le_reg_r b); [exact Hb0 |]. unfold Rdiv.
    rewrite Rmult_assoc, Rinv_l by lra. lra. }
  assert (Hq0 : / (1024 * A * A) <= a / b).
  { apply (Rmult_le_reg_r b); [exact Hb0 |]. unfold Rdiv.
    rewrite (Rmult_assoc a), Rinv_l, Rmult_1_r by lra.
    apply Rle_trans with (/ (1024 * A * A) * (1024 * A)).
    - apply Rmult_le_compat_l; [| exact Hb].
      left. apply Rinv_0_lt_compat. apply Rmult_lt_0_compat; lra.
    - replace (/ (1024 * A * A) * (1024 * A)) with (/ A) by (field; lra). exact Ha. }
  assert (Hc0 : 0 < 1024 * A * A) by (apply Rmult_lt_0_compat; lra).
  assert (Hw : / 2 ^ 1000 <= / (1024 * A * A))
    by (apply Rinv_le_contravar; assumption).
  assert (Hq2 : 0 < / (1024 * A * A)) by (apply Rinv_0_lt_compat, Hc0).
  assert (H1 : 1 <= 2 ^ 1000) by (apply pow_R1_Rle; lra).
  repeat split; lra.
Qed.

(** Inside the range, the grouped softmax of [float64] is the quotient of
    real numbers: finite, positive, and summing to 1 over the group. *)
Lemma f64_softmax_in_range (gamma : R) (r : list R) (h s : nat) :
  (s <= 1024)%nat ->
  (forall k, (k < s)%nat -> Rabs (gamma * rd r (h + k)) <= 300) ->
  let e := fun k => exp (flush (gamma * rd r (h + k))) in
  (forall k, (k < s)%nat ->
     f64_softmax_prob gamma r h s k = Fin (e k / sumf e s) /\
     0 < e k / sumf e s <= 1) /\
  ((0 < s)%nat -> sumf (fun k => e k / sumf e s) s = 1).
Proof.
  intros Hs Hr e.
  assert (He : forall k, (k < s)%nat ->
            fexp (rnd (gamma * rd r (h + k))) = Fin (e k) /\
            / 2 ^ 480 <= e k <= 2 ^ 480).
  { intros k Hk. apply fexp_bounded, Hr, Hk. }
  assert (Hpos : forall k, 0 <= e k) by (intros k; left; apply exp_pos).
  assert (Hsum : f64_sum (fun k' => fexp (rnd (gamma * rd r (h + k')))) s
                 = Fin (sumf e s)) by (apply f64_sum_fin; assumption).
  pose proof (pow2_pos 480) as Hp.
  split.
  - intros k Hk. destruct (He k Hk) as [Hk1 [Hlo Hhi]].
    unfold f64_softmax_prob. rewrite Hk1, Hsum.
    pose proof (sumf_ge_term e s k Hpos Hk) as Hge.
    destruct (sumf_bounds e (2 ^ 480) s) as [_ Hub].
    { intros k' Hk'. destruct (He k' Hk') as [_ [H1 H2]]. split; [apply Hpos | exact H2]. }
    pose proof (INR_1024 s Hs) as HsR.
    assert (Hb : sumf e s <= 1024 * 2 ^ 480).
    { apply Rle_trans with (INR s * 2 ^ 480); [exact Hub |].
      apply Rmult_le_compat_r; lra. }
    assert (Hc : 1024 * 2 ^ 480 * 2 ^ 480 <= 2 ^ 1000).
    { pose proof (pow2_le 970 1000 ltac:(lia)) as H.
      rewrite pow2_970, pow2_490 in H. lra. }
    destruct (quotient_window (e k) (sumf e s) (2 ^ 480) Hp Hlo Hge Hb Hc) as [Hw Hq].
    split; [| exact Hq].
    assert (Hi : 0 < / 2 ^ 480) by (apply Rinv_0_lt_compat, Hp).
    unfold fdiv. destruct (Req_dec_T (sumf e s) 0) as [H0 | _]; [lra |].
    apply rnd_window, Hw.
  - intros Hs0. rewrite (sumf_div e). apply Rdiv_diag.
    apply Rgt_not_eq, Rlt_gt, sumf_pos; [intros; apply exp_pos | exact Hs0].
Qed.

(** Where, in addition, no product [gamma * r[h+k]] underflows, the
    [float64] quotient is the quotient of the reading with real numbers. *)
Lemma f64_softmax_exact (gamma : R) (r : list R) (h s k : nat) :
  (s <= 1024)%nat ->
  (forall k, (k < s)%nat -> Rabs (gamma * rd r (h + k)) <= 300) ->
  (forall k, (k < s)%nat -> flush (gamma * rd r (h + k)) = gamma * rd r (h + k)) ->
  (k < s)%nat ->
  f64_softmax_prob gamma r h s k = Fin (softmax_prob (NP := exact_numpy) gamma r h s k).
Proof.
  intros Hs Hr Hf Hk.
  destruct (f64_softmax_in_range gamma r h s Hs Hr) as [Hq _].
  destruct (Hq k Hk) as [-> _]. unfold softmax_prob. cbn [np_exp exact_numpy].
  rewrite (Hf k Hk). f_equal. f_equal.
  apply sumf_ext. intros k' Hk'. rewrite (Hf k' Hk'). reflexivity.
Qed.

(** ** At the ends of the range *)

Lemma rnd_window_neg (r : R) : / 2 ^ 1000 <= - r <= 2 ^ 1000 -> rnd r = Fin r.
Proof.
  intros [Hlo Hhi].
  pose proof (pow2_pos 1000) as Hp.
  pose proof f64_huge_big as Hh. pose proof f64_tiny_small as Ht.
  rewrite pow2_1001 in Hh, Ht.
  assert (Hi : 0 < / 2 ^ 1000) by (apply Rinv_0_lt_compat, Hp).
  assert (Hi2 : / (2 * 2 ^ 1000) < / 2 ^ 1000).
  { apply Rinv_lt_contravar; [| lra]. apply Rmult_lt_0_compat; lra. }
  unfold rnd, flush.
  destruct (Rle_dec f64_huge r); [lra |].
  destruct (Rle_dec r (- f64_huge)); [lra |].
  rewrite <- Rabs_Ropp, Rabs_pos_eq by lra.
  destruct (Rle_dec (- r) f64_tiny); [lra | reflexivity].
Qed.

Lemma window_1000 : / 2 ^ 1000 <= 1 /\ 1000 <= 2 ^ 1000.
Proof.
  pose proof (pow2_le 10 1000 ltac:(lia)) as H. rewrite pow2_10 in H.
  pose proof (pow2_pos 1000) as Hp.
  split; [| lra].
  rewrite <- Rinv_1. apply Rinv_le_contravar; lra.
Qed.

Lemma exp_1_lower : 2.25 <= exp 1.
Proof.
  assert (H : exp 1 = exp (/ 2) * exp (/ 2)) by (rewrite <- exp_plus; f_equal; lra).
  pose proof (exp_ineq1_le (/ 2)) as H1. rewrite H. nra.
Qed.

Lemma pow_225_10 : 2 ^ 11 <= 2.25 ^ 10.
Proof. simpl. lra. Qed.

Lemma exp_1000_lower : 2 ^ 1100 <= exp 1000.
Proof.
  replace 1000 with (INR 1000) by (rewrite INR_IZR_INZ; reflexivity).
  rewrite exp_INR.
  apply Rle_trans with (2.25 ^ 1000).
  - replace (2 ^ 1100) with ((2 ^ 11) ^ 100) by (rewrite <- pow_mult; reflexivity).
    replace (2.25 ^ 1000) with ((2.25 ^ 10) ^ 100) by (rewrite <- pow_mult; reflexivity).
    apply pow_incr. split; [left; apply pow2_pos | apply pow_225_10].
  - apply pow_incr. split; [lra | apply exp_1_lower].
Qed.

(** [np.exp(1000.0)] overflows to [inf]. *)
Lemma fexp_1000 : fexp (Fin 1000) = PInf.
Proof.
  unfold fexp, rnd.
  destruct (Rle_dec f64_huge (exp 1000)) as [_ | H]; [reflexivity |].
  exfalso. apply H. unfold f64_huge.
  apply Rle_trans with (2 ^ 1100); [apply pow2_le; lia | apply exp_1000_lower].
Qed.

(** [np.exp(-1000.0)] underflows to 0. *)
Lemma fexp_minus_1000 : fexp (Fin (-1000)) = Fin 0.
Proof.
  assert (He : exp (-1000) <= f64_tiny).
  { replace (exp (-1000)) with (/ exp 1000) by (rewrite <- exp_Ropp; f_equal; lra).
    unfold f64_tiny.
    apply Rinv_le_contravar; [apply pow2_pos |].
    apply Rle_trans with (2 ^ 1100); [apply pow2_le; lia | apply exp_1000_lower]. }
  pose proof (exp_pos (-1000)) as Hp.
  pose proof f64_huge_big as Hh. pose proof f64_tiny_small as Ht.
  pose proof (pow2_pos 1001) as Hp1.
  assert (H1 : / 2 ^ 1001 < 1).
  { rewrite <- Rinv_1. apply Rinv_lt_contravar; [lra |].
    pose proof (pow2_le 1 1001 ltac:(lia)) as H. simpl in H. lra. }
  assert (H2 : 1 <= 2 ^ 1001) by (apply pow_R1_Rle; lra).
  unfold fexp, rnd, flush.
  destruct (Rle_dec f64_huge (exp (-1000))); [lra |].
  destruct (Rle_dec (exp (-1000)) (- f64_huge)); [lra |].
  rewrite Rabs_pos_eq by lra.
  destruct (Rle_dec (exp (-1000)) f64_tiny); [reflexivity | lra].
Qed.

Lemma fexp_0 : fexp (Fin 0) = Fin 1.
Proof.
  unfold fexp. rewrite exp_0. apply rnd_window.
  pose proof window_1000 as [H1 H2]. lra.
Qed.

Lemma rnd_1000 : rnd 1000 = Fin 1000.
Proof.
  apply rnd_window. pose proof window_1000 as [H1 H2]. lra.
Qed.

Lemma rnd_minus_1000 : rnd (-1000) = Fin (-1000).
Proof.
  apply rnd_window_neg. pose proof window_1000 as [H1 H2]. lra.
Qed.

Lemma rnd_1 : rnd 1 = Fin 1.
Proof.
  apply rnd_window. pose proof window_1000 as [H1 H2]. lra.
Qed.

(** ** The grouped softmax of [cost_func] in [float64] *)

(** C8, as stated, fails.  Take [y_exp_ratio = 1000] and the raw outputs
    [[1, 0]] of one sample, a finite vector.  [np.exp(1000.0)] is [inf],
    so [wa = inf + 1 = inf] and the two quotients are [inf / inf = nan]
    and [1 / inf = 0]: the probabilities of the group are [nan] and 0
    and their sum is [nan], not 1. *)
Lemma cost_ypf_overflow_nan :
  exists ypf,
    F64.cost_ypf (toy_gamma 1000) [[1; 0]] = Ok ypf /\
    ypf = [NaN; Fin 0] /\
    f64_sum (frd ypf) 2 = NaN.
Proof.
  rewrite (f64_cost_ypf_ok (toy_gamma 1000) [2%nat] [[1; 0]]).
  - unfold f64_grouped_softmax, f64_softmax_prob. cbn.
    rewrite Rmult_1_r, Rmult_0_r, rnd_1000, fexp_1000, rnd_zero, fexp_0.
    eexists. split; [reflexivity |]. split; reflexivity.
  - reflexivity.
  - repeat constructor.
Qed.

(** C8, amended.  The list [ypf] that [cost_func] builds holds, for every
    sample [i] and every group [j] of offset [h] and size [s], at the
    positions [i*W + h + k] for [k < s], the independent softmax of that
    group computed in [float64]:
    [exp(gamma*r[h+k]) / sum_{k'<s} exp(gamma*r[h+k'])].  Where every
    [gamma*r[h+k]] of the group has a magnitude of at most 300 (and the
    group at most 1024 levels) nothing leaves the range of [float64]: the
    [s] probabilities are finite and positive and sum to 1.  Read with
    real numbers for floats, [ypf] holds the same quotients at the same
    positions. *)
Theorem cost_ypf_float64_softmax {LC : LearningCircuit}
    (self : QNNClassifier LC) (categories_ : list (list Z)) (y_pred : list (list R)) :
  scale_y_param self = get_y_scale_param categories_ ->
  Forall (fun aaa => aaa <> []) categories_ ->
  Forall (fun r => (sum_list (map length categories_) <= length r)%nat) y_pred ->
  exists ypf, F64.cost_ypf self y_pred = Ok ypf /\
    forall i r j, y_pred !! i = Some r -> (j < length categories_)%nat ->
      let gamma := y_exp_ratio self in
      let sizes := map length categories_ in
      let h := offset_of sizes j in
      let s := nth j sizes 0%nat in
      (forall k, (k < s)%nat ->
         ypf !! (i * sum_list sizes + (h + k))%nat
         = Some (fdiv (fexp (rnd (gamma * rd r (h + k))))
                      (f64_sum (fun k' => fexp (rnd (gamma * rd r (h + k')))) s))) /\
      ((s <= 1024)%nat ->
       (forall k, (k < s)%nat -> Rabs (gamma * rd r (h + k)) <= 300) ->
       let e := fun k => exp (flush (gamma * rd r (h + k))) in
       (forall k, (k < s)%nat ->
          ypf !! (i * sum_list sizes + (h + k))%nat = Some (Fin (e k / sumf e s)) /\
          0 < e k / sumf e s <= 1) /\
       sumf (fun k => e k / sumf e s) s = 1) /\
      forall NP : Numpy, exists ypf',
        cost_ypf (NP := NP) self y_pred = Ok ypf' /\
        forall k, (k < s)%nat ->
          ypf' !! (i * sum_list sizes + (h + k))%nat
          = Some (np_exp (gamma * rd r (h + k))
                  / sumf (fun k' => np_exp (gamma * rd r (h + k'))) s).
Proof.
  intros Hsp Hne Hrows. rewrite get_y_scale_param_eq in Hsp.
  rewrite <- (length_map length categories_) in Hsp.
  exists (flat_map (f64_grouped_softmax (y_exp_ratio self) (map length categories_)) y_pred).
  split; [apply f64_cost_ypf_ok; assumption |].
  intros i r j Hr Hj gamma sizes h s.
  assert (Hpos : (h + s <= sum_list sizes)%nat).
  { pose proof (offset_of_end sizes j) as Hend.
    unfold sizes in Hend at 1. rewrite length_map in Hend.
    specialize (Hend Hj). fold h s in Hend. exact Hend. }
  assert (Hlook : forall k, (k < s)%nat ->
            flat_map (f64_grouped_softmax gamma sizes) y_pred
              !! (i * sum_list sizes + (h + k))%nat
            = Some (f64_softmax_prob gamma r h s k)).
  { intros k Hk.
    rewrite (flat_map_lookup_row _ (sum_list sizes) y_pred
               (f64_grouped_softmax_length gamma sizes) i r (h + k) Hr).
    - apply f64_grouped_softmax_lookup; [unfold sizes; rewrite length_map |]; assumption.
    - pose proof (offset_of_end sizes j) as Hend.
      unfold sizes in Hend at 1. rewrite length_map in Hend.
      specialize (Hend Hj). fold h s in Hend. lia. }
  split; [| split].
  - intros k Hk. rewrite Hlook by assumption. reflexivity.
  - intros Hs Hrange e.
    destruct (f64_softmax_in_range gamma r h s Hs Hrange) as [Hq Hsum].
    split.
    + intros k Hk. rewrite Hlook by assumption.
      destruct (Hq k Hk) as [-> Hqpos]. split; [reflexivity | exact Hqpos].
    + apply Hsum. apply sizes_pos; assumption.
  - intros NP.
    exists (flat_map (grouped_softmax gamma sizes) y_pred).
    split; [apply cost_ypf_ok; assumption |].
    intros k Hk.
    rewrite (flat_map_lookup_row _ (sum_list sizes) y_pred
               (grouped_softmax_length gamma sizes) i r (h + k) Hr) by lia.
    apply grouped_softmax_lookup; [unfold sizes; rewrite length_map |]; assumption.
Qed.

(** The two-level model on one sample with the raw outputs [[0, 0]]: both
    probabilities are 1/2. *)
Lemma cost_ypf_float64_softmax_witness :
  exists ypf,
    F64.cost_ypf (toy_fitted "BFGS" "log_loss") [[0; 0]] = Ok ypf /\
    let e := fun k => exp (flush (2.2 * rd [0; 0] k)) in
    ypf !! 1%nat = Some (Fin (e 1%nat / sumf e 2)) /\
    sumf (fun k => e k / sumf e 2) 2 = 1.
Proof.
  destruct (cost_ypf_float64_softmax (toy_fitted "BFGS" "log_loss") [[0; 1]%Z] [[0; 0]])
    as [ypf [E H]].
  - reflexivity.
  - repeat constructor; discriminate.
  - repeat constructor; simpl; lia.
  - exists ypf. split; [exact E |].
    destruct (H 0%nat [0; 0] 0%nat eq_refl ltac:(simpl; lia)) as [_ [H2 _]].
    destruct H2 as [H3 H4].
    + simpl. lia.
    + intros k Hk. replace (rd [0; 0] (offset_of (map length [[0; 1]%Z]) 0 + k)) with 0.
      * rewrite Rmult_0_r, Rabs_R0. lra.
      * destruct k as [|[|k]]; [reflexivity | reflexivity | simpl in Hk; lia].
    + intros e. split; [| exact H4].
      destruct (H3 1%nat ltac:(simpl; lia)) as [H5 _]. exact H5.
Defined.

(** ** The arguments of the logarithm *)

Lemma f64_hot_args_elem ypf ysf n p :
  (n <= length ypf)%nat -> p ∈ f64_hot_args ypf ysf n -> p ∈ ypf.
Proof.
  intros Hn Hp. apply list_elem_of_In in Hp. unfold f64_hot_args in Hp.
  apply in_flat_map in Hp. destruct Hp as [i [Hi Hp]].
  apply in_seq in Hi.
  destruct (nth i ysf 0%Z =? 1)%Z; [| destruct Hp].
  destruct Hp as [<- | []].
  destruct (lookup_lt_is_Some_2 ypf i ltac:(lia)) as [v E].
  unfold frd. rewrite nth_lookup, E. simpl. apply list_elem_of_lookup. eauto.
Qed.

Lemma f64_grouped_softmax_elem gamma sizes r p :
  p ∈ f64_grouped_softmax gamma sizes r ->
  exists j k, (j < length sizes)%nat /\ (k < nth j sizes 0)%nat /\
    p = f64_softmax_prob gamma r (offset_of sizes j) (nth j sizes 0%nat) k.
Proof.
  intros Hp. apply list_elem_of_In in Hp. unfold f64_grouped_softmax in Hp.
  apply in_flat_map in Hp. destruct Hp as [j [Hj Hp]].
  apply in_map_iff in Hp. destruct Hp as [k [<- Hk]].
  apply in_seq in Hj. apply in_seq in Hk.
  exists j, k. repeat split; lia.
Qed.

Lemma f64_hot_args_quotients gamma sizes (raw : list (list R)) ysf n p :
  (n <= length raw * sum_list sizes)%nat ->
  p ∈ f64_hot_args (flat_map (f64_grouped_softmax gamma sizes) raw) ysf n ->
  exists r j k, r ∈ raw /\ (j < length sizes)%nat /\ (k < nth j sizes 0)%nat /\
    p = f64_softmax_prob gamma r (offset_of sizes j) (nth j sizes 0%nat) k.
Proof.
  intros Hn Hp. apply f64_hot_args_elem in Hp.
  - apply list_elem_of_In, in_flat_map in Hp. destruct Hp as [r [Hr Hp]].
    apply list_elem_of_In in Hr, Hp.
    destruct (f64_grouped_softmax_elem _ _ _ _ Hp) as [j [k [Hj [Hk ->]]]].
    exists r, j, k. repeat split; assumption.
  - rewrite (flat_map_length_row _ (sum_list sizes)) by apply f64_grouped_softmax_length.
    exact Hn.
Qed.

Lemma sizes_le (cats : list (list Z)) (b : nat) j :
  Forall (fun aaa => (length aaa <= b)%nat) cats -> (j < length cats)%nat ->
  (nth j (map length cats) 0 <= b)%nat.
Proof.
  intros Hle Hj. destruct (lookup_lt_is_Some_2 cats j Hj) as [aaa E].
  rewrite nth_lookup, list_lookup_fmap, E. simpl.
  rewrite Forall_forall in Hle. apply Hle, list_elem_of_lookup. eauto.
Qed.

(** C7, as stated, fails.  Take [y_exp_ratio = 1000], a circuit whose two
    expectation values are 0 and -1, and the target [[0, 1]].
    [np.exp(-1000.0)] underflows to 0, so [wa = 1 + 0] and
    [ypf = [1, 0]].  Nothing floors the second probability: [np.log] is
    applied to 0 and returns [-inf], and the cost that [cost_func] returns
    is [inf]. *)
Lemma cost_func_log_of_zero :
  F64.cost_ypf (fixed_model [0; -1] 1000) [[0; -1]] = Ok [Fin 1; Fin 0] /\
  flog (Fin 0) = NInf /\
  exists c',
    F64.cost_func (fixed_model [0; -1] 1000) [1] [[0]] [[0; 1]]%Z toy_start
    = (Ok PInf, c').
Proof.
  assert (Hypf : flat_map (f64_grouped_softmax 1000 [2%nat]) [[0; -1]]
                 = [Fin 1; Fin 0]).
  { unfold f64_grouped_softmax, f64_softmax_prob. cbn.
    replace (1000 * -1) with (-1000) by lra.
    rewrite Rmult_0_r, rnd_zero, fexp_0, rnd_minus_1000, fexp_minus_1000.
    assert (Hwa : fadd (fadd (Fin 0) (Fin 1)) (Fin 0) = Fin 1).
    { unfold fadd. rewrite Rplus_0_l, rnd_1, Rplus_0_r. apply rnd_1. }
    rewrite Hwa. unfold fdiv.
    destruct (Req_dec_T 1 0) as [H | _]; [lra |].
    unfold Rdiv. rewrite Rinv_1, Rmult_1_r, Rmult_0_l, rnd_1, rnd_zero. reflexivity. }
  assert (Hlog : flog (Fin 0) = NInf).
  { unfold flog. destruct (Rlt_dec 0 0); [lra | reflexivity]. }
  split; [| split; [exact Hlog |]].
  - rewrite (f64_cost_ypf_ok (fixed_model [0; -1] 1000) [2%nat] [[0; -1]]).
    + change (y_exp_ratio (fixed_model [0; -1] 1000)) with 1000.
      rewrite Hypf. reflexivity.
    + reflexivity.
    + repeat constructor.
  - eexists.
    rewrite (f64_cost_func_value (fixed_model [0; -1] 1000) [[0; 1]%Z] [1] [[0]]
               [[0; 1]]%Z toy_start [[0; -1]]
               {| toy_params := [1]; toy_runs := 1; toy_backprops := 0 |}).
    + change (y_exp_ratio (fixed_model [0; -1] 1000)) with 1000.
      change (map length [[0; 1]%Z]) with [2%nat].
      rewrite Hypf. cbn [concat app length f64_hot_args flat_map seq nth Z.eqb Pos.eqb frd].
      unfold f64_neg_log_sum. cbn [fold_left]. rewrite Hlog.
      unfold fsub, fopp, fadd, fdiv.
      destruct (Rlt_dec (INR 2) 0) as [H | _]; [| reflexivity].
      pose proof (pos_INR 2). lra.
    + reflexivity.
    + reflexivity.
    + simpl. lia.
    + reflexivity.
    + simpl. lia.
    + discriminate.
Qed.

(** C7, amended.  In [cost_func] no probability is floored and the
    softmax is not stabilised: [np.log] is applied to the grouped-softmax
    quotient [exp(gamma*r[h+k]) / sum_{k'<s} exp(gamma*r[h+k'])], as
    [float64] computes it, of every position whose target is 1; each
    logarithm is subtracted from the cost, and the cost is divided by the
    number of target entries.  [cost_func] returns that value and does
    not raise.  Where every [gamma*r[m]] has a magnitude of at most 300
    (and every group at most 1024 levels) each of these quotients is a
    finite number in (0, 1], so the logarithm is not taken at zero.  Read
    with real numbers for floats, [cost_func] returns the same expression
    of the same quotients. *)
Theorem cost_func_log_unfloored {LC : LearningCircuit} (self : QNNClassifier LC)
    (categories_ : list (list Z)) (theta : list R)
    (x_scaled : list (list R)) (y_scaled : list (list Z)) (c : circ LC) raw c2 :
  (cost self =? "log_loss")%string = true ->
  scale_y_param self = get_y_scale_param categories_ ->
  (sum_list (map length categories_) <= n_qubit LC)%nat ->
  _predict_inner LC x_scaled (update_parameters LC theta c) = (raw, c2) ->
  (length (concat y_scaled) <= length x_scaled * sum_list (map length categories_))%nat ->
  concat y_scaled <> [] ->
  let gamma := y_exp_ratio self in
  let sizes := map length categories_ in
  let ysf := concat y_scaled in
  let args :=
    f64_hot_args (flat_map (f64_grouped_softmax gamma sizes) raw) ysf (length ysf) in
  F64.cost_func self theta x_scaled y_scaled c
  = (Ok (fdiv (fold_left (fun cost p => fsub cost (flog p)) args (Fin 0))
              (Fin (INR (length ysf)))), c2) /\
  (forall p, p ∈ args ->
     exists r j k, r ∈ raw /\ (j < length sizes)%nat /\ (k < nth j sizes 0)%nat /\
       let h := offset_of sizes j in
       let s := nth j sizes 0%nat in
       p = fdiv (fexp (rnd (gamma * rd r (h + k))))
                (f64_sum (fun k' => fexp (rnd (gamma * rd r (h + k')))) s)) /\
  (Forall (fun aaa => (length aaa <= 1024)%nat) categories_ ->
   (forall r m, r ∈ raw -> (m < sum_list sizes)%nat -> Rabs (gamma * rd r m) <= 300) ->
   forall p, p ∈ args -> exists q, p = Fin q /\ 0 < q <= 1) /\
  (forall NP : Numpy,
     cost_func (NP := NP) self theta x_scaled y_scaled c
     = (Ok (neg_log_sum
              (hot_args (flat_map (grouped_softmax gamma sizes) raw) ysf (length ysf))
            / INR (length ysf)), c2)).
Proof.
  intros Hcost Hsp Hq Hraw Hlen Hne gamma sizes ysf args.
  assert (Hrawlen : length raw = length x_scaled)
    by (rewrite <- (predict_inner_length LC x_scaled (update_parameters LC theta c)), Hraw;
        reflexivity).
  assert (Hargs : forall p, p ∈ args ->
            exists r j k, r ∈ raw /\ (j < length sizes)%nat /\ (k < nth j sizes 0)%nat /\
              p = f64_softmax_prob gamma r (offset_of sizes j) (nth j sizes 0%nat) k).
  { intros p Hp. apply (f64_hot_args_quotients gamma sizes raw ysf (length ysf) p).
    - rewrite Hrawlen. exact Hlen.
    - exact Hp. }
  split; [| split; [| split]].
  - apply (f64_cost_func_value self categories_ theta x_scaled y_scaled c raw c2);
      assumption.
  - intros p Hp. destruct (Hargs p Hp) as [r [j [k [Hr [Hj [Hk ->]]]]]].
    exists r, j, k. repeat split; assumption.
  - intros Hsz Hrange p Hp.
    destruct (Hargs p Hp) as [r [j [k [Hr [Hj [Hk ->]]]]]].
    unfold sizes in Hj. rewrite length_map in Hj.
    destruct (f64_softmax_in_range gamma r (offset_of sizes j) (nth j sizes 0%nat))
      as [Hin _].
    + apply sizes_le; assumption.
    + intros k' Hk'. apply Hrange; [exact Hr |].
      pose proof (offset_of_end sizes j) as Hend.
      unfold sizes in Hend at 1. rewrite length_map in Hend.
      specialize (Hend Hj). lia.
    + destruct (Hin k Hk) as [-> Hpos]. eexists. split; [reflexivity | exact Hpos].
  - intros NP.
    apply (cost_func_value self categories_ theta x_scaled y_scaled c raw c2);
      assumption.
Qed.

(** The two samples of the concrete adapter, targets [[1,0]] and [[0,1]]:
    the cost is returned, and both logarithms are taken at a positive
    number. *)
Lemma cost_func_log_unfloored_witness :
  exists v c2,
    F64.cost_func (toy_fitted "BFGS" "log_loss") [1] [[0]; [0]] [[1; 0]; [0; 1]]%Z toy_start
    = (Ok v, c2) /\
    forall p,
      p ∈ f64_hot_args (flat_map (f64_grouped_softmax 2.2 [2%nat]) [[0; 0]; [0; 0]])
            [1; 0; 0; 1]%Z 4 ->
      exists q, p = Fin q /\ 0 < q <= 1.
Proof.
  destruct (cost_func_log_unfloored (toy_fitted "BFGS" "log_loss") [[0; 1]%Z] [1]
              [[0]; [0]] [[1; 0]; [0; 1]]%Z toy_start [[0; 0]; [0; 0]]
              {| toy_params := [1]; toy_runs := 2; toy_backprops := 0 |})
    as [Hval [_ [Hpos _]]].
  - reflexivity.
  - reflexivity.
  - simpl; lia.
  - reflexivity.
  - simpl; lia.
  - discriminate.
  - eexists. eexists. split; [exact Hval |].
    apply Hpos.
    + repeat constructor.
    + intros r m Hr Hm.
      assert (Hr0 : r = [0; 0]).
      { repeat (apply elem_of_cons in Hr; destruct Hr as [-> | Hr]; [reflexivity |]).
        apply elem_of_nil in Hr. destruct Hr. }
      subst r.
      replace (rd [0; 0] m) with 0.
      * change (y_exp_ratio (toy_fitted "BFGS" "log_loss")) with 2.2.
        rewrite Rmult_0_r, Rabs_R0. lra.
      * destruct m as [|[|m]]; [reflexivity | reflexivity | simpl in Hm; lia].
Defined.
